(** * githubgql: the [graphql] depagination engine

    A shallow embedding of [src/githubgql/githubgql.py].  The only function of
    the module is [graphql]; it posts a GraphQL query, retries a fixed set of
    HTTP statuses with exponential backoff, classifies the final reply and
    then walks a caller-supplied cursor tree to merge paginated connections.

    The HTTP collaborator ([requests.post]) is modelled by a scripted server:
    the world holds the replies that the server is going to give, in order,
    and a log of everything the function did to the outside (requests sent,
    replies received, lines printed, sleeps).  Decoded JSON documents are
    values of [json]; in-place mutation of the response tree is an update of
    the document at the path the mutated object was reached by. *)

From Stdlib Require Import List String Ascii ZArith QArith Qpower Bool Lia Arith.
Import ListNotations.
Open Scope string_scope.
Open Scope list_scope.
Open Scope Z_scope.

Set Implicit Arguments.
Set Warnings "-register-all".

(** ** Values *)

(** A decoded JSON document.  Python dicts keep insertion order, so an object
    is an association list (keys of a decoded object are distinct).  Numbers
    are integers; the module never computes with the numbers of a reply. *)
Inductive json : Type :=
| JNull
| JBool (b : bool)
| JNum (n : Z)
| JStr (s : string)
| JList (l : list json)
| JObj (m : list (string * json)).

(** One step of a descent: a dict key or a list index ([["nodes", i]]). *)
Inductive key : Type :=
| KStr (s : string)
| KIdx (i : nat).

Definition path := list key.

(** The keyword arguments [**kwargs]: the GraphQL variables. *)
Definition vars := list (string * json).

(** A cursor of the cursor tree: either a bare path list, or a dict with
    ['path'] and an optional ['next'] tree. *)
Inductive cursor : Type :=
| CPath (p : list string)
| CNode (p : list string) (next : option (list (string * cursor))).

Definition cursor_tree := list (string * cursor).

(** [cursors[cursor]['path']], once a bare list has been promoted to
    [{"path": ...}] (lines 133-137). *)
Definition cursor_path (c : cursor) : list string :=
  match c with
  | CPath p => p
  | CNode p _ => p
  end.

(** [cursors[cursor].get('next')]: [None] for a promoted list. *)
Definition cursor_next (c : cursor) : option cursor_tree :=
  match c with
  | CPath _ => None
  | CNode _ n => n
  end.

(** The promotion itself; the write-back into the caller's dict changes no
    later read, since [cursor_path] and [cursor_next] agree on both forms. *)
Definition promote (c : cursor) : cursor :=
  match c with
  | CPath p => CNode p None
  | CNode _ _ => c
  end.

Definition keys_of (p : list string) : path := map KStr p.

(** ** The HTTP collaborator *)

Record request : Type := mkRequest {
  req_url : string;
  req_query : string;          (* params["query"]: the stripped query *)
  req_variables : vars;        (* params["variables"]: json.dumps(kwargs) *)
  req_authorization : string;  (* headers["Authorization"] *)
  req_accept : string          (* headers["Accept"] *)
}.

Record reply : Type := mkReply {
  status_code : Z;
  body : option json           (* reply.json(); None when it does not decode *)
}.

(** ** Exceptions *)

Inductive builtin_error : Type :=
| KeyError (k : key)
| TypeError
| IndexError
| AttributeError
| JSONDecodeError
| ConnectionError.

(** The three exception classes of the module (lines 9-19), and the builtin
    exceptions that the interpreter raises by itself. *)
Inductive exn : Type :=
| TokenError (error : string)
| HTTPError (r : reply)
| GraphQLError (errors : json)
| Builtin (e : builtin_error).

Inductive result (A : Type) : Type :=
| Ok (a : A)
| Raise (e : exn)
| OutOfFuel.

Arguments Ok {A} a.
Arguments Raise {A} e.
Arguments OutOfFuel {A}.

Definition rbind {A B} (r : result A) (f : A -> result B) : result B :=
  match r with
  | Ok a => f a
  | Raise e => Raise e
  | OutOfFuel => OutOfFuel
  end.

(** ** Effects *)

Inductive event : Type :=
| Post (r : request)                 (* requests.post(...) is called *)
| Recv (r : reply)                   (* ... and returns a reply *)
| Print (status : Z) (backoff : Q)   (* the retry message on stdout *)
| Sleep (backoff : Q).               (* time.sleep(backoff) *)

Record world : Type := mkWorld {
  pending : list reply;   (* what the server answers, request after request *)
  log : list event        (* what has happened so far, oldest first *)
}.

Definition M (A : Type) : Type := world -> result A * world.

Definition ret {A} (a : A) : M A := fun w => (Ok a, w).

Definition raise {A} (e : exn) : M A := fun w => (Raise e, w).

Definition bind {A B} (m : M A) (f : A -> M B) : M B :=
  fun w =>
    match m w with
    | (Ok a, w') => f a w'
    | (Raise e, w') => (Raise e, w')
    | (OutOfFuel, w') => (OutOfFuel, w')
    end.

Definition lift {A} (r : result A) : M A := fun w => (r, w).

Definition emit (e : event) : M unit :=
  fun w => (Ok tt, mkWorld (pending w) (log w ++ [e])).

Declare Scope gql_scope.
Delimit Scope gql_scope with gql.
Notation "x <- m ;; k" := (bind m (fun x => k))
  (at level 61, m at next level, right associativity) : gql_scope.
Notation "' p <- m ;; k" := (bind m (fun p => k))
  (at level 61, p pattern, m at next level, right associativity) : gql_scope.
Notation "m ;;; k" := (bind m (fun _ => k))
  (at level 61, right associativity) : gql_scope.
Open Scope gql_scope.

(** [requests.post]: the request leaves, and the next scripted reply comes
    back; with no reply left the connection fails. *)
Definition post (r : request) : M reply :=
  fun w =>
    match pending w with
    | [] => (Raise (Builtin ConnectionError), mkWorld [] (log w ++ [Post r]))
    | rep :: rest => (Ok rep, mkWorld rest (log w ++ [Post r; Recv rep]))
    end.

(** A monadic [for x in l:] loop threading the state [s]. *)
Fixpoint for_each {A S} (body : A -> S -> M S) (l : list A) (s : S) : M S :=
  match l with
  | [] => ret s
  | x :: l' => s' <- body x s ;; for_each body l' s'
  end.

(** ** Python primitives on decoded documents *)

(** [d.get(k)] on an association list: the first binding of [k]. *)
Fixpoint lookup (k : string) (m : list (string * json)) : option json :=
  match m with
  | [] => None
  | (k', v) :: m' => if String.eqb k k' then Some v else lookup k m'
  end.

(** [del d[k]]: no binding of [k] is left. *)
Fixpoint remove_key (k : string) (m : list (string * json)) : list (string * json) :=
  match m with
  | [] => []
  | (k', v) :: m' =>
      if String.eqb k k' then remove_key k m' else (k', v) :: remove_key k m'
  end.

(** [d[k] = v]: an existing key keeps its place, a new one goes last. *)
Fixpoint set_key (k : string) (v : json) (m : list (string * json)) : list (string * json) :=
  match m with
  | [] => [(k, v)]
  | (k', v') :: m' =>
      if String.eqb k k' then (k', v) :: m' else (k', v') :: set_key k v m'
  end.

(** Apply [f] to the value bound to [k], if there is one. *)
Fixpoint alter_key (k : string) (f : json -> json) (m : list (string * json)) : list (string * json) :=
  match m with
  | [] => []
  | (k', v) :: m' =>
      if String.eqb k k' then (k', f v) :: m' else (k', v) :: alter_key k f m'
  end.

(** Apply [f] to the [i]-th element of a list, if there is one. *)
Fixpoint alter_nth (i : nat) (f : json -> json) (l : list json) : list json :=
  match l, i with
  | [], _ => []
  | x :: l', O => f x :: l'
  | x :: l', S i' => x :: alter_nth i' f l'
  end.

(** The characters of a Python string, each as a one-character string. *)
Fixpoint chars (s : string) : list json :=
  match s with
  | EmptyString => []
  | String c s' => JStr (String c EmptyString) :: chars s'
  end.

(** Truth value of a document used as a condition ([if pi["hasNextPage"]:]). *)
Definition truthy (d : json) : bool :=
  match d with
  | JNull => false
  | JBool b => b
  | JNum n => negb (n =? 0)
  | JStr s => negb (String.eqb s "")
  | JList l => match l with [] => false | _ => true end
  | JObj m => match m with [] => false | _ => true end
  end.

(** [obj[name]] for a name that is a string or an index. *)
Definition subscript (d : json) (k : key) : result json :=
  match k, d with
  | KStr s, JObj m =>
      match lookup s m with
      | Some v => Ok v
      | None => Raise (Builtin (KeyError k))
      end
  | KStr _, _ => Raise (Builtin TypeError)
  | KIdx i, JList l =>
      match nth_error l i with
      | Some v => Ok v
      | None => Raise (Builtin IndexError)
      end
  | KIdx i, JStr s =>
      match nth_error (chars s) i with
      | Some v => Ok v
      | None => Raise (Builtin IndexError)
      end
  | KIdx _, JObj _ => Raise (Builtin (KeyError k))
  | KIdx _, _ => Raise (Builtin TypeError)
  end.

(** [for name in p: obj = obj[name]] (lines 141-143, 149-150, 170-171,
    180-181). *)
Fixpoint descend (p : path) (d : json) : result json :=
  match p with
  | [] => Ok d
  | k :: p' => rbind (subscript d k) (descend p')
  end.

(** The two descents of the weld, in lockstep (lines 199-201): at every name
    the response tree is subscripted first, the recursive result second. *)
Fixpoint descend2 (p : path) (a b : json) : result (json * json) :=
  match p with
  | [] => Ok (a, b)
  | k :: p' =>
      rbind (subscript a k) (fun a' =>
      rbind (subscript b k) (fun b' => descend2 p' a' b'))
  end.

(** The object reached from [d] by [p] is mutated in place: the document
    with that object replaced by its image under [f]. *)
Fixpoint update_at (p : path) (f : json -> json) (d : json) : json :=
  match p with
  | [] => f d
  | KStr s :: p' =>
      match d with
      | JObj m => JObj (alter_key s (update_at p' f) m)
      | _ => d
      end
  | KIdx i :: p' =>
      match d with
      | JList l => JList (alter_nth i (update_at p' f) l)
      | _ => d
      end
  end.

(** [obj.pop(k)]: the popped value and what is left of [obj]. *)
Definition pop (d : json) (k : string) : result (json * json) :=
  match d with
  | JObj m =>
      match lookup k m with
      | Some v => Ok (v, JObj (remove_key k m))
      | None => Raise (Builtin (KeyError (KStr k)))
      end
  | JList _ => Raise (Builtin TypeError)
  | _ => Raise (Builtin AttributeError)
  end.

(** [len(x)]. *)
Definition py_len (d : json) : result nat :=
  match d with
  | JList l => Ok (List.length l)
  | JStr s => Ok (String.length s)
  | JObj m => Ok (List.length m)
  | _ => Raise (Builtin TypeError)
  end.

(** The receiver of [.extend]: only a list has the method. *)
Definition extend_target (d : json) : result (list json) :=
  match d with
  | JList l => Ok l
  | _ => Raise (Builtin AttributeError)
  end.

(** The argument of [.extend]: any iterable, element by element. *)
Definition py_iter (d : json) : result (list json) :=
  match d with
  | JList l => Ok l
  | JStr s => Ok (chars s)
  | JObj m => Ok (map (fun kv => JStr (fst kv)) m)
  | _ => Raise (Builtin TypeError)
  end.

(** [obj[k] = v] on the object itself. *)
Definition setitem (d : json) (k : string) (v : json) : result json :=
  match d with
  | JObj m => Ok (JObj (set_key k v m))
  | _ => Raise (Builtin TypeError)
  end.

(** ** Python primitives on strings *)

(** A character of a string is a Unicode code point below 256: [chars],
    [String.length] and the comparisons of names count and compare code
    points.  Among these [str.isspace] holds of U+0009 to U+000D, of
    U+001C to U+0020, of U+0085 (next line) and of U+00A0 (no-break
    space); [str.strip()] removes the leading and the trailing characters
    of which it holds. *)
Definition is_space (c : ascii) : bool :=
  let n := nat_of_ascii c in
  ((9 <=? n) && (n <=? 13) || (28 <=? n) && (n <=? 32)
   || (n =? 133) || (n =? 160))%nat.

Fixpoint lstrip (s : string) : string :=
  match s with
  | EmptyString => EmptyString
  | String c s' => if is_space c then lstrip s' else s
  end.

Fixpoint rstrip (s : string) : string :=
  match s with
  | EmptyString => EmptyString
  | String c s' =>
      match rstrip s' with
      | EmptyString => if is_space c then EmptyString else String c EmptyString
      | r => String c r
      end
  end.

(** [query.strip()]. *)
Definition strip (s : string) : string := rstrip (lstrip s).

(** [query.split("(")[0]]: the text before the first parenthesis. *)
Fixpoint before_paren (s : string) : string :=
  match s with
  | EmptyString => EmptyString
  | String c s' =>
      if Ascii.eqb c "("%char then EmptyString else String c (before_paren s')
  end.

Fixpoint is_prefix (p s : string) : bool :=
  match p, s with
  | EmptyString, _ => true
  | String a p', String b s' => Ascii.eqb a b && is_prefix p' s'
  | String _ _, EmptyString => false
  end.

Fixpoint is_substring (p s : string) : bool :=
  is_prefix p s ||
  match s with
  | EmptyString => false
  | String _ s' => is_substring p s'
  end.

(** ["errors" in data] (line 124): a key of a dict, an element of a list, a
    substring of a string. *)
Definition contains_errors (d : json) : result bool :=
  match d with
  | JObj m => Ok (match lookup "errors" m with Some _ => true | None => false end)
  | JList l =>
      Ok (existsb (fun x => match x with JStr s => String.eqb s "errors" | _ => false end) l)
  | JStr s => Ok (is_substring "errors" s)
  | _ => Raise (Builtin TypeError)
  end.

(** In-place mutations, as total functions on the mutated object. *)

(** [del obj[k]]. *)
Definition discard (k : string) (d : json) : json :=
  match d with
  | JObj m => JObj (remove_key k m)
  | _ => d
  end.

(** [obj[k] = v]. *)
Definition assign (k : string) (v : json) (d : json) : json :=
  match d with
  | JObj m => JObj (set_key k v m)
  | _ => d
  end.

(** [lst.extend(items)]. *)
Definition append (items : list json) (d : json) : json :=
  match d with
  | JList l => JList (l ++ items)
  | _ => d
  end.

(** ** graphql *)

Section Engine.

(** [os.environ.get("GITHUB_GRAPHQL_URL", ...)]. *)
Variable GITHUB_GRAPHQL_URL : option string.

Definition url : string :=
  match GITHUB_GRAPHQL_URL with
  | Some u => u
  | None => "https://api.github.com/graphql"
  end.

Definition retry_codes : list Z := [403; 429; 500; 502; 503; 504].

Definition retryable (status : Z) : bool := existsb (Z.eqb status) retry_codes.

(** [2 ** (attempted_retries - 1)]: one half for the first retry. *)
Definition backoff_of (attempted_retries : Z) : Q :=
  Qpower (2 # 1) (attempted_retries - 1).

(** The [while] loop of lines 112-117.  [n] only bounds the number of
    iterations: the loop is entered with [n = max_retries] and the counter
    at 0, so that the test of the source fails before [n] runs out. *)
Fixpoint retry_loop (n : nat) (r : request) (max_retries attempted_retries : Z)
    (rep : reply) : M reply :=
  match n with
  | O => ret rep
  | S n' =>
      if retryable (status_code rep) && (attempted_retries <? max_retries) then
        let backoff := backoff_of attempted_retries in
        emit (Print (status_code rep) backoff) ;;;
        emit (Sleep backoff) ;;;
        rep' <- post r ;;
        retry_loop n' r max_retries (attempted_retries + 1) rep'
      else ret rep
  end.

(** The text of lines 96-98. *)
Definition token_message : string :=
  String (ascii_of_nat 10)
    ("No Github access token provided." ++ String (ascii_of_nat 10) "    ")%string.

(** Lines 88-117: build the request, check the token, post, retry. *)
Definition exchange (query : string) (token : option string) (accept : string)
    (max_retries : Z) (kwargs : vars) : M reply :=
  match token with
  | Some t =>
      if (0 <? String.length t)%nat then
        let r := mkRequest url (strip query) kwargs ("token " ++ t)%string accept in
        rep <- post r ;;
        if negb (String.eqb (before_paren query) "mutation") then
          retry_loop (Z.to_nat max_retries) r max_retries 0 rep
        else ret rep
      else raise (TokenError token_message)
  | None => raise (TokenError token_message)
  end.

(** Lines 119-126: classify the final reply. *)
Definition classify (rep : reply) : result json :=
  if negb (status_code rep =? 200) then Raise (HTTPError rep)
  else
    match body rep with
    | None => Raise (Builtin JSONDecodeError)
    | Some data =>
        rbind (contains_errors data) (fun has_errors =>
          if has_errors : bool then
            rbind (subscript data (KStr "errors")) (fun errors =>
              Raise (GraphQLError errors))
          else subscript data (KStr "data"))
    end.

Definition transport (query : string) (token : option string) (accept : string)
    (max_retries : Z) (kwargs : vars) : M json :=
  rep <- exchange query token accept max_retries kwargs ;;
  lift (classify rep).

(** The names of the parameters of [graphql]: a variable of one of these
    names cannot be passed on through [**kwargs]. *)
Definition parameter_names : list string :=
  ["query"; "token"; "accept"; "max_retries"; "cursors"; "prev_path"].

Definition clashes (kwargs : vars) : bool :=
  existsb (fun kv => existsb (String.eqb (fst kv)) parameter_names) kwargs.

(** [if prev_path:] *)
Definition given (prev_path : option path) : bool :=
  match prev_path with
  | Some (_ :: _) => true
  | _ => false
  end.

Definition path_or_empty (prev_path : option path) : path :=
  match prev_path with
  | Some p => p
  | None => []
  end.

Definition is_some {A} (o : option A) : bool :=
  match o with
  | Some _ => true
  | None => false
  end.

Section Depagination.

(** The recursive call [graphql(query, token=token, accept=accept,
    max_retries=max_retries, cursors=..., prev_path=..., **kwargs)]. *)
Variable self : cursor_tree -> option path -> vars -> M json.

Definition call (cursors : cursor_tree) (prev_path : option path)
    (kwargs : vars) : M json :=
  if clashes kwargs then raise (Builtin TypeError)
  else self cursors prev_path kwargs.

(** Lines 173-186: does element [node_data] need a recursive call? *)
Fixpoint call_required (children : cursor_tree) (node_data : json)
    (required : bool) : result bool :=
  match children with
  | [] => Ok required
  | (_, c) :: rest =>
      rbind (descend (keys_of (cursor_path c)) node_data) (fun page_to_check =>
      rbind (subscript page_to_check (KStr "pageInfo")) (fun page_info =>
      rbind (subscript page_info (KStr "hasNextPage")) (fun hasNextPage =>
        call_required rest node_data
          (if truthy hasNextPage || is_some (cursor_next c) then true
           else required))))
  end.

(** Lines 194-202: weld the depaginated data together. *)
Fixpoint weld (children : cursor_tree) (current_path_nodes : path)
    (next data : json) : result json :=
  match children with
  | [] => Ok data
  | (_, c) :: rest =>
      let join_path := (current_path_nodes ++ keys_of (cursor_path c))%list in
      rbind (descend2 join_path data next) (fun '(obj_nested, next_nested) =>
      rbind (subscript next_nested (KStr "nodes")) (fun nodes =>
      rbind (setitem obj_nested "nodes" nodes) (fun _ =>
        weld rest current_path_nodes next
          (update_at join_path (assign "nodes" nodes) data))))
  end.

(** Lines 157-202: one iteration of [for i in range(len(obj["nodes"]))]. *)
Definition visit_element (kwargs : vars) (children : cursor_tree)
    (current_path : path) (prev_path : option path) (i : nat)
    (data : json) : M json :=
  let current_path_nodes :=
    ((if given prev_path then path_or_empty prev_path else current_path)
       ++ [KStr "nodes"; KIdx i])%list in
  node_data <- lift (descend current_path_nodes data) ;;
  required <- lift (call_required children node_data false) ;;
  if negb required then ret data
  else
    next <- call (map (fun kc => (fst kc, promote (snd kc))) children)
              (Some current_path_nodes) kwargs ;;
    lift (weld children current_path_nodes next data).

(** Lines 132-202: one iteration of [for cursor in cursors.keys()].  The
    state of the loop is the response tree and the variables; [obj] is
    the alias of the object at [current_path] in [data]. *)
Definition visit_cursor (prev_path : option path) (entry : string * cursor)
    (st : json * vars) : M (json * vars) :=
  let '(cursor_name, c) := entry in
  let '(data, kwargs) := st in
  let current_path :=
    ((if given prev_path then path_or_empty prev_path else [])
       ++ keys_of (cursor_path c))%list in
  obj <- lift (descend current_path data) ;;
  '(page_info, obj) <- lift (pop obj "pageInfo") ;;
  let data := update_at current_path (discard "pageInfo") data in
  hasNextPage <- lift (subscript page_info (KStr "hasNextPage")) ;;
  '(data, kwargs, obj) <-
    (if truthy hasNextPage then
       endCursor <- lift (subscript page_info (KStr "endCursor")) ;;
       let kwargs := set_key cursor_name endCursor kwargs in
       next <- call [(cursor_name, promote c)] prev_path kwargs ;;
       next <- lift (descend current_path next) ;;
       nodes <- lift (subscript obj (KStr "nodes")) ;;
       _ <- lift (extend_target nodes) ;;
       next_nodes <- lift (subscript next (KStr "nodes")) ;;
       items <- lift (py_iter next_nodes) ;;
       ret (update_at (current_path ++ [KStr "nodes"])%list (append items) data,
            kwargs,
            update_at [KStr "nodes"] (append items) obj)
     else ret (data, kwargs, obj)) ;;
  match cursor_next c with
  | Some children =>
      if negb (truthy hasNextPage) then
        nodes <- lift (subscript obj (KStr "nodes")) ;;
        n <- lift (py_len nodes) ;;
        data <- for_each
                  (visit_element kwargs children current_path prev_path)
                  (seq 0 n) data ;;
        ret (data, kwargs)
      else ret (data, kwargs)
  | None => ret (data, kwargs)
  end.

(** Lines 128-203. *)
Definition depaginate (cursors : option cursor_tree) (prev_path : option path)
    (kwargs : vars) (data : json) : M json :=
  match cursors with
  | None => ret data
  | Some cs =>
      st <- for_each (visit_cursor prev_path) cs (data, kwargs) ;;
      ret (fst st)
  end.

End Depagination.

(** [graphql(query, token, accept, max_retries, cursors, prev_path,
    **kwargs)].  [fuel] bounds the depth of the recursion. *)
Fixpoint graphql (fuel : nat) (query : string) (token : option string)
    (accept : string) (max_retries : Z) (cursors : option cursor_tree)
    (prev_path : option path) (kwargs : vars) : M json :=
  match fuel with
  | O => fun w => (OutOfFuel, w)
  | S fuel' =>
      data <- transport query token accept max_retries kwargs ;;
      depaginate
        (fun cs pp kw =>
           graphql fuel' query token accept max_retries (Some cs) pp kw)
        cursors prev_path kwargs data
  end.

End Engine.

(** * Vocabulary of the statements *)

Unset Implicit Arguments.

Definition is_post (e : event) : bool :=
  match e with
  | Post _ => true
  | _ => false
  end.

(** The number of HTTP requests in a stretch of the log. *)
Definition posts (evs : list event) : nat := List.length (filter is_post evs).

Definition sleeps (evs : list event) : list Q :=
  flat_map (fun e => match e with Sleep b => [b] | _ => [] end) evs.

(** What the log of the retries looks like from retry number [k] on: each
    retry prints, sleeps [backoff_of k] and only then posts; the last post
    may stay without a reply. *)
Inductive backoff_shape (r : request) : Z -> list event -> Prop :=
| shape_done : forall k, backoff_shape r k []
| shape_lost : forall k status,
    backoff_shape r k
      [Print status (backoff_of k); Sleep (backoff_of k); Post r]
| shape_retry : forall k status rep evs,
    backoff_shape r (k + 1) evs ->
    backoff_shape r k
      (Print status (backoff_of k) :: Sleep (backoff_of k) :: Post r
         :: Recv rep :: evs).

Definition key_eqb (a b : key) : bool :=
  match a, b with
  | KStr s, KStr s' => String.eqb s s'
  | KIdx i, KIdx j => Nat.eqb i j
  | _, _ => false
  end.

(** [prefixb p q]: the descent [q] goes through the place [p] leads to. *)
Fixpoint prefixb (p q : path) : bool :=
  match p, q with
  | [], _ => true
  | a :: p', b :: q' => key_eqb a b && prefixb p' q'
  | _ :: _, [] => false
  end.

(** Neither path leads into the place of the other. *)
Definition apart (p q : path) : Prop :=
  prefixb p q = false /\ prefixb q p = false.

(** Mutations of one key of an object, of the end of a list, and removals. *)
Definition key_local (s : string) (f : json -> json) : Prop :=
  forall o k, k <> KStr s -> subscript (f o) k = subscript o k.


Definition shrinking (f : json -> json) : Prop :=
  forall o k v, subscript (f o) k = Ok v -> subscript o k = Ok v.

(** No [hasNextPage] anywhere in the document holds a true value. *)
Fixpoint terminal (d : json) : bool :=
  match d with
  | JList l => forallb terminal l
  | JObj m =>
      forallb
        (fun kv =>
           match kv with
           | (k, v) =>
               (negb (String.eqb k "hasNextPage") || negb (truthy v)) && terminal v
           end) m
  | _ => true
  end.

(** No cursor below the top level has a ['next'] of its own. *)
Definition two_levels (cs : cursor_tree) : bool :=
  forallb
    (fun kc =>
       match cursor_next (snd kc) with
       | None => true
       | Some children =>
           forallb (fun kc' => negb (is_some (cursor_next (snd kc')))) children
       end) cs.


Definition appends {A} (m : M A) : Prop :=
  forall w res w1, m w = (res, w1) -> exists evs, log w1 = log w ++ evs.

(** The documents that a stretch of the log handed to the depagination: the
    [data] of every reply that classifies as a success. *)
Definition served (evs : list event) : list json :=
  flat_map
    (fun e =>
       match e with
       | Recv rep => match classify rep with Ok d => [d] | _ => [] end
       | _ => []
       end) evs.

(** [pageInfo.hasNextPage] of the connection at [P] in a served document. *)
Definition more (P : path) (d : json) : bool :=
  match descend (P ++ [KStr "pageInfo"; KStr "hasNextPage"]) d with
  | Ok h => truthy h
  | _ => false
  end.

(** The elements of the [nodes] of the connection at [P] in a served
    document. *)
Definition items (P : path) (d : json) : list json :=
  match descend (P ++ [KStr "nodes"]) d with
  | Ok v => match py_iter v with Ok l => l | _ => [] end
  | _ => []
  end.



(** A computation that, started with fewer than [n] replies pending, does
    not run out of fuel and does not add to what is pending. *)
Definition bounded {A} (n : nat) (m : M A) : Prop :=
  forall w res w1,
    (List.length (pending w) < n)%nat ->
    m w = (res, w1) ->
    res <> OutOfFuel /\ (List.length (pending w1) <= List.length (pending w))%nat.

(** The cursor names of a tree, at every level. *)
Fixpoint names_below (c : cursor) : list string :=
  match c with
  | CPath _ => []
  | CNode _ None => []
  | CNode _ (Some children) =>
      flat_map (fun kc => match kc with (k, c') => k :: names_below c' end) children
  end.

Definition cursor_names (cs : cursor_tree) : list string :=
  flat_map (fun kc => match kc with (k, c') => k :: names_below c' end) cs.

(** The request that a call with the variables [kwargs] posts. *)
Definition request_of (env : option string) (query t accept : string)
    (kwargs : vars) : request :=
  mkRequest (url env) (strip query) kwargs ("token " ++ t)%string accept.

(** A request that differs from [r0] at most in the variables named in
    [names]. *)
Definition like (r0 : request) (names : list string) (r : request) : Prop :=
  req_url r = req_url r0 /\
  req_query r = req_query r0 /\
  req_authorization r = req_authorization r0 /\
  req_accept r = req_accept r0 /\
  forall k, ~ In k names -> lookup k (req_variables r) = lookup k (req_variables r0).

(** A computation all of whose requests satisfy [Q]. *)
Definition posting {A} (Q : request -> Prop) (m : M A) : Prop :=
  forall w res w1,
    m w = (res, w1) ->
    exists evs, log w1 = log w ++ evs /\ forall r, In (Post r) evs -> Q r.

(** A computation that leaves the world as it is. *)
Definition silent {A} (m : M A) : Prop :=
  forall w res w1, m w = (res, w1) -> w1 = w.

(** A path with an index in it. *)
Definition has_index (p : path) : bool :=
  existsb (fun k => match k with KIdx _ => true | KStr _ => false end) p.

(** A mutation that adds no name to an object. *)
Definition name_shrinking (f : json -> json) : Prop :=
  forall o s v, subscript (f o) (KStr s) = Ok v -> subscript o (KStr s) = Ok v.

(** The [current_path] of a cursor (lines 135-139). *)
Definition path_of_cursor (prev_path : option path) (c : cursor) : path :=
  (if given prev_path then path_or_empty prev_path else []) ++ keys_of (cursor_path c).

(** The place of element [i] of the connection at [P]: the
    [current_path_nodes] of lines 159-165 in a top-level call. *)
Definition element_path (P : path) (i : nat) : path := P ++ [KStr "nodes"; KIdx i].

(** The nested connection of [cc] in that element: the [join_path] of
    line 196. *)
Definition nested_path (P : path) (i : nat) (cc : cursor) : path :=
  element_path P i ++ keys_of (cursor_path cc).

(** The dictionary form of a cursor and of a cursor tree: every bare path
    list written as [{"path": ...}], at every depth (lines 133-137,
    176-179). *)
Fixpoint normalize (c : cursor) : cursor :=
  match c with
  | CPath p => CNode p None
  | CNode p None => CNode p None
  | CNode p (Some children) =>
      CNode p (Some (map (fun kc => match kc with (k, c') => (k, normalize c') end)
                       children))
  end.

Definition normalize_tree (cs : cursor_tree) : cursor_tree :=
  map (fun kc => match kc with (k, c') => (k, normalize c') end) cs.





(** * Example documents, cursor trees and servers *)

(** Scenario 6 of the specification: [{data: null, errors: [{message: "bad"}]}]. *)
Definition bad_reply : reply :=
  mkReply 200
    (Some (JObj [("data", JNull);
                 ("errors", JList [JObj [("message", JStr "bad")]])])).

Definition viewer_request : request :=
  mkRequest "https://api.github.com/graphql" "query { viewer { login } }" []
    "token t" "".

(** Scenario 5 of the specification: three 429s, then a 200. *)
Definition throttled : reply := mkReply 429 None.

Definition viewer_reply : reply :=
  mkReply 200 (Some (JObj [("data", JObj [("viewer", JObj [("login", JStr "octocat")])])])).

Definition throttled_run : result json * world :=
  graphql None 1 "query { viewer { login } }" (Some "t") "" 8 None None []
    (mkWorld [throttled; throttled; throttled; viewer_reply] []).

Definition server_error : reply := mkReply 500 None.

Definition merged_reply : reply :=
  mkReply 200 (Some (JObj [("data", JObj [("mergeBranch", JObj [("ok", JBool true)])])])).

Definition merge_request (query : string) : request :=
  mkRequest "https://api.github.com/graphql" query [] "token t" "".

Definition page_info (more : bool) (end_cursor : string) : json :=
  JObj [("endCursor", JStr end_cursor); ("hasNextPage", JBool more)].

Definition connection (more : bool) (end_cursor : string) (nodes : list json) : json :=
  JObj [("pageInfo", page_info more end_cursor); ("nodes", JList nodes)].

Definition ok_reply (data : json) : reply :=
  mkReply 200 (Some (JObj [("data", data)])).

(** A pull request with one page of timeline items. *)
Definition pull_request (more : bool) (end_cursor : string) (items : list json) : json :=
  JObj [("timelineItems", connection more end_cursor items)].

Definition pulls (more : bool) (end_cursor : string) (prs : list json) : json :=
  JObj [("repository", JObj [("pullRequests", connection more end_cursor prs)])].

(** The cursors of the example of lines 48-60, without the issues. *)
Definition pulls_cursors : cursor_tree :=
  [("cursor2",
    CNode ["repository"; "pullRequests"]
      (Some [("cursor3", CNode ["timelineItems"] None)]))].

Definition item (n : Z) : json := JObj [("id", JNum n)].

Definition run (script : list reply) (cursors : cursor_tree) : result json * world :=
  graphql None (S (List.length script)) "query { repository { pullRequests } }"
    (Some "t") "" 8 (Some cursors) None [] (mkWorld script []).

(** Scenario 1 of the specification. *)
Definition issues_reply : reply :=
  ok_reply (JObj [("repository",
    JObj [("issues", connection false "A" [JObj [("number", JNum 1)];
                                           JObj [("number", JNum 2)]])])]).

(** A tree of three levels: reviews inside timeline items inside pull
    requests. *)
Definition three_levels : cursor_tree :=
  [("cursor2",
    CNode ["repository"; "pullRequests"]
      (Some [("cursor3",
              CNode ["timelineItems"]
                (Some [("cursor4", CNode ["reviews"] None)]))]))].





(** The example of lines 24-60: issues and pull requests side by side. *)
Definition issue (n : Z) : json := JObj [("number", JNum n)].

Definition repository (issues pull_requests : json) : json :=
  JObj [("repository", JObj [("issues", issues); ("pullRequests", pull_requests)])].

Definition example_cursors : cursor_tree :=
  [("cursor1", CPath ["repository"; "issues"]);
   ("cursor2",
    CNode ["repository"; "pullRequests"]
      (Some [("cursor3", CNode ["timelineItems"] None)]))].

Definition issues_page1 : json :=
  repository (connection true "I1" [issue 1; issue 2])
    (connection false "P" [pull_request false "T" [item 1]]).

Definition issues_page2 : json :=
  repository (connection false "I2" [issue 3])
    (connection false "P" [pull_request false "T" [item 1]]).

Definition issues_path : path := [KStr "repository"; KStr "issues"].

Definition nested_script : list reply :=
  [ok_reply (pulls false "P" [pull_request true "T1" [item 1]]);
   ok_reply (pulls false "P" [pull_request true "T1" [item 1]]);
   ok_reply (pulls false "P" [pull_request false "T2" [item 2]])].

Definition pulls_path : path := [KStr "repository"; KStr "pullRequests"].

(** Two pages of pull requests; the pull request of each page has two pages
    of timeline items. *)
Definition two_pages_script : list reply :=
  [ok_reply (pulls true "P1" [pull_request true "T1" [item 1]]);
   ok_reply (pulls false "P2" [pull_request true "U1" [item 3]]);
   ok_reply (pulls false "P2" [pull_request true "U1" [item 3]]);
   ok_reply (pulls false "P2" [pull_request false "U2" [item 4]])].

(** A reply outside the retry list, with a body that would otherwise count
    as a GraphQL error. *)
Definition not_found : reply :=
  mkReply 404 (Some (JObj [("errors", JList [JObj [("message", JStr "Not Found")]])])).

Definition bad_gateway : reply := mkReply 502 None.

(** A call on the issues of a repository, with a variable of the caller. *)
Definition issues_cursor : cursor_tree := [("cursor1", CPath ["repository"; "issues"])].

Definition owner_vars : vars := [("owner", JStr "org")].

Definition two_issue_pages : list reply := [ok_reply issues_page1; ok_reply issues_page2].

Definition issues_call (script : list reply) (cursors : cursor_tree) : result json * world :=
  graphql None 3 "query { repository { issues } }" (Some "t") "" 8 (Some cursors) None
    owner_vars (mkWorld script []).

(** A cursor named like a parameter of [graphql]. *)
Definition token_cursor : cursor_tree := [("token", CPath ["repository"; "issues"])].

Definition first_issues_page_info : json := page_info true "I1".

(** The nested cursor of [pulls_cursors], and the result of the nested
    example. *)
Definition timeline_cursor : cursor := CNode ["timelineItems"] None.

Definition nested_final : json :=
  JObj [("repository",
    JObj [("pullRequests",
      JObj [("nodes", JList [pull_request true "T1" [item 1; item 2]])])])].

(** A repository without pull requests. *)
Definition no_pulls : json := pulls false "P" [].

Definition pulls_cursor : cursor :=
  CNode ["repository"; "pullRequests"] (Some [("cursor3", timeline_cursor)]).

(** The first document and the result of the example of two pages. *)
Definition two_pages_first : json := pulls true "P1" [pull_request true "T1" [item 1]].

Definition two_pages_final : json :=
  JObj [("repository",
    JObj [("pullRequests",
      JObj [("nodes",
        JList [pull_request true "T1" [item 1];
               pull_request true "U1" [item 3; item 4]])])])].

(** The query of [issues_call], written between a no-break space (U+00A0)
    and a next-line character (U+0085) followed by a line feed. *)
Definition padded_query : string :=
  String (ascii_of_nat 160)
    ("query { repository { issues } }"
       ++ String (ascii_of_nat 133) (String (ascii_of_nat 10) EmptyString))%string.









(** * Properties *)

(** ** The monad *)

Lemma bind_ok {A B} (m : M A) (f : A -> M B) w a w1 :
  m w = (Ok a, w1) -> bind m f w = f a w1.
Proof. intros H. unfold bind. rewrite H. reflexivity. Qed.

Lemma bind_raise {A B} (m : M A) (f : A -> M B) w e w1 :
  m w = (Raise e, w1) -> bind m f w = (Raise e, w1).
Proof. intros H. unfold bind. rewrite H. reflexivity. Qed.

Lemma bind_inv_ok {A B} (m : M A) (f : A -> M B) w b w2 :
  bind m f w = (Ok b, w2) ->
  exists a w1, m w = (Ok a, w1) /\ f a w1 = (Ok b, w2).
Proof.
  unfold bind. destruct (m w) as [[a | e |] w1]; intros H; try discriminate.
  exists a, w1. split; [reflexivity | exact H].
Qed.

Lemma lift_inv_ok {A} (r : result A) w a w1 :
  lift r w = (Ok a, w1) -> r = Ok a /\ w1 = w.
Proof. unfold lift. intros H. inversion H. split; reflexivity. Qed.

Lemma rbind_inv_ok {A B} (r : result A) (f : A -> result B) b :
  rbind r f = Ok b -> exists a, r = Ok a /\ f a = Ok b.
Proof.
  destruct r as [a | e |]; simpl; intros H; try discriminate.
  exists a. split; [reflexivity | exact H].
Qed.

(** ** Credentials (lines 93-98) *)

(** C7: a call without a token, or with the empty token, raises [TokenError]
    and leaves the world as it was: nothing is posted. *)
Theorem graphql_without_token_raises :
  forall env fuel query accept max_retries cursors prev_path kwargs w,
    graphql env (S fuel) query None accept max_retries cursors prev_path kwargs w
      = (Raise (TokenError token_message), w) /\
    graphql env (S fuel) query (Some "") accept max_retries cursors prev_path kwargs w
      = (Raise (TokenError token_message), w).
Proof.
  intros. split; reflexivity.
Qed.

(** ** Classification of the reply (lines 119-126) *)

Lemma graphql_unfold env fuel query token accept max_retries cursors prev_path kwargs w :
  graphql env (S fuel) query token accept max_retries cursors prev_path kwargs w =
    bind (transport env query token accept max_retries kwargs)
      (depaginate
         (fun cs pp kw =>
            graphql env fuel query token accept max_retries (Some cs) pp kw)
         cursors prev_path kwargs) w.
Proof. reflexivity. Qed.

Lemma transport_exchange env query token accept max_retries kwargs w rep w1 :
  exchange env query token accept max_retries kwargs w = (Ok rep, w1) ->
  transport env query token accept max_retries kwargs w = (classify rep, w1).
Proof. intros H. unfold transport. rewrite (bind_ok _ _ _ _ _ H). reflexivity. Qed.

Lemma transport_inv_ok env query token accept max_retries kwargs w data w1 :
  transport env query token accept max_retries kwargs w = (Ok data, w1) ->
  exists rep,
    exchange env query token accept max_retries kwargs w = (Ok rep, w1) /\
    classify rep = Ok data.
Proof.
  unfold transport. intros H.
  apply bind_inv_ok in H. destruct H as (rep & w0 & Hx & Hc).
  apply lift_inv_ok in Hc. destruct Hc as [Hc ->].
  exists rep. split; assumption.
Qed.

(** C8: when the reply that ends the exchange has status 200 and a body with
    an [errors] key, [GraphQLError] carries the value of that key, whatever
    [data] holds and whatever the cursors are; without the key, the value of
    [data] is returned when there are no cursors and handed to the
    depagination otherwise. *)
Theorem graphql_errors_take_precedence :
  forall env fuel query token accept max_retries prev_path kwargs w rep w1 m,
    exchange env query token accept max_retries kwargs w = (Ok rep, w1) ->
    status_code rep = 200 ->
    body rep = Some (JObj m) ->
    (forall errors cursors,
        lookup "errors" m = Some errors ->
        graphql env (S fuel) query token accept max_retries cursors prev_path kwargs w
          = (Raise (GraphQLError errors), w1)) /\
    (forall data,
        lookup "errors" m = None ->
        lookup "data" m = Some data ->
        graphql env (S fuel) query token accept max_retries None prev_path kwargs w
          = (Ok data, w1) /\
        forall cs,
          graphql env (S fuel) query token accept max_retries (Some cs) prev_path kwargs w
            = depaginate
                (fun cs' pp kw =>
                   graphql env fuel query token accept max_retries (Some cs') pp kw)
                (Some cs) prev_path kwargs data w1).
Proof.
  intros env fuel query token accept max_retries prev_path kwargs w rep w1 m
    Hx Hs Hb.
  pose proof (transport_exchange _ _ _ _ _ _ _ _ _ Hx) as Ht.
  assert (Hc : classify rep =
            rbind (contains_errors (JObj m)) (fun has_errors =>
              if has_errors : bool then
                rbind (subscript (JObj m) (KStr "errors")) (fun errors =>
                  Raise (GraphQLError errors))
              else subscript (JObj m) (KStr "data"))).
  { unfold classify. rewrite Hs, Hb. reflexivity. }
  split.
  - intros errors cursors He.
    rewrite graphql_unfold. eapply bind_raise. rewrite Ht, Hc.
    simpl. rewrite He. reflexivity.
  - intros data He Hd.
    assert (Hok : transport env query token accept max_retries kwargs w = (Ok data, w1)).
    { rewrite Ht, Hc. simpl. rewrite He. simpl. rewrite Hd. reflexivity. }
    split.
    + rewrite graphql_unfold. rewrite (bind_ok _ _ _ _ _ Hok). reflexivity.
    + intros cs. rewrite graphql_unfold. rewrite (bind_ok _ _ _ _ _ Hok). reflexivity.
Qed.

Lemma graphql_errors_take_precedence_witness :
  graphql None 1 "query { viewer { login } }" (Some "t") "" 8
    (Some [("c", CPath ["viewer"])]) None [] (mkWorld [bad_reply] [])
  = (Raise (GraphQLError (JList [JObj [("message", JStr "bad")]])),
     mkWorld [] [Post viewer_request; Recv bad_reply]).
Proof.
  apply (proj1 (@graphql_errors_take_precedence None 0 "query { viewer { login } }"
            (Some "t") "" 8 None [] (mkWorld [bad_reply] []) bad_reply
            (mkWorld [] [Post viewer_request; Recv bad_reply])
            [("data", JNull); ("errors", JList [JObj [("message", JStr "bad")]])]
            eq_refl eq_refl eq_refl)).
  reflexivity.
Defined.

(** ** Retries (lines 107-117) *)

Lemma backoff_of_first : backoff_of 0 = (1 # 2)%Q /\ backoff_of 1 = (1 # 1)%Q
  /\ backoff_of 2 = (2 # 1)%Q /\ backoff_of 3 = (4 # 1)%Q.
Proof. repeat split; reflexivity. Qed.

Lemma backoff_of_power k : 1 <= k -> (backoff_of k == inject_Z (2 ^ (k - 1)))%Q.
Proof.
  intros Hk. unfold backoff_of.
  change (2 # 1)%Q with (inject_Z 2).
  symmetry. apply Zpower_Qpower. lia.
Qed.

Lemma posts_app evs1 evs2 : posts (evs1 ++ evs2) = (posts evs1 + posts evs2)%nat.
Proof. unfold posts. rewrite filter_app, length_app. reflexivity. Qed.

Lemma post_log r w res w1 :
  post r w = (res, w1) ->
  (exists rep rest, pending w = rep :: rest /\ res = Ok rep /\ pending w1 = rest
                    /\ log w1 = log w ++ [Post r; Recv rep]) \/
  (pending w = [] /\ res = Raise (Builtin ConnectionError) /\ pending w1 = []
   /\ log w1 = log w ++ [Post r]).
Proof.
  unfold post. destruct (pending w) as [| rep rest] eqn:Hp; intros H; inversion H; subst.
  - right. repeat split; reflexivity.
  - left. exists rep, rest. repeat split; reflexivity.
Qed.

(** The retry loop: shape of the log, number of requests, and the reason it
    stopped when it returns a reply. *)
Lemma retry_loop_log r max_retries n : forall k rep w res w1,
  retry_loop n r max_retries k rep w = (res, w1) ->
  exists evs,
    log w1 = log w ++ evs /\
    backoff_shape r k evs /\
    (posts evs <= n)%nat /\
    (Forall (fun rp => retryable (status_code rp) = true) (rep :: pending w) ->
     k + Z.of_nat n <= max_retries ->
     (n <= List.length (pending w))%nat ->
     posts evs = n) /\
    (forall rep', res = Ok rep' -> n = Z.to_nat (max_retries - k) ->
       retryable (status_code rep') = false \/
       k + Z.of_nat (posts evs) = max_retries \/ max_retries < k).
Proof.
  induction n as [| n IH]; intros k rep w res w1 H; simpl in H.
  - unfold ret in H. inversion H; subst. exists [].
    split; [rewrite app_nil_r; reflexivity |].
    split; [constructor |].
    split; [unfold posts; simpl; lia |].
    split; [intros; reflexivity |].
    intros rep' _ Hn. unfold posts. simpl. lia.
  - destruct (retryable (status_code rep) && (k <? max_retries)) eqn:Hc.
    + apply andb_true_iff in Hc. destruct Hc as [Hr Hk]. apply Z.ltb_lt in Hk.
      unfold bind, emit in H. simpl in H.
      destruct (post r {| pending := pending w;
                          log := (log w ++ [Print (status_code rep) (backoff_of k)])
                                   ++ [Sleep (backoff_of k)] |})
        as [res0 w0] eqn:Hp.
      destruct (post_log _ _ _ _ Hp) as [(rep0 & rest & Hpw & -> & Hpw0 & Hl0)
                                    | (Hpw & -> & Hpw0 & Hl0)]; simpl in *.
      * destruct (IH _ _ _ _ _ H) as (evs & Hl & Hs & Hn & Hall & Hstop).
        exists (Print (status_code rep) (backoff_of k) :: Sleep (backoff_of k)
                  :: Post r :: Recv rep0 :: evs).
        split.
        { rewrite Hl, Hl0. rewrite <- !app_assoc. reflexivity. }
        split. { constructor. exact Hs. }
        split. { unfold posts in *. simpl. lia. }
        split.
        { intros HF Hk' Hlen. unfold posts in *. simpl. f_equal.
          apply Hall.
          - rewrite Hpw0. rewrite Hpw in HF. inversion HF; assumption.
          - lia.
          - rewrite Hpw0. rewrite Hpw in Hlen. simpl in Hlen. lia. }
        { intros rep' Hres Hn'.
          destruct (Hstop rep' Hres) as [Hd | [Hd | Hd]].
          - lia.
          - left; exact Hd.
          - right; left. unfold posts in *. simpl. lia.
          - lia. }
      * inversion H; subst.
        exists [Print (status_code rep) (backoff_of k); Sleep (backoff_of k); Post r].
        split.
        { rewrite Hl0. rewrite <- !app_assoc. reflexivity. }
        split. { constructor. }
        split. { unfold posts. simpl. lia. }
        split.
        { intros _ _ Hlen. rewrite Hpw in Hlen. simpl in Hlen. lia. }
        { intros rep' Hres. discriminate. }
    + unfold ret in H. inversion H; subst. exists [].
      split; [rewrite app_nil_r; reflexivity |].
      split; [constructor |].
      split; [unfold posts; simpl; lia |].
      split.
      * intros HF Hk _. exfalso.
        inversion HF as [| ? ? Hr _]; subst. rewrite Hr in Hc. simpl in Hc.
        apply Z.ltb_ge in Hc. lia.
      * intros rep' Hres _. inversion Hres; subst.
        apply andb_false_iff in Hc. destruct Hc as [Hc | Hc].
        { left; exact Hc. }
        { apply Z.ltb_ge in Hc. simpl.
          destruct (Z.eq_dec k max_retries); [right; left; lia | right; right; lia]. }
Qed.

Lemma backoff_shape_sleeps r k evs :
  backoff_shape r k evs ->
  sleeps evs = map (fun i => backoff_of (k + Z.of_nat i)) (seq 0 (posts evs)).
Proof.
  induction 1 as [k | k status | k status rep evs Hs IH].
  - reflexivity.
  - unfold posts. simpl. rewrite Z.add_0_r. reflexivity.
  - unfold posts in *. simpl. rewrite Z.add_0_r. f_equal.
    rewrite IH. rewrite <- seq_shift, map_map.
    apply map_ext. intros i. f_equal. lia.
Qed.

Lemma transport_world env query token accept max_retries kwargs w res w1 :
  transport env query token accept max_retries kwargs w = (res, w1) ->
  exists res0, exchange env query token accept max_retries kwargs w = (res0, w1).
Proof.
  unfold transport, bind, lift.
  destruct (exchange env query token accept max_retries kwargs w) as [[rep | e |] w0];
    intros H; inversion H; subst; eexists; reflexivity.
Qed.

Lemma graphql_no_cursors_world env fuel query token accept max_retries prev_path kwargs w res w1 :
  graphql env (S fuel) query token accept max_retries None prev_path kwargs w = (res, w1) ->
  exists res0, exchange env query token accept max_retries kwargs w = (res0, w1).
Proof.
  rewrite graphql_unfold. unfold bind.
  destruct (transport env query token accept max_retries kwargs w) as [[d | e |] w0] eqn:Ht;
    simpl; unfold ret; intros H; inversion H; subst;
    apply (transport_world _ _ _ _ _ _ _ _ _ Ht).
Qed.

(** The log of one exchange with a usable token. *)
Lemma exchange_log env query t accept max_retries kwargs w res w1 :
  t <> "" ->
  exchange env query (Some t) accept max_retries kwargs w = (res, w1) ->
  let r := mkRequest (url env) (strip query) kwargs ("token " ++ t)%string accept in
  exists evs,
    log w1 = log w ++ Post r :: evs /\
    (evs = [] /\ pending w = [] \/
     exists rep0 evs', evs = Recv rep0 :: evs' /\ backoff_shape r 0 evs'
                                   /\ (posts evs' <= Z.to_nat max_retries)%nat
                                   /\ (before_paren query = "mutation" -> evs' = [])
                                   /\ (before_paren query <> "mutation" ->
                                       Forall (fun rp => retryable (status_code rp) = true) (pending w) ->
                                       0 <= max_retries < Z.of_nat (List.length (pending w)) ->
                                       posts evs' = Z.to_nat max_retries)).
Proof.
  intros Ht H r. unfold exchange in H.
  assert (Hlen : (0 <? String.length t)%nat = true).
  { destruct t; [congruence | reflexivity]. }
  rewrite Hlen in H. fold r in H.
  unfold bind in H.
  destruct (post r w) as [res0 w0] eqn:Hp.
  destruct (post_log _ _ _ _ Hp) as [(rep0 & rest & Hpw & -> & Hpw0 & Hl0)
                                | (Hpw & -> & Hpw0 & Hl0)].
  - destruct (String.eqb (before_paren query) "mutation") eqn:Hm; simpl in H.
    + unfold ret in H. inversion H; subst.
      exists [Recv rep0]. split; [exact Hl0 |]. right. exists rep0, [].
      split; [reflexivity |]. split; [constructor |].
      split; [unfold posts; simpl; lia |].
      split; [reflexivity |].
      intros Hn. apply String.eqb_eq in Hm. contradiction.
    + destruct (retry_loop_log _ _ _ _ _ _ _ _ H) as (evs & Hl & Hs & Hn & Hall & _).
      exists (Recv rep0 :: evs). split.
      { rewrite Hl, Hl0. rewrite <- app_assoc. reflexivity. }
      right. exists rep0, evs. split; [reflexivity |]. split; [exact Hs |].
      split; [exact Hn |].
      split.
      { intros Hq. apply String.eqb_neq in Hm. contradiction. }
      { intros _ HF Hlen'. apply Hall.
        - rewrite Hpw in HF. rewrite Hpw0. exact HF.
        - lia.
        - rewrite Hpw0. rewrite Hpw in Hlen'. simpl in Hlen'. lia. }
  - inversion H; subst. exists []. split; [exact Hl0 | left; split; [reflexivity | exact Hpw]].
Qed.

(** C6: the retries of one call without cursors.  After the first request
    the log is a sequence of retries, each of which sleeps and then posts;
    the sleep before retry number [k] (from 0) is [2 ** (k - 1)], that is
    1/2, 1, 2, 4, ... seconds; there are at most [max_retries + 1] requests,
    exactly one when [max_retries] is 0, and exactly [max_retries + 1] when
    the query is not taken for a mutation and every reply has a retryable
    status. *)
Theorem graphql_retry_schedule :
  forall env fuel query t accept max_retries prev_path kwargs w res w1,
    t <> "" ->
    0 <= max_retries ->
    graphql env (S fuel) query (Some t) accept max_retries None prev_path kwargs w
      = (res, w1) ->
    let r := mkRequest (url env) (strip query) kwargs ("token " ++ t)%string accept in
    exists evs,
      log w1 = log w ++ Post r :: evs /\
      (evs = [] \/ exists rep0 evs', evs = Recv rep0 :: evs' /\ backoff_shape r 0 evs') /\
      sleeps evs = map (fun k => backoff_of (Z.of_nat k)) (seq 0 (posts evs)) /\
      backoff_of 0 = (1 # 2)%Q /\
      (forall k, 1 <= k -> (backoff_of k == inject_Z (2 ^ (k - 1)))%Q) /\
      Z.of_nat (posts (Post r :: evs)) <= max_retries + 1 /\
      (max_retries = 0 -> posts (Post r :: evs) = 1%nat) /\
      (before_paren query <> "mutation" ->
       Forall (fun rp => In (status_code rp) retry_codes) (pending w) ->
       max_retries < Z.of_nat (List.length (pending w)) ->
       Z.of_nat (posts (Post r :: evs)) = max_retries + 1).
Proof.
  intros env fuel query t accept max_retries prev_path kwargs w res w1 Ht Hm H r.
  destruct (graphql_no_cursors_world _ _ _ _ _ _ _ _ _ _ _ H) as [res0 Hx].
  destruct (exchange_log _ _ _ _ _ _ _ _ _ Ht Hx) as (evs & Hl & Hsh). fold r in Hl, Hsh.
  exists evs. split; [exact Hl |].
  destruct Hsh as [[-> Hpw] | (rep0 & evs' & -> & Hs & Hn & Hmut & Hall)].
  - split; [left; reflexivity |].
    split; [reflexivity |].
    split; [reflexivity |].
    split; [exact backoff_of_power |].
    split; [unfold posts; simpl; lia |].
    split; [reflexivity |].
    intros _ _ Hlen. rewrite Hpw in Hlen. simpl in Hlen. lia.
  - split; [right; exists rep0, evs'; split; [reflexivity | exact Hs] |].
    split.
    { change (sleeps (Recv rep0 :: evs')) with (sleeps evs').
      change (posts (Recv rep0 :: evs')) with (posts evs').
      rewrite (backoff_shape_sleeps _ _ _ Hs). apply map_ext. intros i. reflexivity. }
    split; [reflexivity |].
    split; [exact backoff_of_power |].
    change (posts (Post r :: Recv rep0 :: evs')) with (S (posts evs')).
    split; [lia |].
    split; [intros ->; simpl in Hn; lia |].
    intros Hq HF Hlen. rewrite Hall; try assumption; try lia.
    apply Forall_forall. intros rp Hin.
    rewrite Forall_forall in HF. specialize (HF rp Hin).
    unfold retryable. apply existsb_exists. exists (status_code rp).
    split; [exact HF | apply Z.eqb_refl].
Qed.

Lemma graphql_retry_schedule_witness :
  exists evs,
    log (snd throttled_run) = [] ++ Post viewer_request :: evs /\
    (evs = [] \/
     exists rep0 evs', evs = Recv rep0 :: evs' /\ backoff_shape viewer_request 0 evs') /\
    sleeps evs = map (fun k => backoff_of (Z.of_nat k)) (seq 0 (posts evs)) /\
    backoff_of 0 = (1 # 2)%Q /\
    (forall k, 1 <= k -> (backoff_of k == inject_Z (2 ^ (k - 1)))%Q) /\
    Z.of_nat (posts (Post viewer_request :: evs)) <= 8 + 1 /\
    (8 = 0 -> posts (Post viewer_request :: evs) = 1%nat) /\
    ("query { viewer { login } }" <> "mutation" ->
     Forall (fun rp => In (status_code rp) retry_codes)
       [throttled; throttled; throttled; viewer_reply] ->
     8 < 4 ->
     Z.of_nat (posts (Post viewer_request :: evs)) = 8 + 1).
Proof.
  apply (graphql_retry_schedule None 0 "query { viewer { login } }" "t" "" 8 None []
           (mkWorld [throttled; throttled; throttled; viewer_reply] [])
           (fst throttled_run) (snd throttled_run)).
  - discriminate.
  - lia.
  - reflexivity.
Defined.

Example throttled_run_log :
  throttled_run =
    (Ok (JObj [("viewer", JObj [("login", JStr "octocat")])]),
     mkWorld []
       [Post viewer_request; Recv throttled;
        Print 429 (1 # 2); Sleep (1 # 2); Post viewer_request; Recv throttled;
        Print 429 (1 # 1); Sleep (1 # 1); Post viewer_request; Recv throttled;
        Print 429 (2 # 1); Sleep (2 # 1); Post viewer_request; Recv viewer_reply]).
Proof. reflexivity. Qed.

(** ** Mutations (line 111) *)

(** A query that the test of line 111 takes for a mutation is posted once. *)
Lemma mutation_posted_once env fuel query t accept max_retries prev_path kwargs w res w1 :
  t <> "" ->
  before_paren query = "mutation" ->
  graphql env (S fuel) query (Some t) accept max_retries None prev_path kwargs w
    = (res, w1) ->
  posts (skipn (List.length (log w)) (log w1)) = 1%nat.
Proof.
  intros Ht Hq H.
  destruct (graphql_no_cursors_world _ _ _ _ _ _ _ _ _ _ _ H) as [res0 Hx].
  destruct (exchange_log _ _ _ _ _ _ _ _ _ Ht Hx) as (evs & Hl & Hsh).
  rewrite Hl. rewrite skipn_app, Nat.sub_diag, skipn_all. simpl.
  destruct Hsh as [[-> _] | (rep0 & evs' & -> & _ & _ & Hmut & _)].
  - reflexivity.
  - rewrite (Hmut Hq). reflexivity.
Qed.

(** C5: the code at two mutations that line 111 does not recognise.  A
    mutation without variables, and a mutation written with a leading line
    break (as the queries of the module's own example are), both get a 500
    and are posted a second time after a sleep of half a second. *)
Theorem mutation_is_retried :
  graphql None 1 "mutation { mergeBranch { ok } }" (Some "t") "" 8 None None []
    (mkWorld [server_error; merged_reply] [])
  = (Ok (JObj [("mergeBranch", JObj [("ok", JBool true)])]),
     mkWorld []
       [Post (merge_request "mutation { mergeBranch { ok } }"); Recv server_error;
        Print 500 (1 # 2); Sleep (1 # 2);
        Post (merge_request "mutation { mergeBranch { ok } }"); Recv merged_reply])
  /\
  graphql None 1
    (String (ascii_of_nat 10) "mutation($b: String) { mergeBranch(base: $b) { ok } }")
    (Some "t") "" 8 None None []
    (mkWorld [server_error; merged_reply] [])
  = (Ok (JObj [("mergeBranch", JObj [("ok", JBool true)])]),
     mkWorld []
       [Post (merge_request "mutation($b: String) { mergeBranch(base: $b) { ok } }");
        Recv server_error;
        Print 500 (1 # 2); Sleep (1 # 2);
        Post (merge_request "mutation($b: String) { mergeBranch(base: $b) { ok } }");
        Recv merged_reply]).
Proof. split; reflexivity. Qed.

(** ** Descents *)

Lemma descend_app p q d :
  descend (p ++ q) d = rbind (descend p d) (descend q).
Proof.
  revert d. induction p as [| k p IH]; intros d; simpl.
  - reflexivity.
  - destruct (subscript d k) as [v | e |]; simpl; [apply IH | reflexivity | reflexivity].
Qed.


(** ** Runs of the nested example *)

(** C2: the code on one pull request whose timeline has two pages.  Three
    requests are made and the timeline items are merged, but the
    [pageInfo] of the timeline connection is still in the returned tree:
    only the copy in the recursive result was popped. *)
Theorem nested_pageInfo_is_retained :
  exists final w,
    run nested_script pulls_cursors = (Ok final, w) /\
    posts (log w) = 3%nat /\
    final =
      JObj [("repository", JObj [("pullRequests",
        JObj [("nodes",
          JList [JObj [("timelineItems",
            JObj [("pageInfo", page_info true "T1");
                  ("nodes", JList [item 1; item 2])])]])])])] /\
    descend [KStr "repository"; KStr "pullRequests"; KStr "nodes"; KIdx 0;
             KStr "timelineItems"; KStr "pageInfo"] final
      = Ok (page_info true "T1").
Proof.
  eexists. eexists.
  split; [vm_compute; reflexivity |].
  split; [reflexivity |].
  split; reflexivity.
Qed.

(** C3: the code on two pages of pull requests, one pull request each, both
    with a second page of timeline items.  The timeline of the pull request
    of the last page is merged; the pull request of the first page comes back
    as the server sent it, and its second page is never asked for: the call
    makes four requests, two for the pages and two for the last element. *)
Theorem first_page_elements_are_not_depaginated :
  exists final w,
    run two_pages_script pulls_cursors = (Ok final, w) /\
    pending w = [] /\
    posts (log w) = 4%nat /\
    descend [KStr "repository"; KStr "pullRequests"; KStr "nodes"] final
      = Ok (JList [pull_request true "T1" [item 1];
                   pull_request true "U1" [item 3; item 4]]).
Proof.
  eexists. eexists.
  split; [vm_compute; reflexivity |].
  split; [reflexivity |].
  split; reflexivity.
Qed.

(** ** Association lists and lists under update *)

Lemma lookup_alter_key_same s g m :
  lookup s (alter_key s g m) = option_map g (lookup s m).
Proof.
  induction m as [| [k v] m IH]; simpl; [reflexivity |].
  destruct (String.eqb s k) eqn:E; simpl; rewrite E; [reflexivity | exact IH].
Qed.

Lemma lookup_alter_key_other s s' g m :
  s' <> s -> lookup s' (alter_key s g m) = lookup s' m.
Proof.
  intros Hne. induction m as [| [k v] m IH]; simpl; [reflexivity |].
  destruct (String.eqb s k) eqn:E; simpl.
  - apply String.eqb_eq in E. subst k.
    destruct (String.eqb s' s) eqn:E'; [apply String.eqb_eq in E'; contradiction | reflexivity].
  - destruct (String.eqb s' k); [reflexivity | exact IH].
Qed.

Lemma lookup_remove_key_same s m : lookup s (remove_key s m) = None.
Proof.
  induction m as [| [k v] m IH]; simpl; [reflexivity |].
  destruct (String.eqb s k) eqn:E; simpl; [exact IH | rewrite E; exact IH].
Qed.

Lemma lookup_remove_key_other s s' m :
  s' <> s -> lookup s' (remove_key s m) = lookup s' m.
Proof.
  intros Hne. induction m as [| [k v] m IH]; simpl; [reflexivity |].
  destruct (String.eqb s k) eqn:E; simpl.
  - apply String.eqb_eq in E. subst k.
    destruct (String.eqb s' s) eqn:E'; [apply String.eqb_eq in E'; contradiction | exact IH].
  - destruct (String.eqb s' k); [reflexivity | exact IH].
Qed.


Lemma lookup_set_key_other s s' v m :
  s' <> s -> lookup s' (set_key s v m) = lookup s' m.
Proof.
  intros Hne. induction m as [| [k v'] m IH]; simpl.
  - destruct (String.eqb s' s) eqn:E'; [apply String.eqb_eq in E'; contradiction | reflexivity].
  - destruct (String.eqb s k) eqn:E; simpl.
    + apply String.eqb_eq in E. subst k.
      destruct (String.eqb s' s) eqn:E'; [apply String.eqb_eq in E'; contradiction | reflexivity].
    + destruct (String.eqb s' k); [reflexivity | exact IH].
Qed.

Lemma nth_error_alter_nth_same i g l :
  nth_error (alter_nth i g l) i = option_map g (nth_error l i).
Proof.
  revert i. induction l as [| x l IH]; intros [| i]; simpl; try reflexivity.
  apply IH.
Qed.

Lemma nth_error_alter_nth_other i j g l :
  j <> i -> nth_error (alter_nth i g l) j = nth_error l j.
Proof.
  revert i j. induction l as [| x l IH]; intros [| i] [| j] Hne; simpl;
    try reflexivity; try congruence.
  apply IH. congruence.
Qed.


(** ** Paths *)

Lemma key_eqb_eq a b : key_eqb a b = true <-> a = b.
Proof.
  destruct a as [s | i], b as [s' | j]; simpl; split; intros H; try discriminate.
  - apply String.eqb_eq in H. congruence.
  - inversion H. apply String.eqb_refl.
  - apply Nat.eqb_eq in H. congruence.
  - inversion H. apply Nat.eqb_refl.
Qed.

Lemma key_eqb_refl a : key_eqb a a = true.
Proof. apply key_eqb_eq. reflexivity. Qed.

Lemma key_eqb_neq a b : key_eqb a b = false <-> a <> b.
Proof.
  split.
  - intros H E. apply key_eqb_eq in E. congruence.
  - intros H. destruct (key_eqb a b) eqn:E; [apply key_eqb_eq in E; contradiction | reflexivity].
Qed.

Lemma key_eqb_sym a b : key_eqb a b = key_eqb b a.
Proof.
  destruct (key_eqb b a) eqn:E.
  - apply key_eqb_eq in E. subst. apply key_eqb_refl.
  - apply key_eqb_neq in E. apply key_eqb_neq. congruence.
Qed.

Lemma prefixb_app p q : prefixb p (p ++ q) = true.
Proof. induction p as [| a p IH]; simpl; [reflexivity |]. rewrite key_eqb_refl. exact IH. Qed.

Lemma prefixb_refl p : prefixb p p = true.
Proof. rewrite <- (app_nil_r p) at 2. apply prefixb_app. Qed.

Lemma prefixb_app_same p q r : prefixb (p ++ q) (p ++ r) = prefixb q r.
Proof. induction p as [| a p IH]; simpl; [reflexivity |]. rewrite key_eqb_refl. exact IH. Qed.

Lemma prefixb_trans p q r : prefixb p q = true -> prefixb q r = true -> prefixb p r = true.
Proof.
  revert q r. induction p as [| a p IH]; intros q r Hpq Hqr; simpl; [reflexivity |].
  destruct q as [| b q]; [discriminate |]. destruct r as [| c r]; [discriminate |].
  simpl in *. apply andb_true_iff in Hpq. destruct Hpq as [Hab Hpq].
  apply andb_true_iff in Hqr. destruct Hqr as [Hbc Hqr].
  apply key_eqb_eq in Hab. apply key_eqb_eq in Hbc. subst.
  rewrite key_eqb_refl. simpl. apply (IH _ _ Hpq Hqr).
Qed.

(** ** One step of a descent after an update *)

(** An update below the key [k] either leaves [d] alone (there is nothing of
    that kind under [k]) or changes what [k] leads to and nothing else. *)
Lemma update_at_cons_cases k p f d :
  update_at (k :: p) f d = d \/
  forall k',
    subscript (update_at (k :: p) f d) k' =
      if key_eqb k' k then rbind (subscript d k) (fun x => Ok (update_at p f x))
      else subscript d k'.
Proof.
  destruct k as [s | i], d as [| b | n | s0 | l | m]; simpl; try (left; reflexivity); right.
  - intros [s' | j]; simpl; [| reflexivity].
    destruct (String.eqb s' s) eqn:E.
    + apply String.eqb_eq in E. subst s'. rewrite lookup_alter_key_same.
      destruct (lookup s m); reflexivity.
    + apply String.eqb_neq in E. rewrite (lookup_alter_key_other _ _ _ _ E). reflexivity.
  - intros [s' | j]; simpl; [reflexivity |].
    destruct (Nat.eqb j i) eqn:E.
    + apply Nat.eqb_eq in E. subst j. rewrite nth_error_alter_nth_same.
      destruct (nth_error l i); reflexivity.
    + apply Nat.eqb_neq in E. rewrite (nth_error_alter_nth_other _ _ _ _ E). reflexivity.
Qed.

Lemma discard_key_local s : key_local s (discard s).
Proof.
  intros o k Hk. destruct o as [| b | n | s0 | l | m]; try reflexivity.
  destruct k as [s' | j]; simpl; [| reflexivity].
  rewrite lookup_remove_key_other; [reflexivity | congruence].
Qed.

Lemma assign_key_local s v : key_local s (assign s v).
Proof.
  intros o k Hk. destruct o as [| b | n | s0 | l | m]; try reflexivity.
  destruct k as [s' | j]; simpl; [| reflexivity].
  rewrite lookup_set_key_other; [reflexivity | congruence].
Qed.


Lemma discard_shrinking s : shrinking (discard s).
Proof.
  intros o k v H. destruct o as [| b | n | s0 | l | m]; try exact H.
  destruct k as [s' | j]; simpl in *; [| exact H].
  destruct (String.eqb s' s) eqn:E.
  - apply String.eqb_eq in E. subst s'. rewrite lookup_remove_key_same in H. discriminate.
  - apply String.eqb_neq in E. rewrite (lookup_remove_key_other _ _ _ E) in H. exact H.
Qed.

(** ** Frames of an update *)

(** A mutation of the key [s] of the object at [p] is invisible from every
    path that neither goes through [p ++ [s]] nor leads towards it. *)
Lemma descend_update_apart s f : key_local s f ->
  forall p q d,
    apart (p ++ [KStr s]) q ->
    descend q (update_at p f d) = descend q d.
Proof.
  intros Hf. induction p as [| k0 p IH]; intros q d [H1 H2].
  - destruct q as [| k q]; [discriminate |].
    cbn [prefixb app] in H1. rewrite andb_true_r in H1. apply key_eqb_neq in H1.
    simpl. rewrite Hf; [reflexivity | congruence].
  - destruct q as [| k q]; [discriminate |].
    destruct (update_at_cons_cases k0 p f d) as [Hid | Hsub]; [rewrite Hid; reflexivity |].
    simpl descend. rewrite Hsub.
    cbn [prefixb app] in H1, H2. rewrite (key_eqb_sym k0 k) in H1.
    destruct (key_eqb k k0) eqn:E.
    + apply key_eqb_eq in E. subst k. cbn [andb] in H1, H2.
      destruct (subscript d k0) as [x | e |]; simpl; try reflexivity.
      apply IH. split; assumption.
    + reflexivity.
Qed.


(** Under a mutation that only removes, what a path reaches afterwards was
    reachable before. *)
Lemma descend_update_shrink f : shrinking f ->
  forall p q d v,
    descend q (update_at p f d) = Ok v ->
    exists v', descend q d = Ok v'.
Proof.
  intros Hf. induction p as [| k0 p IH]; intros q d v Hd.
  - destruct q as [| k q]; [exists d; reflexivity |].
    simpl in *. destruct (subscript (f d) k) as [x | e |] eqn:E; try discriminate.
    rewrite (Hf _ _ _ E). exists v. exact Hd.
  - destruct q as [| k q]; [exists d; reflexivity |].
    destruct (update_at_cons_cases k0 p f d) as [Hid | Hsub];
      [rewrite Hid in Hd; exists v; exact Hd |].
    simpl descend in *. rewrite Hsub in Hd.
    destruct (key_eqb k k0) eqn:E.
    + apply key_eqb_eq in E. subst k.
      destruct (subscript d k0) as [x | e |]; simpl in *; try discriminate.
      apply (IH _ _ _ Hd).
    + exists v. exact Hd.
Qed.

(** After [pop], the popped key is gone from the object at [p]. *)
Lemma descend_discarded s ps d v :
  descend (keys_of ps ++ [KStr s]) (update_at (keys_of ps) (discard s) d) <> Ok v.
Proof.
  revert d. induction ps as [| s0 ps IH]; intros d; simpl.
  - destruct d as [| b | n | s1 | l | m]; simpl; try discriminate.
    rewrite lookup_remove_key_same. discriminate.
  - destruct d as [| b | n | s1 | l | m]; simpl; try discriminate.
    rewrite lookup_alter_key_same.
    destruct (lookup s0 m) as [x |]; simpl; [apply IH | discriminate].
Qed.


(** ** Documents without a further page *)

Lemma terminal_lookup s m v :
  terminal (JObj m) = true -> lookup s m = Some v ->
  terminal v = true /\ (s = "hasNextPage" -> truthy v = false).
Proof.
  induction m as [| [k x] m IH]; simpl; intros Ht Hl; [discriminate |].
  apply andb_true_iff in Ht. destruct Ht as [Hx Hm].
  destruct (String.eqb s k) eqn:E.
  - inversion Hl; subst x. apply String.eqb_eq in E. subst k.
    apply andb_true_iff in Hx. destruct Hx as [Hh Hv].
    split; [exact Hv |]. intros ->. simpl in Hh.
    destruct (truthy v); [discriminate | reflexivity].
  - apply IH; assumption.
Qed.

Lemma nth_error_chars s i v :
  nth_error (chars s) i = Some v -> exists c, v = JStr c.
Proof.
  revert i. induction s as [| a s IH]; intros [| i]; simpl; intros H; try discriminate.
  - inversion H. eexists; reflexivity.
  - apply (IH _ H).
Qed.

Lemma terminal_subscript d k v :
  terminal d = true -> subscript d k = Ok v -> terminal v = true.
Proof.
  intros Ht Hs. destruct k as [s | i], d as [| b | n | s0 | l | m];
    simpl in Hs; try discriminate.
  - destruct (lookup s m) as [x |] eqn:E; inversion Hs; subst.
    apply (terminal_lookup _ _ _ Ht E).
  - destruct (nth_error (chars s0) i) as [x |] eqn:E; inversion Hs; subst.
    destruct (nth_error_chars _ _ _ E) as [c ->]. reflexivity.
  - destruct (nth_error l i) as [x |] eqn:E; inversion Hs; subst.
    simpl in Ht. rewrite forallb_forall in Ht. apply Ht.
    apply (nth_error_In _ _ E).
Qed.

Lemma terminal_descend p : forall d v,
  terminal d = true -> descend p d = Ok v -> terminal v = true.
Proof.
  induction p as [| k p IH]; intros d v Ht Hd; simpl in Hd.
  - inversion Hd; subst. exact Ht.
  - destruct (subscript d k) as [x | e |] eqn:E; simpl in Hd; try discriminate.
    apply (IH _ _ (terminal_subscript _ _ _ Ht E) Hd).
Qed.

Lemma terminal_hasNextPage d h :
  terminal d = true -> subscript d (KStr "hasNextPage") = Ok h -> truthy h = false.
Proof.
  intros Ht Hs. destruct d as [| b | n | s0 | l | m]; simpl in Hs; try discriminate.
  destruct (lookup "hasNextPage" m) as [x |] eqn:E; inversion Hs; subst.
  apply (terminal_lookup _ _ _ Ht E). reflexivity.
Qed.

Lemma terminal_remove_key s m :
  terminal (JObj m) = true -> terminal (JObj (remove_key s m)) = true.
Proof.
  induction m as [| [k x] m IH]; simpl; intros Ht; [reflexivity |].
  apply andb_true_iff in Ht. destruct Ht as [Hx Hm].
  destruct (String.eqb s k); [apply IH; exact Hm |].
  simpl. rewrite Hx. apply IH. exact Hm.
Qed.

Lemma falsy_update_discard s p d :
  truthy d = false -> truthy (update_at p (discard s) d) = false.
Proof.
  intros Hd. destruct p as [| [s0 | i] p]; destruct d as [| b | n | s1 | l | m];
    simpl in *; try exact Hd.
  - destruct m; [reflexivity | discriminate].
  - destruct m; [reflexivity | discriminate].
  - destruct l; [destruct i; reflexivity | discriminate].
Qed.

Lemma terminal_update_discard s : forall p d,
  terminal d = true -> terminal (update_at p (discard s) d) = true.
Proof.
  induction p as [| k p IH]; intros d Ht.
  - destruct d as [| b | n | s0 | l | m]; try exact Ht.
    apply terminal_remove_key. exact Ht.
  - destruct k as [s0 | i]; destruct d as [| b | n | s1 | l | m]; try exact Ht.
    + revert Ht. simpl. induction m as [| [k x] m IHm]; simpl; intros Ht; [reflexivity |].
      apply andb_true_iff in Ht. destruct Ht as [Hx Hm].
      apply andb_true_iff in Hx. destruct Hx as [Hh Hv].
      destruct (String.eqb s0 k) eqn:E; simpl.
      * rewrite (IH _ Hv), Hm, !andb_true_r.
        destruct (String.eqb k "hasNextPage"); [| reflexivity].
        simpl in *. destruct (truthy x) eqn:Hx; [discriminate |].
        rewrite (falsy_update_discard _ _ _ Hx). reflexivity.
      * rewrite Hh, Hv. simpl. apply IHm. exact Hm.
    + revert i Ht. simpl. induction l as [| x l IHl]; intros i Ht;
        [destruct i; reflexivity |].
      simpl in Ht. apply andb_true_iff in Ht. destruct Ht as [Hx Hl].
      destruct i as [| i]; simpl.
      * rewrite (IH _ Hx), Hl. reflexivity.
      * rewrite Hx. simpl. apply IHl. exact Hl.
Qed.

(** ** One page everywhere: no recursive call *)

Arguments subscript : simpl never.

(** The primitives never run out of fuel: they are not recursive calls. *)
Lemma subscript_fuel d k : subscript d k <> OutOfFuel.
Proof.
  unfold subscript. destruct k as [s | i], d as [| b | n | s0 | l | m]; try discriminate.
  - destruct (lookup s m); discriminate.
  - destruct (nth_error (chars s0) i); discriminate.
  - destruct (nth_error l i); discriminate.
Qed.

Lemma descend_fuel p : forall d, descend p d <> OutOfFuel.
Proof.
  induction p as [| k p IH]; intros d; simpl; [discriminate |].
  destruct (subscript d k) as [x | e |] eqn:E; simpl;
    [apply IH | discriminate | exfalso; apply (subscript_fuel _ _ E)].
Qed.

Lemma pop_fuel d k : pop d k <> OutOfFuel.
Proof.
  unfold pop. destruct d as [| b | n | s0 | l | m]; try discriminate.
  destruct (lookup k m); discriminate.
Qed.

Lemma py_len_fuel d : py_len d <> OutOfFuel.
Proof. destruct d; discriminate. Qed.

Lemma py_iter_fuel d : py_iter d <> OutOfFuel.
Proof. destruct d; discriminate. Qed.

Lemma extend_target_fuel d : extend_target d <> OutOfFuel.
Proof. destruct d; discriminate. Qed.

Lemma call_required_fuel children node_data : forall b,
  call_required children node_data b <> OutOfFuel.
Proof.
  induction children as [| [name c] rest IH]; intros b; simpl; [discriminate |].
  destruct (descend (keys_of (cursor_path c)) node_data) as [page | e |] eqn:Hd;
    simpl; [| discriminate | exfalso; apply (descend_fuel _ _ Hd)].
  destruct (subscript page (KStr "pageInfo")) as [pinfo | e |] eqn:Hp;
    simpl; [| discriminate | exfalso; apply (subscript_fuel _ _ Hp)].
  destruct (subscript pinfo (KStr "hasNextPage")) as [h | e |] eqn:Hh;
    simpl; [| discriminate | exfalso; apply (subscript_fuel _ _ Hh)].
  apply IH.
Qed.

Ltac raised H :=
  inversion H; subst;
  split; [reflexivity | split; [discriminate | intros; discriminate]].

Ltac no_fuel :=
  exfalso;
  solve [ eapply descend_fuel; eassumption
        | eapply subscript_fuel; eassumption
        | eapply pop_fuel; eassumption
        | eapply py_len_fuel; eassumption
        | eapply py_iter_fuel; eassumption
        | eapply extend_target_fuel; eassumption
        | eapply call_required_fuel; eassumption ].

Lemma call_required_terminal children node_data b :
  forallb (fun kc' => negb (is_some (cursor_next (snd kc')))) children = true ->
  terminal node_data = true ->
  call_required children node_data false = Ok b ->
  b = false.
Proof.
  induction children as [| [name c] rest IH]; simpl; intros Hl Ht H.
  - inversion H; reflexivity.
  - apply andb_true_iff in Hl. destruct Hl as [Hc Hrest].
    destruct (descend (keys_of (cursor_path c)) node_data) as [page | e |] eqn:Hd;
      simpl in H; try discriminate.
    destruct (subscript page (KStr "pageInfo")) as [pinfo | e |] eqn:Hp;
      simpl in H; try discriminate.
    destruct (subscript pinfo (KStr "hasNextPage")) as [h | e |] eqn:Hh;
      simpl in H; try discriminate.
    assert (Hpage : terminal page = true) by apply (terminal_descend _ _ _ Ht Hd).
    assert (Hpinfo : terminal pinfo = true) by apply (terminal_subscript _ _ _ Hpage Hp).
    rewrite (terminal_hasNextPage _ _ Hpinfo Hh) in H.
    destruct (cursor_next c); [discriminate |]. simpl in H.
    apply (IH Hrest Ht H).
Qed.

Lemma visit_element_terminal self kwargs children current_path prev_path i data w res w1 :
  forallb (fun kc' => negb (is_some (cursor_next (snd kc')))) children = true ->
  terminal data = true ->
  visit_element self kwargs children current_path prev_path i data w = (res, w1) ->
  w1 = w /\ res <> OutOfFuel /\ forall data', res = Ok data' -> data' = data.
Proof.
  intros Hl Ht H. unfold visit_element, bind, lift, ret in H.
  match type of H with context [descend ?p data] =>
    destruct (descend p data) as [node_data | e |] eqn:Hd end;
    [| raised H | no_fuel].
  destruct (call_required children node_data false) as [b | e |] eqn:Hc;
    [| raised H | no_fuel].
  rewrite (call_required_terminal _ _ _ Hl (terminal_descend _ _ _ Ht Hd) Hc) in H.
  simpl in H. inversion H; subst. split; [reflexivity |]. split; [discriminate |].
  intros data' Hd'. inversion Hd'. reflexivity.
Qed.

Lemma for_each_elements_terminal self kwargs children current_path prev_path l :
  forallb (fun kc' => negb (is_some (cursor_next (snd kc')))) children = true ->
  forall data w res w1,
    terminal data = true ->
    for_each (visit_element self kwargs children current_path prev_path) l data w
      = (res, w1) ->
    w1 = w /\ res <> OutOfFuel /\ forall data', res = Ok data' -> data' = data.
Proof.
  intros Hl. induction l as [| i l IH]; intros data w res w1 Ht H; simpl in H.
  - unfold ret in H. inversion H; subst. split; [reflexivity |]. split; [discriminate |].
    intros data' Hd'. inversion Hd'. reflexivity.
  - unfold bind in H.
    destruct (visit_element self kwargs children current_path prev_path i data w)
      as [r w0] eqn:Hv.
    destruct (visit_element_terminal _ _ _ _ _ _ _ _ _ _ Hl Ht Hv) as (-> & Hfuel & Hr).
    destruct r as [d | e |]; [| raised H | contradiction].
    rewrite (Hr d eq_refl) in H. apply (IH _ _ _ _ Ht H).
Qed.

(** With one page everywhere a visit only pops [pageInfo]. *)
Lemma visit_cursor_terminal self prev_path name c data kwargs w res w1 :
  match cursor_next c with
  | None => true
  | Some children =>
      forallb (fun kc' => negb (is_some (cursor_next (snd kc')))) children
  end = true ->
  terminal data = true ->
  visit_cursor self prev_path (name, c) (data, kwargs) w = (res, w1) ->
  w1 = w /\ res <> OutOfFuel /\
  forall st, res = Ok st ->
    st = (update_at ((if given prev_path then path_or_empty prev_path else [])
                       ++ keys_of (cursor_path c)) (discard "pageInfo") data,
          kwargs).
Proof.
  intros Hl Ht H. unfold visit_cursor in H.
  set (cp := (if given prev_path then path_or_empty prev_path else [])
               ++ keys_of (cursor_path c)) in *.
  unfold bind at 1 in H. unfold lift at 1 in H.
  destruct (descend cp data) as [obj | e |] eqn:Hd; [| raised H | no_fuel].
  unfold bind at 1 in H. unfold lift at 1 in H.
  destruct (pop obj "pageInfo") as [[pinfo obj'] | e |] eqn:Hp; [| raised H | no_fuel].
  unfold bind at 1 in H. unfold lift at 1 in H.
  destruct (subscript pinfo (KStr "hasNextPage")) as [h | e |] eqn:Hh;
    [| raised H | no_fuel].
  assert (Hobj : terminal obj = true) by apply (terminal_descend _ _ _ Ht Hd).
  assert (Hpinfo : terminal pinfo = true).
  { destruct obj as [| b | n | s0 | l | m]; simpl in Hp; try discriminate.
    destruct (lookup "pageInfo" m) as [x |] eqn:E; inversion Hp; subst.
    apply (terminal_lookup _ _ _ Hobj E). }
  rewrite (terminal_hasNextPage _ _ Hpinfo Hh) in H.
  unfold bind at 1 in H. unfold ret at 1 in H. cbn [negb] in H.
  destruct (cursor_next c) as [children |].
  - unfold bind, lift, ret in H.
    destruct (subscript obj' (KStr "nodes")) as [nodes | e |] eqn:Hn;
      [| raised H | no_fuel].
    destruct (py_len nodes) as [n | e |] eqn:Hlen; [| raised H | no_fuel].
    match type of H with context [for_each ?b ?l ?d w] =>
      destruct (for_each b l d w) as [r w0] eqn:Hf end.
    destruct (for_each_elements_terminal _ _ _ _ _ _ Hl _ _ _ _
                (terminal_update_discard _ _ _ Ht) Hf) as (-> & Hfuel & Hr).
    destruct r as [d | e |]; [| raised H | contradiction].
    rewrite (Hr d eq_refl) in H. inversion H; subst. split; [reflexivity |].
    split; [discriminate |].
    intros st Hst. inversion Hst. reflexivity.
  - unfold ret in H. inversion H; subst. split; [reflexivity |].
    split; [discriminate |].
    intros st Hst. inversion Hst. reflexivity.
Qed.

(** The loop over the cursors: nothing is posted, nothing that was
    unreachable becomes reachable, and the [pageInfo] of every connection
    of the tree is gone. *)
Lemma for_each_cursors_terminal self cs :
  two_levels cs = true ->
  forall data kwargs w res w1,
    terminal data = true ->
    for_each (visit_cursor self None) cs (data, kwargs) w = (res, w1) ->
    w1 = w /\ res <> OutOfFuel /\
    forall st, res = Ok st ->
      (forall q, (forall v, descend q data <> Ok v) ->
                 forall v, descend q (fst st) <> Ok v) /\
      (forall name c, In (name, c) cs ->
         forall v, descend (keys_of (cursor_path c) ++ [KStr "pageInfo"]) (fst st) <> Ok v).
Proof.
  induction cs as [| [name c] rest IH]; intros Hl data kwargs w res w1 Ht H;
    cbn [for_each] in H.
  - unfold ret in H. inversion H; subst. split; [reflexivity |]. split; [discriminate |].
    intros st Hst. inversion Hst; subst. simpl. split; [auto |].
    intros ? ? [].
  - simpl in Hl. apply andb_true_iff in Hl. destruct Hl as [Hc Hrest].
    unfold bind at 1 in H.
    destruct (visit_cursor self None (name, c) (data, kwargs) w) as [r w0] eqn:Hv.
    destruct (visit_cursor_terminal _ _ _ _ _ _ _ _ _ Hc Ht Hv) as (-> & Hfuel & Hr).
    destruct r as [st0 | e |]; [| raised H | contradiction].
    rewrite (Hr st0 eq_refl) in H. simpl in H.
    destruct (IH Hrest _ _ _ _ _ (terminal_update_discard _ _ _ Ht) H)
      as (-> & Hfuel' & Hfinal).
    split; [reflexivity |]. split; [exact Hfuel' |].
    intros st Hst. destruct (Hfinal st Hst) as [Hmono Hgone].
    split.
    + intros q Hq. apply Hmono. intros v Hd.
      destruct (descend_update_shrink _ (discard_shrinking "pageInfo") _ _ _ _ Hd)
        as [v' Hv'].
      apply (Hq v' Hv').
    + intros name' c' [Heq | Hin].
      * inversion Heq; subst. apply Hmono. apply descend_discarded.
      * apply (Hgone _ _ Hin).
Qed.

Lemma classify_ok_status rep data : classify rep = Ok data -> status_code rep = 200.
Proof.
  unfold classify. destruct (status_code rep =? 200) eqn:E; simpl; [| discriminate].
  intros _. apply Z.eqb_eq. exact E.
Qed.

Lemma retry_loop_200 n r max_retries k rep w :
  status_code rep = 200 -> retry_loop n r max_retries k rep w = (Ok rep, w).
Proof.
  intros Hs. destruct n as [| n]; simpl; [reflexivity |].
  rewrite Hs. reflexivity.
Qed.

Lemma exchange_first_200 env query t accept max_retries kwargs rep rest lg :
  t <> "" ->
  status_code rep = 200 ->
  exchange env query (Some t) accept max_retries kwargs (mkWorld (rep :: rest) lg)
    = (Ok rep,
       mkWorld rest
         (lg ++ [Post (mkRequest (url env) (strip query) kwargs
                         ("token " ++ t)%string accept);
                 Recv rep])).
Proof.
  intros Ht Hs. unfold exchange.
  assert (Hlen : (0 <? String.length t)%nat = true).
  { destruct t; [congruence | reflexivity]. }
  rewrite Hlen. unfold bind, post. simpl.
  destruct (negb (String.eqb (before_paren query) "mutation"));
    [apply retry_loop_200; exact Hs | reflexivity].
Qed.

(** C4, as the code has it: for a cursor tree of at most two levels and a
    first reply that is a 200 whose data has no true [hasNextPage]
    anywhere, the call makes exactly one request, ends without running out
    of fuel, and when it returns a tree, the connection of every top-level
    cursor has lost its [pageInfo]. *)
Theorem one_page_one_request :
  forall env fuel query t accept max_retries cs kwargs rep rest lg data,
    t <> "" ->
    classify rep = Ok data ->
    terminal data = true ->
    two_levels cs = true ->
    exists res,
      graphql env (S fuel) query (Some t) accept max_retries (Some cs) None kwargs
        (mkWorld (rep :: rest) lg)
      = (res,
         mkWorld rest
           (lg ++ [Post (mkRequest (url env) (strip query) kwargs
                           ("token " ++ t)%string accept);
                   Recv rep])) /\
      res <> OutOfFuel /\
      forall final, res = Ok final ->
        forall name c, In (name, c) cs ->
          forall v,
            descend (keys_of (cursor_path c) ++ [KStr "pageInfo"]) final <> Ok v.
Proof.
  intros env fuel query t accept max_retries cs kwargs rep rest lg data
    Ht Hc Hterm Hcs.
  pose proof (exchange_first_200 env query t accept max_retries kwargs rep rest lg
                Ht (classify_ok_status _ _ Hc)) as Hx.
  pose proof (transport_exchange _ _ _ _ _ _ _ _ _ Hx) as Htr. rewrite Hc in Htr.
  rewrite graphql_unfold. rewrite (bind_ok _ _ _ _ _ Htr).
  unfold depaginate. unfold bind at 1.
  match goal with |- context [for_each ?b cs ?s ?w] =>
    destruct (for_each b cs s w) as [r w0] eqn:Hf end.
  destruct (for_each_cursors_terminal _ _ Hcs _ _ _ _ _ Hterm Hf) as (-> & Hfuel & Hr).
  destruct r as [st | e |].
  - exists (Ok (fst st)). split; [reflexivity |]. split; [discriminate |].
    intros final Hfin name c Hin. inversion Hfin; subst.
    apply (proj2 (Hr st eq_refl) _ _ Hin).
  - exists (Raise e). split; [reflexivity |]. split; [discriminate |].
    intros final Hfin. discriminate.
  - contradiction.
Qed.

Lemma one_page_one_request_witness :
  exists res,
    graphql None 1 "query { repository { issues } }" (Some "t") "" 8
      (Some [("c", CNode ["repository"; "issues"] None)]) None []
      (mkWorld [issues_reply] [])
    = (res,
       mkWorld []
         ([] ++ [Post (mkRequest "https://api.github.com/graphql"
                         "query { repository { issues } }" [] "token t" "");
                 Recv issues_reply])) /\
    res <> OutOfFuel /\
    forall final, res = Ok final ->
      forall name c, In (name, c) [("c", CNode ["repository"; "issues"] None)] ->
        forall v,
          descend (keys_of (cursor_path c) ++ [KStr "pageInfo"]) final <> Ok v.
Proof.
  apply (one_page_one_request None 0 "query { repository { issues } }" "t" "" 8
           [("c", CNode ["repository"; "issues"] None)] [] issues_reply [] []
           (JObj [("repository",
              JObj [("issues", connection false "A" [JObj [("number", JNum 1)];
                                                     JObj [("number", JNum 2)]])])])).
  - discriminate.
  - reflexivity.
  - reflexivity.
  - reflexivity.
Defined.

Example one_page_run :
  graphql None 1 "query { repository { issues } }" (Some "t") "" 8
    (Some [("c", CNode ["repository"; "issues"] None)]) None []
    (mkWorld [issues_reply] [])
  = (Ok (JObj [("repository",
           JObj [("issues", JObj [("nodes", JList [JObj [("number", JNum 1)];
                                                   JObj [("number", JNum 2)]])])])]),
     mkWorld []
       [Post (mkRequest "https://api.github.com/graphql"
                "query { repository { issues } }" [] "token t" "");
        Recv issues_reply]).
Proof. reflexivity. Qed.

(** C4 as stated fails: every connection of the reply has
    [hasNextPage: false], and still the call makes two requests, because a
    nested cursor with nested cursors of its own always asks for a
    recursive call (lines 184-186). *)
Lemma three_levels_two_requests :
  terminal (pulls false "P" [pull_request false "T" []]) = true /\
  exists final w,
    run [ok_reply (pulls false "P" [pull_request false "T" []]);
         ok_reply (pulls false "P" [pull_request false "T" []])] three_levels
      = (Ok final, w) /\
    posts (log w) = 2%nat /\
    posts (log w) <> 1%nat.
Proof.
  split; [reflexivity |].
  eexists. eexists. split; [vm_compute; reflexivity |].
  split; [reflexivity | discriminate].
Qed.

(** ** The frame of the depagination *)









(** ** The log only grows *)

Lemma appends_ret {A} (a : A) : appends (ret a).
Proof. intros w res w1 H. inversion H; subst. exists []. rewrite app_nil_r. reflexivity. Qed.

Lemma appends_raise {A} e : appends (@raise A e).
Proof. intros w res w1 H. inversion H; subst. exists []. rewrite app_nil_r. reflexivity. Qed.

Lemma appends_lift {A} (r : result A) : appends (lift r).
Proof. intros w res w1 H. inversion H; subst. exists []. rewrite app_nil_r. reflexivity. Qed.

Lemma appends_emit e : appends (emit e).
Proof. intros w res w1 H. inversion H; subst. exists [e]. reflexivity. Qed.

Lemma appends_post r : appends (post r).
Proof.
  intros w res w1 H.
  destruct (post_log _ _ _ _ H) as [(rep & rest & _ & _ & _ & Hl) | (_ & _ & _ & Hl)];
    eexists; exact Hl.
Qed.

Lemma appends_bind {A B} (m : M A) (f : A -> M B) :
  appends m -> (forall a, appends (f a)) -> appends (bind m f).
Proof.
  intros Hm Hf w res w1 H. unfold bind in H.
  destruct (m w) as [[a | e |] w0] eqn:E.
  - destruct (Hm _ _ _ E) as [evs0 H0]. destruct (Hf a _ _ _ H) as [evs1 H1].
    exists (evs0 ++ evs1). rewrite H1, H0, app_assoc. reflexivity.
  - inversion H; subst. apply (Hm _ _ _ E).
  - inversion H; subst. apply (Hm _ _ _ E).
Qed.

Lemma appends_for_each {A S} (body : A -> S -> M S) l :
  (forall x s, appends (body x s)) -> forall s, appends (for_each body l s).
Proof.
  intros Hb. induction l as [| x l IH]; intros s; cbn [for_each].
  - apply appends_ret.
  - apply appends_bind; [apply Hb | exact IH].
Qed.

Lemma appends_retry_loop r max_retries n : forall k rep,
  appends (retry_loop n r max_retries k rep).
Proof.
  induction n as [| n IH]; intros k rep; cbn [retry_loop].
  - apply appends_ret.
  - destruct (retryable (status_code rep) && (k <? max_retries)).
    + apply appends_bind; [apply appends_emit | intros _].
      apply appends_bind; [apply appends_emit | intros _].
      apply appends_bind; [apply appends_post | intros rep'].
      apply IH.
    + apply appends_ret.
Qed.

Lemma appends_exchange env query token accept max_retries kwargs :
  appends (exchange env query token accept max_retries kwargs).
Proof.
  unfold exchange. destruct token as [t |]; [| apply appends_raise].
  destruct (0 <? String.length t)%nat; [| apply appends_raise].
  apply appends_bind; [apply appends_post | intros rep].
  destruct (negb (String.eqb (before_paren query) "mutation"));
    [apply appends_retry_loop | apply appends_ret].
Qed.

Lemma appends_transport env query token accept max_retries kwargs :
  appends (transport env query token accept max_retries kwargs).
Proof.
  unfold transport. apply appends_bind; [apply appends_exchange | intros rep].
  apply appends_lift.
Qed.

Section AppendsDepagination.

Variable self : cursor_tree -> option path -> vars -> M json.
Hypothesis appends_self : forall cs pp kw, appends (self cs pp kw).

Lemma appends_call cs pp kw : appends (call self cs pp kw).
Proof.
  unfold call. destruct (clashes kw); [apply appends_raise | apply appends_self].
Qed.

Lemma appends_visit_element kwargs children current_path prev_path i data :
  appends (visit_element self kwargs children current_path prev_path i data).
Proof.
  unfold visit_element.
  apply appends_bind; [apply appends_lift | intros node_data].
  apply appends_bind; [apply appends_lift | intros required].
  destruct (negb required); [apply appends_ret |].
  apply appends_bind; [apply appends_call | intros next].
  apply appends_lift.
Qed.

Lemma appends_visit_cursor prev_path entry st :
  appends (visit_cursor self prev_path entry st).
Proof.
  unfold visit_cursor. destruct entry as [name c]. destruct st as [data kwargs].
  apply appends_bind; [apply appends_lift | intros obj].
  apply appends_bind; [apply appends_lift | intros [pinfo obj']].
  apply appends_bind; [apply appends_lift | intros h].
  apply appends_bind.
  - destruct (truthy h); [| apply appends_ret].
    apply appends_bind; [apply appends_lift | intros endCursor].
    apply appends_bind; [apply appends_call | intros next].
    apply appends_bind; [apply appends_lift | intros next'].
    apply appends_bind; [apply appends_lift | intros nodes].
    apply appends_bind; [apply appends_lift | intros target].
    apply appends_bind; [apply appends_lift | intros next_nodes].
    apply appends_bind; [apply appends_lift | intros items].
    apply appends_ret.
  - intros [[data2 kwargs2] obj2].
    destruct (cursor_next c) as [children |]; [| apply appends_ret].
    destruct (negb (truthy h)); [| apply appends_ret].
    apply appends_bind; [apply appends_lift | intros nodes].
    apply appends_bind; [apply appends_lift | intros n].
    apply appends_bind; [| intros data3; apply appends_ret].
    apply appends_for_each. intros i d. apply appends_visit_element.
Qed.

Lemma appends_depaginate cursors prev_path kwargs data :
  appends (depaginate self cursors prev_path kwargs data).
Proof.
  unfold depaginate. destruct cursors as [cs |]; [| apply appends_ret].
  apply appends_bind; [| intros st; apply appends_ret].
  apply appends_for_each. intros entry st. apply appends_visit_cursor.
Qed.

End AppendsDepagination.

Lemma appends_graphql env query token accept max_retries fuel :
  forall cursors prev_path kwargs,
    appends (graphql env fuel query token accept max_retries cursors prev_path kwargs).
Proof.
  induction fuel as [| fuel IH]; intros cursors prev_path kwargs.
  - intros w res w1 H. inversion H; subst. exists []. rewrite app_nil_r. reflexivity.
  - cbn [graphql]. apply appends_bind; [apply appends_transport | intros data].
    apply appends_depaginate. intros cs pp kw. apply IH.
Qed.

(** ** The pages that the server serves *)

Lemma served_app evs1 evs2 : served (evs1 ++ evs2) = served evs1 ++ served evs2.
Proof. unfold served. apply flat_map_app. Qed.

Lemma retryable_not_ok rep d :
  retryable (status_code rep) = true -> classify rep <> Ok d.
Proof.
  intros Hr Hc. apply classify_ok_status in Hc. rewrite Hc in Hr. discriminate.
Qed.

Lemma served_recv_retryable rep evs :
  retryable (status_code rep) = true -> served (Recv rep :: evs) = served evs.
Proof.
  intros Hr. unfold served. simpl.
  destruct (classify rep) as [d | e |] eqn:E; try reflexivity.
  exfalso. apply (retryable_not_ok _ _ Hr E).
Qed.

Lemma retry_loop_served r max_retries n : forall k rep w rep' w1,
  retry_loop n r max_retries k rep w = (Ok rep', w1) ->
  exists evs, log w1 = log w ++ evs /\ served (Recv rep :: evs) = served [Recv rep'].
Proof.
  induction n as [| n IH]; intros k rep w rep' w1 H; cbn [retry_loop] in H.
  - unfold ret in H. inversion H; subst. exists []. rewrite app_nil_r. split; reflexivity.
  - destruct (retryable (status_code rep) && (k <? max_retries)) eqn:Hc.
    + apply andb_true_iff in Hc. destruct Hc as [Hr _].
      apply bind_inv_ok in H. destruct H as (u1 & w2 & H1 & H).
      apply bind_inv_ok in H. destruct H as (u2 & w3 & H2 & H).
      apply bind_inv_ok in H. destruct H as (rep0 & w4 & H3 & H).
      unfold emit in H1, H2. inversion H1; subst. inversion H2; subst. clear H1 H2.
      destruct (post_log _ _ _ _ H3) as [(rep1 & rest & _ & Hrep & _ & Hl) | (_ & Hrep & _)];
        [| discriminate].
      inversion Hrep; subst rep1. simpl in Hl.
      destruct (IH _ _ _ _ _ H) as (evs & Hl' & Hs).
      exists ([Print (status_code rep) (backoff_of k); Sleep (backoff_of k); Post r;
               Recv rep0] ++ evs).
      split.
      * rewrite Hl', Hl. rewrite <- !app_assoc. reflexivity.
      * rewrite (served_recv_retryable _ _ Hr). exact Hs.
    + unfold ret in H. inversion H; subst. exists []. rewrite app_nil_r. split; reflexivity.
Qed.

Lemma exchange_served env query token accept max_retries kwargs w rep w1 :
  exchange env query token accept max_retries kwargs w = (Ok rep, w1) ->
  exists evs, log w1 = log w ++ evs /\ served evs = served [Recv rep].
Proof.
  unfold exchange. destruct token as [t |]; [| discriminate].
  destruct (0 <? String.length t)%nat; [| discriminate].
  intros H. apply bind_inv_ok in H. destruct H as (rep0 & w2 & Hp & H).
  destruct (post_log _ _ _ _ Hp) as [(rep1 & rest & _ & Hrep & _ & Hl) | (_ & Hrep & _)];
    [| discriminate].
  inversion Hrep; subst rep1.
  destruct (negb (String.eqb (before_paren query) "mutation")).
  - destruct (retry_loop_served _ _ _ _ _ _ _ _ H) as (evs & Hl' & Hs).
    exists ([Post (mkRequest (url env) (strip query) kwargs ("token " ++ t)%string accept)]
              ++ Recv rep0 :: evs).
    split; [rewrite Hl', Hl; rewrite <- app_assoc; reflexivity | exact Hs].
  - unfold ret in H. inversion H; subst. eexists. split; [exact Hl | reflexivity].
Qed.

Lemma transport_served env query token accept max_retries kwargs w d w1 :
  transport env query token accept max_retries kwargs w = (Ok d, w1) ->
  exists evs, log w1 = log w ++ evs /\ served evs = [d].
Proof.
  intros H. apply transport_inv_ok in H. destruct H as (rep & Hx & Hc).
  destruct (exchange_served _ _ _ _ _ _ _ _ _ Hx) as (evs & Hl & Hs).
  exists evs. split; [exact Hl |]. rewrite Hs. unfold served. simpl. rewrite Hc. reflexivity.
Qed.

(** ** One visit, taken apart *)

Lemma pop_inv obj k v obj' :
  pop obj k = Ok (v, obj') ->
  subscript obj (KStr k) = Ok v /\ obj' = discard k obj.
Proof.
  unfold pop, subscript. destruct obj as [| b | n | s0 | l | m]; try discriminate.
  destruct (lookup k m) as [x |]; [| discriminate].
  intros H. inversion H; subst. split; reflexivity.
Qed.

Lemma extend_target_inv d l : extend_target d = Ok l -> d = JList l.
Proof. destruct d; simpl; intros H; inversion H; reflexivity. Qed.

Lemma visit_cursor_inv self prev_path name c data kwargs w data' kwargs' w1 :
  visit_cursor self prev_path (name, c) (data, kwargs) w = (Ok (data', kwargs'), w1) ->
  let current_path :=
    (if given prev_path then path_or_empty prev_path else [])
      ++ keys_of (cursor_path c) in
  exists obj pinfo h,
    descend current_path data = Ok obj /\
    subscript obj (KStr "pageInfo") = Ok pinfo /\
    subscript pinfo (KStr "hasNextPage") = Ok h /\
    (if truthy h then
       exists endCursor next l1 next_nodes its,
         call self [(name, promote c)] prev_path (set_key name endCursor kwargs) w
           = (Ok next, w1) /\
         subscript obj (KStr "nodes") = Ok (JList l1) /\
         descend (current_path ++ [KStr "nodes"]) next = Ok next_nodes /\
         py_iter next_nodes = Ok its /\
         data' = update_at (current_path ++ [KStr "nodes"]) (append its)
                   (update_at current_path (discard "pageInfo") data)
     else
       match cursor_next c with
       | Some children =>
           exists nodes n,
             subscript obj (KStr "nodes") = Ok nodes /\
             py_len nodes = Ok n /\
             for_each (visit_element self kwargs children current_path prev_path)
               (seq 0 n) (update_at current_path (discard "pageInfo") data) w
               = (Ok data', w1)
       | None =>
           data' = update_at current_path (discard "pageInfo") data /\ w1 = w
       end).
Proof.
  intros H current_path. unfold visit_cursor in H. fold current_path in H.
  apply bind_inv_ok in H. destruct H as (obj & w2 & Hobj & H).
  apply lift_inv_ok in Hobj. destruct Hobj as [Hobj ->].
  apply bind_inv_ok in H. destruct H as ([pinfo obj'] & w2 & Hpop & H).
  apply lift_inv_ok in Hpop. destruct Hpop as [Hpop ->].
  apply pop_inv in Hpop. destruct Hpop as [Hpinfo ->].
  apply bind_inv_ok in H. destruct H as (h & w2 & Hh & H).
  apply lift_inv_ok in Hh. destruct Hh as [Hh ->].
  apply bind_inv_ok in H. destruct H as ([[data2 kwargs2] obj2] & w2 & Hmerge & H).
  exists obj, pinfo, h. split; [exact Hobj |]. split; [exact Hpinfo |]. split; [exact Hh |].
  assert (Hnodes : forall x, subscript (discard "pageInfo" obj) (KStr "nodes") = x ->
                             subscript obj (KStr "nodes") = x).
  { intros x <-. symmetry. apply discard_key_local. discriminate. }
  destruct (truthy h).
  - apply bind_inv_ok in Hmerge. destruct Hmerge as (endCursor & w3 & He & Hmerge).
    apply lift_inv_ok in He. destruct He as [He ->].
    apply bind_inv_ok in Hmerge. destruct Hmerge as (next & w3 & Hcall & Hmerge).
    apply bind_inv_ok in Hmerge. destruct Hmerge as (next' & w4 & Hn & Hmerge).
    apply lift_inv_ok in Hn. destruct Hn as [Hn ->].
    apply bind_inv_ok in Hmerge. destruct Hmerge as (nodes & w4 & Hnd & Hmerge).
    apply lift_inv_ok in Hnd. destruct Hnd as [Hnd ->].
    apply bind_inv_ok in Hmerge. destruct Hmerge as (l1 & w4 & Ht & Hmerge).
    apply lift_inv_ok in Ht. destruct Ht as [Ht ->].
    apply extend_target_inv in Ht. subst nodes.
    apply bind_inv_ok in Hmerge. destruct Hmerge as (next_nodes & w4 & Hnn & Hmerge).
    apply lift_inv_ok in Hnn. destruct Hnn as [Hnn ->].
    apply bind_inv_ok in Hmerge. destruct Hmerge as (its & w4 & Hits & Hmerge).
    apply lift_inv_ok in Hits. destruct Hits as [Hits ->].
    unfold ret in Hmerge. inversion Hmerge; subst. clear Hmerge.
    destruct (cursor_next c); cbn [negb] in H; unfold ret in H; inversion H; subst;
      exists endCursor, next, l1, next_nodes, its;
      (split; [exact Hcall |]); (split; [apply Hnodes; exact Hnd |]);
      (split; [rewrite descend_app, Hn; cbn [rbind descend]; rewrite Hnn; reflexivity |]);
      (split; [exact Hits | reflexivity]).
  - unfold ret in Hmerge. inversion Hmerge; subst. clear Hmerge.
    destruct (cursor_next c) as [children |].
    + cbn [negb] in H.
      apply bind_inv_ok in H. destruct H as (nodes & w3 & Hnd & H).
      apply lift_inv_ok in Hnd. destruct Hnd as [Hnd ->].
      apply bind_inv_ok in H. destruct H as (n & w3 & Hlen & H).
      apply lift_inv_ok in Hlen. destruct Hlen as [Hlen ->].
      apply bind_inv_ok in H. destruct H as (data3 & w3 & Hloop & H).
      unfold ret in H. inversion H; subst.
      exists nodes, n. split; [apply Hnodes; exact Hnd |]. split; [exact Hlen | exact Hloop].
    + unfold ret in H. inversion H; subst. split; reflexivity.
Qed.

(** ** The [nodes] of a connection under the mutations of a visit *)

Lemma keys_of_app p q : keys_of (p ++ q) = keys_of p ++ keys_of q.
Proof. apply map_app. Qed.










(** ** The chain of follow-up calls of one cursor *)

Lemma cursor_path_promote c : cursor_path (promote c) = cursor_path c.
Proof. destruct c; reflexivity. Qed.

Lemma cursor_next_promote c : cursor_next (promote c) = cursor_next c.
Proof. destruct c; reflexivity. Qed.

Lemma more_at P d obj pinfo h :
  descend P d = Ok obj ->
  subscript obj (KStr "pageInfo") = Ok pinfo ->
  subscript pinfo (KStr "hasNextPage") = Ok h ->
  more P d = truthy h.
Proof.
  intros Hd Hp Hh. unfold more. rewrite descend_app, Hd. cbn [rbind descend].
  rewrite Hp. cbn [rbind]. rewrite Hh. reflexivity.
Qed.

Lemma nodes_at P d obj :
  descend P d = Ok obj ->
  descend (P ++ [KStr "nodes"]) d = subscript obj (KStr "nodes").
Proof.
  intros Hd. rewrite descend_app, Hd. cbn [rbind descend].
  destruct (subscript obj (KStr "nodes")); reflexivity.
Qed.

Lemma items_at P d v l :
  descend (P ++ [KStr "nodes"]) d = Ok v -> py_iter v = Ok l -> items P d = l.
Proof. intros Hd Hi. unfold items. rewrite Hd, Hi. reflexivity. Qed.

Lemma call_inv self cs pp kw w next w1 :
  call self cs pp kw w = (Ok next, w1) -> self cs pp kw w = (Ok next, w1).
Proof. unfold call. destruct (clashes kw); [discriminate | trivial]. Qed.

(** *** What the element loop leaves as it was *)


Lemma apart_elements P i j a b :
  i <> j -> apart (element_path P j ++ a) (element_path P i ++ b).
Proof.
  intros Hij. unfold apart, element_path. rewrite <- !app_assoc.
  rewrite !prefixb_app_same. cbn [app prefixb key_eqb String.eqb Ascii.eqb Bool.eqb andb].
  destruct (Nat.eqb_neq j i) as [_ Hji]. rewrite Hji by congruence.
  destruct (Nat.eqb_neq i j) as [_ Hij']. rewrite Hij' by congruence.
  split; reflexivity.
Qed.







(** *** The pages of one cursor *)



(** ** The merged [nodes] of a top-level connection *)

Lemma for_each_app {A S} (body : A -> S -> M S) l1 l2 : forall s w s' w',
  for_each body (l1 ++ l2) s w = (Ok s', w') ->
  exists s1 w1,
    for_each body l1 s w = (Ok s1, w1) /\ for_each body l2 s1 w1 = (Ok s', w').
Proof.
  induction l1 as [| x l1 IH]; intros s w s' w' H; cbn [app for_each] in *.
  - exists s, w. split; [reflexivity | exact H].
  - apply bind_inv_ok in H. destruct H as (s0 & w0 & Hb & H).
    destruct (IH _ _ _ _ H) as (s1 & w1 & H1 & H2).
    exists s1, w1. split; [| exact H2].
    rewrite (bind_ok _ _ _ _ _ Hb). exact H1.
Qed.






Example issues_run :
  fst (run [ok_reply issues_page1; ok_reply issues_page2] example_cursors)
  = Ok (JObj [("repository",
         JObj [("issues", JObj [("nodes", JList [issue 1; issue 2; issue 3])]);
               ("pullRequests",
                JObj [("nodes", JList [pull_request false "T" [item 1]])])])]).
Proof. reflexivity. Qed.



(** ** Shape failures (lines 141-145, 180-183) *)


Lemma pop_of_subscript obj k v :
  subscript obj (KStr k) = Ok v -> pop obj k = Ok (v, discard k obj).
Proof.
  unfold subscript, pop. destruct obj as [| b | n | s | l | m]; try discriminate.
  destruct (lookup k m); intros H; inversion H; reflexivity.
Qed.


Lemma descend_snoc p k d v :
  descend (p ++ [k]) d = Ok v ->
  exists obj, descend p d = Ok obj /\ subscript obj k = Ok v.
Proof.
  rewrite descend_app. intros H. apply rbind_inv_ok in H. destruct H as (obj & Hd & H).
  exists obj. split; [exact Hd |]. cbn [descend] in H.
  destruct (subscript obj k); simpl in H; congruence.
Qed.

Lemma seq_around i n :
  (i < n)%nat -> seq 0 n = seq 0 i ++ i :: seq (S i) (n - S i).
Proof.
  intros Hi. replace n with (i + S (n - S i))%nat at 1 by lia.
  rewrite seq_app. reflexivity.
Qed.










(** ** Termination: every call uses up at least one reply *)

Lemma descend2_fuel p : forall a b, descend2 p a b <> OutOfFuel.
Proof.
  induction p as [| k p IH]; intros a b; simpl; [discriminate |].
  destruct (subscript a k) as [a' | e |] eqn:Ea; simpl;
    [| discriminate | exfalso; apply (subscript_fuel _ _ Ea)].
  destruct (subscript b k) as [b' | e |] eqn:Eb; simpl;
    [apply IH | discriminate | exfalso; apply (subscript_fuel _ _ Eb)].
Qed.

Lemma weld_fuel children current_path_nodes next : forall data,
  weld children current_path_nodes next data <> OutOfFuel.
Proof.
  induction children as [| [name c] rest IH]; intros data; simpl; [discriminate |].
  destruct (descend2 (current_path_nodes ++ keys_of (cursor_path c)) data next)
    as [[obj_nested next_nested] | e |] eqn:Ed; simpl;
    [| discriminate | exfalso; apply (descend2_fuel _ _ _ Ed)].
  destruct (subscript next_nested (KStr "nodes")) as [nodes | e |] eqn:En; simpl;
    [| discriminate | exfalso; apply (subscript_fuel _ _ En)].
  destruct obj_nested; simpl; try discriminate. apply IH.
Qed.

Lemma classify_fuel rep : classify rep <> OutOfFuel.
Proof.
  unfold classify. destruct (negb (status_code rep =? 200)); [discriminate |].
  destruct (body rep) as [data |]; [| discriminate].
  destruct data as [| b | n | s | l | m]; simpl; try discriminate.
  - destruct (is_substring "errors" s); [discriminate | apply subscript_fuel].
  - destruct (existsb _ l); [discriminate | apply subscript_fuel].
  - destruct (lookup "errors" m) as [errors |] eqn:E.
    + unfold subscript. rewrite E. discriminate.
    + apply subscript_fuel.
Qed.

Lemma bounded_ret {A} n (a : A) : bounded n (ret a).
Proof. intros w res w1 _ H. inversion H; subst. split; [discriminate | lia]. Qed.

Lemma bounded_raise {A} n e : bounded n (@raise A e).
Proof. intros w res w1 _ H. inversion H; subst. split; [discriminate | lia]. Qed.

Lemma bounded_lift {A} n (r : result A) : r <> OutOfFuel -> bounded n (lift r).
Proof. intros Hr w res w1 _ H. inversion H; subst. split; [exact Hr | lia]. Qed.

Lemma bounded_emit n e : bounded n (emit e).
Proof. intros w res w1 _ H. inversion H; subst. split; [discriminate | simpl; lia]. Qed.

Lemma bounded_post n r : bounded n (post r).
Proof.
  intros w res w1 _ H.
  destruct (post_log _ _ _ _ H) as [(rep & rest & Hp & -> & Hp1 & _) | (Hp & -> & Hp1 & _)];
    rewrite Hp, Hp1; split; try discriminate; simpl; lia.
Qed.

Lemma bounded_bind {A B} n (m : M A) (f : A -> M B) :
  bounded n m -> (forall a, bounded n (f a)) -> bounded n (bind m f).
Proof.
  intros Hm Hf w res w1 Hw H. unfold bind in H.
  destruct (m w) as [[a | e |] w0] eqn:E.
  - destruct (Hm _ _ _ Hw E) as [_ H0].
    destruct (Hf a _ _ _ (Nat.le_lt_trans _ _ _ H0 Hw) H) as [Hr H1].
    split; [exact Hr | lia].
  - inversion H; subst. split; [discriminate | apply (Hm _ _ _ Hw E)].
  - exfalso. apply (proj1 (Hm _ _ _ Hw E)). reflexivity.
Qed.

Lemma bounded_for_each {A S} n (body : A -> S -> M S) l :
  (forall x s, bounded n (body x s)) -> forall s, bounded n (for_each body l s).
Proof.
  intros Hb. induction l as [| x l IH]; intros s; cbn [for_each].
  - apply bounded_ret.
  - apply bounded_bind; [apply Hb | exact IH].
Qed.

Lemma bounded_retry_loop b r max_retries n : forall k rep,
  bounded b (retry_loop n r max_retries k rep).
Proof.
  induction n as [| n IH]; intros k rep; cbn [retry_loop].
  - apply bounded_ret.
  - destruct (retryable (status_code rep) && (k <? max_retries)).
    + apply bounded_bind; [apply bounded_emit | intros _].
      apply bounded_bind; [apply bounded_emit | intros _].
      apply bounded_bind; [apply bounded_post | intros rep'].
      apply IH.
    + apply bounded_ret.
Qed.

Lemma bounded_exchange n env query token accept max_retries kwargs :
  bounded n (exchange env query token accept max_retries kwargs).
Proof.
  unfold exchange. destruct token as [t |]; [| apply bounded_raise].
  destruct (0 <? String.length t)%nat; [| apply bounded_raise].
  apply bounded_bind; [apply bounded_post | intros rep].
  destruct (negb (String.eqb (before_paren query) "mutation"));
    [apply bounded_retry_loop | apply bounded_ret].
Qed.

Lemma bounded_transport n env query token accept max_retries kwargs :
  bounded n (transport env query token accept max_retries kwargs).
Proof.
  unfold transport. apply bounded_bind; [apply bounded_exchange | intros rep].
  apply bounded_lift. apply classify_fuel.
Qed.

(** A successful transport has used up a reply. *)
Lemma transport_consumes env query token accept max_retries kwargs w d w1 :
  transport env query token accept max_retries kwargs w = (Ok d, w1) ->
  (List.length (pending w1) < List.length (pending w))%nat.
Proof.
  intros H. apply transport_inv_ok in H. destruct H as (rep & Hx & _).
  unfold exchange in Hx. destruct token as [t |]; [| discriminate].
  destruct (0 <? String.length t)%nat; [| discriminate].
  apply bind_inv_ok in Hx. destruct Hx as (rep0 & w2 & Hp & Hx).
  destruct (post_log _ _ _ _ Hp) as [(rep1 & rest & Hpw & _ & Hpw2 & _) | (_ & Hrep & _)];
    [| discriminate].
  assert (Hle : (List.length (pending w1) <= List.length (pending w2))%nat).
  { destruct (negb (String.eqb (before_paren query) "mutation")).
    - apply (bounded_retry_loop (S (List.length (pending w2))) _ _ _ _ _ _ _ _
               (Nat.lt_succ_diag_r _) Hx).
    - unfold ret in Hx. inversion Hx; subst. lia. }
  rewrite Hpw. rewrite Hpw2 in Hle. simpl. lia.
Qed.

Section BoundedDepagination.

Variable n : nat.
Variable self : cursor_tree -> option path -> vars -> M json.
Hypothesis bounded_self : forall cs pp kw, bounded n (self cs pp kw).

Lemma bounded_call cs pp kw : bounded n (call self cs pp kw).
Proof.
  unfold call. destruct (clashes kw); [apply bounded_raise | apply bounded_self].
Qed.

Lemma bounded_visit_element kwargs children current_path prev_path i data :
  bounded n (visit_element self kwargs children current_path prev_path i data).
Proof.
  unfold visit_element.
  apply bounded_bind; [apply bounded_lift; apply descend_fuel | intros node_data].
  apply bounded_bind; [apply bounded_lift; apply call_required_fuel | intros required].
  destruct (negb required); [apply bounded_ret |].
  apply bounded_bind; [apply bounded_call | intros next].
  apply bounded_lift. apply weld_fuel.
Qed.

Lemma bounded_visit_cursor prev_path entry st :
  bounded n (visit_cursor self prev_path entry st).
Proof.
  unfold visit_cursor. destruct entry as [name c]. destruct st as [data kwargs].
  apply bounded_bind; [apply bounded_lift; apply descend_fuel | intros obj].
  apply bounded_bind; [apply bounded_lift; apply pop_fuel | intros [pinfo obj']].
  apply bounded_bind; [apply bounded_lift; apply subscript_fuel | intros h].
  apply bounded_bind.
  - destruct (truthy h); [| apply bounded_ret].
    apply bounded_bind; [apply bounded_lift; apply subscript_fuel | intros endCursor].
    apply bounded_bind; [apply bounded_call | intros next].
    apply bounded_bind; [apply bounded_lift; apply descend_fuel | intros next'].
    apply bounded_bind; [apply bounded_lift; apply subscript_fuel | intros nodes].
    apply bounded_bind; [apply bounded_lift; apply extend_target_fuel | intros target].
    apply bounded_bind; [apply bounded_lift; apply subscript_fuel | intros next_nodes].
    apply bounded_bind; [apply bounded_lift; apply py_iter_fuel | intros items].
    apply bounded_ret.
  - intros [[data2 kwargs2] obj2].
    destruct (cursor_next c) as [children |]; [| apply bounded_ret].
    destruct (negb (truthy h)); [| apply bounded_ret].
    apply bounded_bind; [apply bounded_lift; apply subscript_fuel | intros nodes].
    apply bounded_bind; [apply bounded_lift; apply py_len_fuel | intros len].
    apply bounded_bind; [| intros data3; apply bounded_ret].
    apply bounded_for_each. intros i d. apply bounded_visit_element.
Qed.

Lemma bounded_depaginate cursors prev_path kwargs data :
  bounded n (depaginate self cursors prev_path kwargs data).
Proof.
  unfold depaginate. destruct cursors as [cs |]; [| apply bounded_ret].
  apply bounded_bind; [| intros st; apply bounded_ret].
  apply bounded_for_each. intros entry st. apply bounded_visit_cursor.
Qed.

End BoundedDepagination.

Lemma bounded_graphql env query token accept max_retries fuel :
  forall cursors prev_path kwargs,
    bounded fuel
      (graphql env fuel query token accept max_retries cursors prev_path kwargs).
Proof.
  induction fuel as [| fuel IH]; intros cursors prev_path kwargs w res w1 Hw H; [lia |].
  rewrite graphql_unfold in H. unfold bind in H.
  destruct (transport env query token accept max_retries kwargs w) as [[d | e |] w0] eqn:Ht.
  - pose proof (transport_consumes _ _ _ _ _ _ _ _ _ Ht) as Hlt.
    assert (Hself : forall cs pp kw,
              bounded fuel (graphql env fuel query token accept max_retries (Some cs) pp kw)).
    { intros cs pp kw. apply IH. }
    destruct (bounded_depaginate _ _ Hself cursors prev_path kwargs d w0 res w1
                ltac:(lia) H) as [Hr Hle].
    split; [exact Hr | lia].
  - inversion H; subst. split; [discriminate |].
    apply (bounded_transport (S fuel) _ _ _ _ _ _ _ _ _ Hw Ht).
  - exfalso. apply (proj1 (bounded_transport (S fuel) _ _ _ _ _ _ _ _ _ Hw Ht)).
    reflexivity.
Qed.

(** X14: every call, the recursive ones included, takes a reply before it
    recurses.  So with one unit of fuel more than there are replies pending
    a call ends: it returns or raises, whatever the cursor tree and the
    replies are. *)
Theorem graphql_terminates :
  forall env query token accept max_retries cursors prev_path kwargs script lg,
    fst (graphql env (S (List.length script)) query token accept max_retries
           cursors prev_path kwargs (mkWorld script lg)) <> OutOfFuel.
Proof.
  intros env query token accept max_retries cursors prev_path kwargs script lg.
  destruct (graphql env (S (List.length script)) query token accept max_retries
              cursors prev_path kwargs (mkWorld script lg)) as [res w1] eqn:H.
  apply (bounded_graphql _ _ _ _ _ _ _ _ _ _ _ _ (Nat.lt_succ_diag_r _) H).
Qed.

(** * Further properties of the code *)

(** ** The exchange on a given script (lines 104-120) *)

Lemma retry_loop_stop r max_retries n k rep w :
  retryable (status_code rep) = false \/ max_retries <= k ->
  retry_loop n r max_retries k rep w = (Ok rep, w).
Proof.
  intros H. destruct n as [| n]; cbn [retry_loop]; [reflexivity |].
  destruct H as [H | H].
  - rewrite H. reflexivity.
  - apply Z.ltb_ge in H. rewrite H, andb_false_r. reflexivity.
Qed.

(** The loop on a script that starts with retryable replies: one retry for
    the reply in hand and one for each of [flaky]; [rep] ends it. *)
Lemma retry_loop_run r max_retries rep rest : forall flaky n k rep0 lg,
  retryable (status_code rep0) = true ->
  Forall (fun rp => retryable (status_code rp) = true) flaky ->
  k + Z.of_nat (List.length flaky) < max_retries ->
  retryable (status_code rep) = false
    \/ k + Z.of_nat (List.length flaky) + 1 = max_retries ->
  (List.length flaky < n)%nat ->
  exists evs,
    retry_loop n r max_retries k rep0 (mkWorld (flaky ++ rep :: rest) lg)
      = (Ok rep, mkWorld rest (lg ++ evs)) /\
    posts evs = S (List.length flaky) /\
    sleeps evs
      = map (fun i => backoff_of (k + Z.of_nat i)) (seq 0 (S (List.length flaky))).
Proof.
  induction flaky as [| f flaky IH]; intros n k rep0 lg Hr0 Hfl Hk Hstop Hn;
    (destruct n as [| n]; [simpl in Hn; lia |]); cbn [retry_loop].
  - simpl in Hk. assert (Hlt : (k <? max_retries) = true) by (apply Z.ltb_lt; lia).
    rewrite Hr0, Hlt. cbn [andb]. unfold bind, emit, post. cbn [pending log app].
    rewrite retry_loop_stop; [| simpl in Hstop; destruct Hstop; [left; assumption | right; lia]].
    exists [Print (status_code rep0) (backoff_of k); Sleep (backoff_of k); Post r; Recv rep].
    split; [rewrite <- !app_assoc; reflexivity |].
    split; [reflexivity |].
    simpl. rewrite Z.add_0_r. reflexivity.
  - cbn [List.length] in Hk, Hstop, Hn. rewrite Nat2Z.inj_succ in Hk, Hstop.
    assert (Hlt : (k <? max_retries) = true) by (apply Z.ltb_lt; lia).
    rewrite Hr0, Hlt. cbn [andb]. unfold bind at 1 2 3. unfold emit, post.
    cbn [pending log app].
    inversion Hfl as [| ? ? Hf Hfl']; subst.
    destruct (IH n (k + 1) f
                (((lg ++ [Print (status_code rep0) (backoff_of k)])
                    ++ [Sleep (backoff_of k)]) ++ [Post r; Recv f])
                Hf Hfl' ltac:(lia) ltac:(destruct Hstop; [left; assumption | right; lia])
                ltac:(lia)) as (evs & Hrun & Hposts & Hsleeps).
    rewrite Hrun.
    exists ([Print (status_code rep0) (backoff_of k); Sleep (backoff_of k); Post r; Recv f]
              ++ evs).
    split; [rewrite <- !app_assoc; reflexivity |].
    split; [rewrite posts_app, Hposts; reflexivity |].
    cbn [app sleeps flat_map]. change (flat_map _ evs) with (sleeps evs).
    rewrite Hsleeps. cbn [List.length].
    replace (seq 0 (S (S (List.length flaky))))
      with (0%nat :: map S (seq 0 (S (List.length flaky))))
      by (rewrite seq_shift; reflexivity).
    cbn [map]. f_equal; [f_equal; lia |].
    rewrite map_map. apply map_ext. intros i. f_equal. lia.
Qed.

(** One exchange on a script made of retryable replies followed by [rep],
    which ends the exchange because its status is not retryable or because
    the retries are used up. *)
Lemma exchange_run env query t accept max_retries kwargs flaky rep rest lg :
  t <> "" ->
  flaky = [] \/ before_paren query <> "mutation" ->
  Forall (fun rp => retryable (status_code rp) = true) flaky ->
  Z.of_nat (List.length flaky) <= max_retries ->
  retryable (status_code rep) = false \/ Z.of_nat (List.length flaky) = max_retries ->
  exists evs,
    exchange env query (Some t) accept max_retries kwargs
      (mkWorld (flaky ++ rep :: rest) lg)
      = (Ok rep, mkWorld rest (lg ++ evs)) /\
    posts evs = S (List.length flaky) /\
    sleeps evs = map (fun i => backoff_of (Z.of_nat i)) (seq 0 (List.length flaky)).
Proof.
  intros Ht Hq Hfl Hlen Hstop. unfold exchange.
  assert (Htok : (0 <? String.length t)%nat = true).
  { destruct t; [congruence | reflexivity]. }
  rewrite Htok. unfold bind at 1. unfold post.
  set (r := mkRequest (url env) (strip query) kwargs ("token " ++ t)%string accept).
  destruct flaky as [| rep0 flaky]; cbn [app pending log].
  - exists [Post r; Recv rep]. split; [| split; reflexivity].
    destruct (negb (String.eqb (before_paren query) "mutation")); [| reflexivity].
    apply retry_loop_stop. simpl in Hstop. destruct Hstop; [left; assumption | right; lia].
  - destruct Hq as [Hq | Hq]; [discriminate |].
    apply String.eqb_neq in Hq. rewrite Hq. cbn [negb].
    cbn [List.length] in Hlen, Hstop. rewrite Nat2Z.inj_succ in Hlen, Hstop.
    inversion Hfl as [| ? ? Hr0 Hfl']; subst.
    destruct (retry_loop_run r max_retries rep rest flaky (Z.to_nat max_retries) 0 rep0
                (lg ++ [Post r; Recv rep0]) Hr0 Hfl' ltac:(lia)
                ltac:(destruct Hstop; [left; assumption | right; lia]) ltac:(lia))
      as (evs & Hrun & Hposts & Hsleeps).
    rewrite Hrun.
    exists ([Post r; Recv rep0] ++ evs).
    split; [rewrite <- app_assoc; reflexivity |].
    split; [rewrite posts_app, Hposts; reflexivity |].
    cbn [app sleeps flat_map]. change (flat_map _ evs) with (sleeps evs).
    rewrite Hsleeps. apply map_ext. intros i. reflexivity.
Qed.

Lemma graphql_of_exchange env fuel query token accept max_retries prev_path kwargs
    w rep w1 :
  exchange env query token accept max_retries kwargs w = (Ok rep, w1) ->
  graphql env (S fuel) query token accept max_retries None prev_path kwargs w
    = (classify rep, w1).
Proof.
  intros Hx. rewrite graphql_unfold.
  pose proof (transport_exchange _ _ _ _ _ _ _ _ _ Hx) as Ht.
  unfold bind. rewrite Ht. destruct (classify rep); reflexivity.
Qed.

Lemma classify_not_200 rep : status_code rep <> 200 -> classify rep = Raise (HTTPError rep).
Proof.
  intros H. unfold classify. apply Z.eqb_neq in H. rewrite H. reflexivity.
Qed.

Lemma retryable_not_200 rep : retryable (status_code rep) = true -> status_code rep <> 200.
Proof. intros Hr H. rewrite H in Hr. discriminate. Qed.

Lemma not_in_retry_codes status :
  ~ In status retry_codes -> retryable status = false.
Proof.
  intros H. unfold retryable. destruct (existsb (Z.eqb status) retry_codes) eqn:E;
    [| reflexivity].
  apply existsb_exists in E. destruct E as (x & Hin & Hx).
  apply Z.eqb_eq in Hx. subst x. contradiction.
Qed.

(** One exchange whose first reply has a status outside the retry list. *)
Lemma exchange_other_status env query t accept max_retries kwargs rep rest lg :
  t <> "" ->
  retryable (status_code rep) = false ->
  exchange env query (Some t) accept max_retries kwargs (mkWorld (rep :: rest) lg)
    = (Ok rep,
       mkWorld rest
         (lg ++ [Post (mkRequest (url env) (strip query) kwargs
                         ("token " ++ t)%string accept);
                 Recv rep])).
Proof.
  intros Ht Hr. unfold exchange. destruct t; [congruence |].
  cbn [String.length Nat.ltb Nat.leb].
  unfold bind, post. cbn [pending log].
  destruct (negb (String.eqb (before_paren query) "mutation")); [| reflexivity].
  apply retry_loop_stop. left. exact Hr.
Qed.

(** X1: a reply whose status is neither 200 nor in the retry list ends the
    call after one request: [HTTPError] carries that reply, whatever its
    body holds, whatever the cursors and the number of retries allowed, and
    nothing is printed or slept. *)
Theorem other_status_raises_at_once :
  forall env fuel query t accept max_retries cursors prev_path kwargs rep rest lg,
    t <> "" ->
    status_code rep <> 200 ->
    ~ In (status_code rep) retry_codes ->
    graphql env (S fuel) query (Some t) accept max_retries cursors prev_path kwargs
      (mkWorld (rep :: rest) lg)
    = (Raise (HTTPError rep),
       mkWorld rest
         (lg ++ [Post (mkRequest (url env) (strip query) kwargs
                         ("token " ++ t)%string accept);
                 Recv rep])).
Proof.
  intros env fuel query t accept max_retries cursors prev_path kwargs rep rest lg
    Ht H200 Hcodes.
  rewrite graphql_unfold. eapply bind_raise.
  rewrite (transport_exchange _ _ _ _ _ _ _ _ _
             (exchange_other_status env query t accept max_retries kwargs rep rest lg
                Ht (not_in_retry_codes _ Hcodes))).
  rewrite (classify_not_200 _ H200). reflexivity.
Qed.

Lemma other_status_raises_at_once_witness :
  graphql None 1 "query { viewer { login } }" (Some "t") "" 8
    (Some [("c", CPath ["viewer"])]) None [] (mkWorld [not_found; viewer_reply] [])
  = (Raise (HTTPError not_found),
     mkWorld [viewer_reply] ([] ++ [Post viewer_request; Recv not_found])).
Proof.
  apply (other_status_raises_at_once None 0 "query { viewer { login } }" "t" "" 8
           (Some [("c", CPath ["viewer"])]) None [] not_found [viewer_reply] []).
  - discriminate.
  - discriminate.
  - simpl. intros H. repeat (destruct H as [H | H]; [discriminate |]). exact H.
Defined.

(** X2: a call without cursors on a script that starts with [n] retryable
    replies, [n] at most [max_retries], followed by a reply [rep] that is
    not retryable or is reply number [max_retries + 1].  The call makes
    [n + 1] requests, sleeps [2 ** (k - 1)] before retry [k] for
    [k = 0 .. n - 1], leaves the rest of the script untouched, and its
    outcome is the classification of [rep] alone. *)
Theorem retries_end_at_first_other_reply :
  forall env fuel query t accept max_retries prev_path kwargs flaky rep rest lg,
    t <> "" ->
    before_paren query <> "mutation" ->
    Forall (fun rp => In (status_code rp) retry_codes) flaky ->
    Z.of_nat (List.length flaky) <= max_retries ->
    ~ In (status_code rep) retry_codes \/ Z.of_nat (List.length flaky) = max_retries ->
    exists evs,
      graphql env (S fuel) query (Some t) accept max_retries None prev_path kwargs
        (mkWorld (flaky ++ rep :: rest) lg)
      = (classify rep, mkWorld rest (lg ++ evs)) /\
      posts evs = S (List.length flaky) /\
      sleeps evs = map (fun i => backoff_of (Z.of_nat i)) (seq 0 (List.length flaky)).
Proof.
  intros env fuel query t accept max_retries prev_path kwargs flaky rep rest lg
    Ht Hq Hfl Hlen Hstop.
  assert (Hin : forall s, In s retry_codes <-> retryable s = true).
  { intros s. unfold retryable. rewrite existsb_exists. split.
    - intros H. exists s. split; [exact H | apply Z.eqb_refl].
    - intros (x & H & Hx). apply Z.eqb_eq in Hx. subst x. exact H. }
  destruct (exchange_run env query t accept max_retries kwargs flaky rep rest lg Ht
              (or_intror Hq)) as (evs & Hx & Hposts & Hsleeps).
  - eapply Forall_impl; [| exact Hfl]. intros rp. apply Hin.
  - exact Hlen.
  - destruct Hstop as [H | H]; [left | right; exact H].
    destruct (retryable (status_code rep)) eqn:E; [| reflexivity].
    exfalso. apply H. apply Hin. exact E.
  - exists evs. split; [| split; assumption].
    apply graphql_of_exchange. exact Hx.
Qed.

Lemma retries_end_at_first_other_reply_witness :
  exists evs,
    graphql None 1 "query { viewer { login } }" (Some "t") "" 8 None None []
      (mkWorld ([throttled; bad_gateway] ++ viewer_reply :: [throttled]) [])
    = (classify viewer_reply, mkWorld [throttled] ([] ++ evs)) /\
    posts evs = 3%nat /\
    sleeps evs = map (fun i => backoff_of (Z.of_nat i)) (seq 0 2).
Proof.
  apply (retries_end_at_first_other_reply None 0 "query { viewer { login } }" "t" "" 8
           None [] [throttled; bad_gateway] viewer_reply [throttled] []).
  - discriminate.
  - discriminate.
  - repeat constructor; simpl; tauto.
  - simpl. lia.
  - left. simpl. intros H. repeat (destruct H as [H | H]; [discriminate |]). exact H.
Defined.

(** X3: when the first [max_retries + 1] replies all have a retryable
    status, a call for a query that is not taken for a mutation raises
    [HTTPError] with the last of them, after [max_retries + 1] requests,
    whatever the cursors are; replies beyond that are not asked for. *)
Theorem retries_exhausted_raise_last_reply :
  forall env fuel query t accept max_retries cursors prev_path kwargs flaky rep rest lg,
    t <> "" ->
    before_paren query <> "mutation" ->
    Forall (fun rp => In (status_code rp) retry_codes) (flaky ++ [rep]) ->
    Z.of_nat (List.length flaky) = max_retries ->
    exists evs,
      graphql env (S fuel) query (Some t) accept max_retries cursors prev_path kwargs
        (mkWorld (flaky ++ rep :: rest) lg)
      = (Raise (HTTPError rep), mkWorld rest (lg ++ evs)) /\
      Z.of_nat (posts evs) = max_retries + 1.
Proof.
  intros env fuel query t accept max_retries cursors prev_path kwargs flaky rep rest lg
    Ht Hq Hall Hlen.
  assert (Hin : forall s, In s retry_codes -> retryable s = true).
  { intros s H. unfold retryable. rewrite existsb_exists.
    exists s. split; [exact H | apply Z.eqb_refl]. }
  apply Forall_app in Hall. destruct Hall as [Hfl Hrep].
  pose proof (Forall_inv Hrep) as Hrep'. cbn beta in Hrep'.
  destruct (exchange_run env query t accept max_retries kwargs flaky rep rest lg Ht
              (or_intror Hq)) as (evs & Hx & Hposts & _).
  - eapply Forall_impl; [| exact Hfl]. intros rp. apply Hin.
  - lia.
  - right. exact Hlen.
  - exists evs. split; [| rewrite Hposts; lia].
    rewrite graphql_unfold. eapply bind_raise.
    rewrite (transport_exchange _ _ _ _ _ _ _ _ _ Hx).
    rewrite (classify_not_200 _ (retryable_not_200 _ (Hin _ Hrep'))). reflexivity.
Qed.

Lemma retries_exhausted_raise_last_reply_witness :
  exists evs,
    graphql None 1 "query { viewer { login } }" (Some "t") "" 2
      (Some [("c", CPath ["viewer"])]) None []
      (mkWorld ([throttled; throttled] ++ bad_gateway :: [viewer_reply]) [])
    = (Raise (HTTPError bad_gateway), mkWorld [viewer_reply] ([] ++ evs)) /\
    Z.of_nat (posts evs) = 2 + 1.
Proof.
  apply (retries_exhausted_raise_last_reply None 0 "query { viewer { login } }" "t" "" 2
           (Some [("c", CPath ["viewer"])]) None [] [throttled; throttled] bad_gateway
           [viewer_reply] []).
  - discriminate.
  - discriminate.
  - repeat constructor; simpl; tauto.
  - reflexivity.
Defined.

(** ** Queries taken for mutations (line 111) *)




(** ** What every request of a call carries (lines 88-104, 116, 148, 191) *)

Lemma posting_silent {A} Q (m : M A) :
  (forall w res w1, m w = (res, w1) -> w1 = w) -> posting Q m.
Proof.
  intros Hm w res w1 H. rewrite (Hm _ _ _ H). exists []. rewrite app_nil_r.
  split; [reflexivity | intros r []].
Qed.

Lemma posting_ret {A} Q (a : A) : posting Q (ret a).
Proof. apply posting_silent. intros w res w1 H. inversion H; reflexivity. Qed.

Lemma posting_raise {A} Q e : posting Q (@raise A e).
Proof. apply posting_silent. intros w res w1 H. inversion H; reflexivity. Qed.

Lemma posting_lift {A} Q (r : result A) : posting Q (lift r).
Proof. apply posting_silent. intros w res w1 H. inversion H; reflexivity. Qed.

Lemma posting_emit Q e : (forall r, e <> Post r) -> posting Q (emit e).
Proof.
  intros He w res w1 H. inversion H; subst. exists [e]. split; [reflexivity |].
  intros r [Hr | []]. exfalso. apply (He r Hr).
Qed.

Lemma posting_post (Q : request -> Prop) r : Q r -> posting Q (post r).
Proof.
  intros Hq w res w1 H.
  destruct (post_log _ _ _ _ H) as [(rep & rest & _ & _ & _ & Hl) | (_ & _ & _ & Hl)];
    eexists; (split; [exact Hl |]); intros r' Hin; simpl in Hin;
    repeat (destruct Hin as [Hin | Hin]; [inversion Hin; subst; try exact Hq |]);
    try contradiction.
Qed.

Lemma posting_bind {A B} Q (m : M A) (f : A -> M B) :
  posting Q m -> (forall a w w1, m w = (Ok a, w1) -> posting Q (f a)) ->
  posting Q (bind m f).
Proof.
  intros Hm Hf w res w1 H. unfold bind in H.
  destruct (m w) as [[a | e |] w0] eqn:E.
  - destruct (Hm _ _ _ E) as (evs0 & H0 & Q0).
    destruct (Hf a _ _ E _ _ _ H) as (evs1 & H1 & Q1).
    exists (evs0 ++ evs1). split; [rewrite H1, H0, app_assoc; reflexivity |].
    intros r Hin. apply in_app_or in Hin. destruct Hin; [apply Q0 | apply Q1]; assumption.
  - inversion H; subst. apply (Hm _ _ _ E).
  - inversion H; subst. apply (Hm _ _ _ E).
Qed.

Lemma posting_weaken {A} (Q Q' : request -> Prop) (m : M A) :
  (forall r, Q r -> Q' r) -> posting Q m -> posting Q' m.
Proof.
  intros HQ Hm w res w1 H. destruct (Hm _ _ _ H) as (evs & Hl & Hq).
  exists evs. split; [exact Hl |]. intros r Hin. apply HQ. apply (Hq r Hin).
Qed.

Lemma posting_for_each {A S} Q (body : A -> S -> M S) l :
  (forall x s, posting Q (body x s)) -> forall s, posting Q (for_each body l s).
Proof.
  intros Hb. induction l as [| x l IH]; intros s; cbn [for_each].
  - apply posting_ret.
  - apply posting_bind; [apply Hb | intros; apply IH].
Qed.

Lemma posting_retry_loop Q r max_retries n : Q r -> forall k rep,
  posting Q (retry_loop n r max_retries k rep).
Proof.
  intros Hq. induction n as [| n IH]; intros k rep; cbn [retry_loop].
  - apply posting_ret.
  - destruct (retryable (status_code rep) && (k <? max_retries)).
    + apply posting_bind; [apply posting_emit; discriminate | intros].
      apply posting_bind; [apply posting_emit; discriminate | intros].
      apply posting_bind; [apply posting_post; exact Hq | intros].
      apply IH.
    + apply posting_ret.
Qed.

Lemma like_refl r names : like r names r.
Proof. repeat split. Qed.

Lemma posting_transport env query t accept max_retries kwargs names :
  posting (like (request_of env query t accept kwargs) names)
    (transport env query (Some t) accept max_retries kwargs).
Proof.
  unfold transport. apply posting_bind; [| intros; apply posting_lift].
  unfold exchange. destruct (0 <? String.length t)%nat; [| apply posting_raise].
  fold (request_of env query t accept kwargs).
  apply posting_bind; [apply posting_post; apply like_refl | intros].
  destruct (negb (String.eqb (before_paren query) "mutation"));
    [apply posting_retry_loop; apply like_refl | apply posting_ret].
Qed.

Lemma names_below_promote c : names_below (promote c) = names_below c.
Proof. destruct c; reflexivity. Qed.

Lemma cursor_names_promoted children :
  cursor_names (map (fun kc => (fst kc, promote (snd kc))) children)
    = cursor_names children.
Proof.
  unfold cursor_names. induction children as [| [k c] rest IH]; simpl; [reflexivity |].
  rewrite names_below_promote, IH. reflexivity.
Qed.

Lemma names_below_next c children :
  cursor_next c = Some children -> names_below c = cursor_names children.
Proof. destruct c as [p | p [ch |]]; simpl; intros H; inversion H; reflexivity. Qed.

(** Requests like those of a call with other variables, when the two sets
    of variables agree off [names]. *)
Lemma like_trans env query t accept kw kw' names names' r :
  (forall k, In k names' -> In k names) ->
  (forall k, ~ In k names -> lookup k kw' = lookup k kw) ->
  like (request_of env query t accept kw') names' r ->
  like (request_of env query t accept kw) names r.
Proof.
  intros Hsub Hagree (Hu & Hq & Ha & Hc & Hv).
  repeat split; try assumption.
  intros k Hk. cbn [request_of req_variables] in *.
  rewrite Hv; [apply Hagree; exact Hk |].
  intros Hin. apply Hk. apply Hsub. exact Hin.
Qed.

Section PostingDepagination.

Variables (env : option string) (query t accept : string).
Variable self : cursor_tree -> option path -> vars -> M json.
Hypothesis posting_self : forall cs pp kw,
  posting (like (request_of env query t accept kw) (cursor_names cs)) (self cs pp kw).

Lemma posting_call cs pp kw :
  posting (like (request_of env query t accept kw) (cursor_names cs)) (call self cs pp kw).
Proof.
  unfold call. destruct (clashes kw); [apply posting_raise | apply posting_self].
Qed.

Lemma posting_visit_element kwargs children current_path prev_path i data :
  posting (like (request_of env query t accept kwargs) (cursor_names children))
    (visit_element self kwargs children current_path prev_path i data).
Proof.
  unfold visit_element.
  apply posting_bind; [apply posting_lift | intros node_data ? ? _].
  apply posting_bind; [apply posting_lift | intros required ? ? _].
  destruct (negb required); [apply posting_ret |].
  apply posting_bind; [| intros; apply posting_lift].
  rewrite <- (cursor_names_promoted children). apply posting_call.
Qed.

Lemma posting_visit_cursor prev_path name c data kwargs :
  posting (like (request_of env query t accept kwargs) (name :: names_below c))
    (visit_cursor self prev_path (name, c) (data, kwargs)).
Proof.
  unfold visit_cursor.
  apply posting_bind; [apply posting_lift | intros obj ? ? _].
  apply posting_bind; [apply posting_lift | intros [pinfo obj'] ? ? _].
  apply posting_bind; [apply posting_lift | intros h ? ? _].
  destruct (truthy h).
  - apply posting_bind.
    + apply posting_bind; [apply posting_lift | intros endCursor ? ? _].
      apply posting_bind.
      * eapply posting_weaken; [| apply posting_call].
        intros r. apply like_trans.
        -- unfold cursor_names. simpl. rewrite names_below_promote, app_nil_r. trivial.
        -- intros k Hk. apply lookup_set_key_other. intros ->. apply Hk. left. reflexivity.
      * intros next ? ? _.
        apply posting_bind; [apply posting_lift | intros next' ? ? _].
        apply posting_bind; [apply posting_lift | intros nodes ? ? _].
        apply posting_bind; [apply posting_lift | intros target ? ? _].
        apply posting_bind; [apply posting_lift | intros next_nodes ? ? _].
        apply posting_bind; [apply posting_lift | intros its ? ? _].
        apply posting_ret.
    + intros [[data2 kwargs2] obj2] ? ? _. cbn [negb].
      destruct (cursor_next c); apply posting_ret.
  - apply posting_bind; [apply posting_ret |].
    intros [[data2 kwargs2] obj2] wa wb Hret. unfold ret in Hret. inversion Hret; subst.
    destruct (cursor_next c) as [children |] eqn:Hc; [| apply posting_ret].
    cbn [negb].
    apply posting_bind; [apply posting_lift | intros nodes ? ? _].
    apply posting_bind; [apply posting_lift | intros n ? ? _].
    apply posting_bind; [| intros; apply posting_ret].
    apply posting_for_each. intros i d.
    eapply posting_weaken; [| apply posting_visit_element].
    intros r. apply like_trans; [| reflexivity].
    intros k Hk. right. rewrite (names_below_next _ _ Hc). exact Hk.
Qed.

(** A visit changes no variable but the one named after its cursor. *)
Lemma visit_cursor_vars prev_path name c data kwargs w data' kwargs' w1 :
  visit_cursor self prev_path (name, c) (data, kwargs) w = (Ok (data', kwargs'), w1) ->
  forall k, k <> name -> lookup k kwargs' = lookup k kwargs.
Proof.
  intros H k Hk. unfold visit_cursor in H.
  apply bind_inv_ok in H. destruct H as (obj & w2 & _ & H).
  apply bind_inv_ok in H. destruct H as ([pinfo obj'] & w3 & _ & H).
  apply bind_inv_ok in H. destruct H as (h & w4 & _ & H).
  apply bind_inv_ok in H. destruct H as ([[data2 kwargs2] obj2] & w5 & Hmerge & H).
  assert (H2 : lookup k kwargs2 = lookup k kwargs).
  { destruct (truthy h).
    - apply bind_inv_ok in Hmerge. destruct Hmerge as (endCursor & w6 & _ & Hmerge).
      apply bind_inv_ok in Hmerge. destruct Hmerge as (next & w7 & _ & Hmerge).
      apply bind_inv_ok in Hmerge. destruct Hmerge as (next' & w8 & _ & Hmerge).
      apply bind_inv_ok in Hmerge. destruct Hmerge as (nodes & w9 & _ & Hmerge).
      apply bind_inv_ok in Hmerge. destruct Hmerge as (target & w10 & _ & Hmerge).
      apply bind_inv_ok in Hmerge. destruct Hmerge as (next_nodes & w11 & _ & Hmerge).
      apply bind_inv_ok in Hmerge. destruct Hmerge as (its & w12 & _ & Hmerge).
      unfold ret in Hmerge. inversion Hmerge; subst.
      apply lookup_set_key_other. exact Hk.
    - unfold ret in Hmerge. inversion Hmerge; subst. reflexivity. }
  destruct (cursor_next c) as [children |].
  - destruct (negb (truthy h)).
    + apply bind_inv_ok in H. destruct H as (nodes & w6 & _ & H).
      apply bind_inv_ok in H. destruct H as (n & w7 & _ & H).
      apply bind_inv_ok in H. destruct H as (data3 & w8 & _ & H).
      unfold ret in H. inversion H; subst. exact H2.
    + unfold ret in H. inversion H; subst. exact H2.
  - unfold ret in H. inversion H; subst. exact H2.
Qed.

Lemma posting_cursors prev_path kwargs names cs : forall data kwargs',
  (forall k, In k (cursor_names cs) -> In k names) ->
  (forall k, ~ In k names -> lookup k kwargs' = lookup k kwargs) ->
  posting (like (request_of env query t accept kwargs) names)
    (for_each (visit_cursor self prev_path) cs (data, kwargs')).
Proof.
  induction cs as [| [name c] rest IH]; intros data kwargs' Hsub Hagree; cbn [for_each].
  - apply posting_ret.
  - apply posting_bind.
    + eapply posting_weaken; [| apply posting_visit_cursor].
      intros r. apply like_trans; [| exact Hagree].
      intros k Hk. apply Hsub. unfold cursor_names. cbn [flat_map].
      apply in_or_app. left. exact Hk.
    + intros [data1 kwargs1] wa wb Hv. apply IH.
      * intros k Hk. apply Hsub. unfold cursor_names. cbn [flat_map].
        apply in_or_app. right. exact Hk.
      * intros k Hk. rewrite (visit_cursor_vars _ _ _ _ _ _ _ _ _ Hv).
        -- apply Hagree. exact Hk.
        -- intros ->. apply Hk. apply Hsub. unfold cursor_names. cbn [flat_map].
           left. reflexivity.
Qed.

End PostingDepagination.

Lemma posting_graphql env query t accept max_retries fuel : forall cs prev_path kwargs,
  posting (like (request_of env query t accept kwargs) (cursor_names cs))
    (graphql env fuel query (Some t) accept max_retries (Some cs) prev_path kwargs).
Proof.
  induction fuel as [| fuel IH]; intros cs prev_path kwargs.
  - apply posting_silent. intros w res w1 H. inversion H; reflexivity.
  - cbn [graphql]. apply posting_bind; [apply posting_transport | intros data ? ? _].
    unfold depaginate. apply posting_bind; [| intros; apply posting_ret].
    apply posting_cursors; [exact IH | trivial | trivial].
Qed.

(** X5: every request that a call posts, its own and those of all the
    follow-up calls below it, goes to the same URL with the same stripped
    query, the same [Authorization] and [Accept] headers, and with every
    variable that is not the name of a cursor of the tree as the caller
    gave it. *)
Theorem every_request_repeats_the_call :
  forall env fuel query t accept max_retries cs prev_path kwargs w res w1,
    graphql env fuel query (Some t) accept max_retries (Some cs) prev_path kwargs w
      = (res, w1) ->
    exists evs,
      log w1 = log w ++ evs /\
      forall r, In (Post r) evs ->
        req_url r = url env /\
        req_query r = strip query /\
        req_authorization r = ("token " ++ t)%string /\
        req_accept r = accept /\
        forall k, ~ In k (cursor_names cs) -> lookup k (req_variables r) = lookup k kwargs.
Proof.
  intros env fuel query t accept max_retries cs prev_path kwargs w res w1 H.
  apply (posting_graphql env query t accept max_retries fuel cs prev_path kwargs _ _ _ H).
Qed.

Lemma every_request_repeats_the_call_witness :
  exists evs,
    log (snd (graphql None 3 padded_query (Some "t") "" 8 (Some issues_cursor) None
                owner_vars (mkWorld two_issue_pages [])))
      = [] ++ evs /\
    forall r, In (Post r) evs ->
      req_url r = "https://api.github.com/graphql" /\
      req_query r = "query { repository { issues } }" /\
      req_authorization r = "token t" /\
      req_accept r = "" /\
      forall k, ~ In k (cursor_names issues_cursor) ->
        lookup k (req_variables r) = lookup k owner_vars.
Proof.
  apply (every_request_repeats_the_call None 3 padded_query "t" "" 8
           issues_cursor None owner_vars (mkWorld two_issue_pages [])
           (fst (graphql None 3 padded_query (Some "t") "" 8 (Some issues_cursor) None
                   owner_vars (mkWorld two_issue_pages [])))
           (snd (graphql None 3 padded_query (Some "t") "" 8 (Some issues_cursor) None
                   owner_vars (mkWorld two_issue_pages [])))).
  reflexivity.
Defined.

(** ** The follow-up call of a connection with a further page (lines 146-148) *)

Lemma silent_ret {A} (a : A) : silent (ret a).
Proof. intros w res w1 H. inversion H; reflexivity. Qed.

Lemma silent_lift {A} (r : result A) : silent (lift r).
Proof. intros w res w1 H. inversion H; reflexivity. Qed.

Lemma silent_bind {A B} (m : M A) (f : A -> M B) :
  silent m -> (forall a, silent (f a)) -> silent (bind m f).
Proof.
  intros Hm Hf w res w1 H. unfold bind in H.
  destruct (m w) as [[a | e |] w0] eqn:E.
  - rewrite (Hf a _ _ _ H). apply (Hm _ _ _ E).
  - inversion H; subst. apply (Hm _ _ _ E).
  - inversion H; subst. apply (Hm _ _ _ E).
Qed.

Section FollowUp.

Variable self : cursor_tree -> option path -> vars -> M json.
Variables (prev_path : option path) (name : string) (c : cursor).
Variables (data : json) (kwargs : vars) (pinfo h endCursor : json).

Hypothesis page :
  descend (((if given prev_path then path_or_empty prev_path else [])
              ++ keys_of (cursor_path c)) ++ [KStr "pageInfo"]) data = Ok pinfo.
Hypothesis has_next : subscript pinfo (KStr "hasNextPage") = Ok h.
Hypothesis is_more : truthy h = true.
Hypothesis end_cursor : subscript pinfo (KStr "endCursor") = Ok endCursor.

(** With a further page announced, the visit makes the follow-up call with
    the cursor bound to [endCursor]; nothing else touches the world, and
    what the call raises the visit raises. *)
Lemma visit_cursor_follow_up w res w2 :
  visit_cursor self prev_path (name, c) (data, kwargs) w = (res, w2) ->
  exists outcome,
    call self [(name, promote c)] prev_path (set_key name endCursor kwargs) w
      = (outcome, w2) /\
    (forall ex, outcome = Raise ex -> res = Raise ex) /\
    (outcome = OutOfFuel -> res = OutOfFuel).
Proof.
  intros H.
  destruct (descend_snoc _ _ _ _ page) as (obj & Hobj & Hpi).
  unfold visit_cursor in H.
  rewrite (bind_ok _ _ _ obj w) in H; [| unfold lift; rewrite Hobj; reflexivity].
  rewrite (bind_ok _ _ _ (pinfo, discard "pageInfo" obj) w) in H;
    [| unfold lift; rewrite (pop_of_subscript _ _ _ Hpi); reflexivity].
  rewrite (bind_ok _ _ _ h w) in H; [| unfold lift; rewrite has_next; reflexivity].
  rewrite is_more in H. cbn [negb] in H.
  unfold bind at 1 in H.
  match type of H with match ?m w with _ => _ end = _ =>
    destruct (m w) as [merged w'] eqn:E end.
  rewrite (bind_ok _ _ _ endCursor w) in E; [| unfold lift; rewrite end_cursor; reflexivity].
  unfold bind at 1 in E.
  destruct (call self [(name, promote c)] prev_path (set_key name endCursor kwargs) w)
    as [[next | ex |] wc] eqn:Hc.
  - assert (Hw : w' = wc).
    { revert E. apply silent_bind; [apply silent_lift | intros ?].
      apply silent_bind; [apply silent_lift | intros ?].
      apply silent_bind; [apply silent_lift | intros ?].
      apply silent_bind; [apply silent_lift | intros ?].
      apply silent_bind; [apply silent_lift | intros ?].
      apply silent_ret. }
    subst w'.
    assert (Hw2 : w2 = wc).
    { destruct merged as [[[d2 k2] o2] | e |]; [| inversion H; reflexivity
                                                | inversion H; reflexivity].
      destruct (cursor_next c); unfold ret in H; inversion H; reflexivity. }
    subst w2. exists (Ok next). split; [reflexivity |].
    split; intros; discriminate.
  - inversion E; subst. inversion H; subst. exists (Raise ex).
    split; [reflexivity |]. split; [intros ex' Hex; inversion Hex; reflexivity | discriminate].
  - inversion E; subst. inversion H; subst. exists OutOfFuel.
    split; [reflexivity |]. split; [discriminate | reflexivity].
Qed.

End FollowUp.

Lemma bind_log {A B} (m : M A) (f : A -> M B) w res w2 :
  (forall a, appends (f a)) ->
  bind m f w = (res, w2) ->
  exists r0 w0 evs,
    m w = (r0, w0) /\ log w2 = log w0 ++ evs /\
    (forall ex, r0 = Raise ex -> res = Raise ex /\ w2 = w0).
Proof.
  intros Hf H. unfold bind in H.
  destruct (m w) as [[a | e |] w0] eqn:E.
  - destruct (Hf a _ _ _ H) as [evs Hl]. exists (Ok a), w0, evs.
    split; [reflexivity |]. split; [exact Hl | intros; discriminate].
  - inversion H; subst. exists (Raise e), w2, []. rewrite app_nil_r.
    split; [reflexivity |]. split; [reflexivity |].
    intros ex Hex. inversion Hex. split; reflexivity.
  - inversion H; subst. exists OutOfFuel, w2, []. rewrite app_nil_r.
    split; [reflexivity |]. split; [reflexivity | intros; discriminate].
Qed.

(** The first thing a call with a token does is post its request. *)
Lemma graphql_first_post env fuel query t accept max_retries cursors prev_path kwargs
    w res w2 :
  t <> "" ->
  graphql env (S fuel) query (Some t) accept max_retries cursors prev_path kwargs w
    = (res, w2) ->
  exists evs, log w2 = log w ++ Post (request_of env query t accept kwargs) :: evs.
Proof.
  intros Ht H. rewrite graphql_unfold in H.
  apply bind_log in H.
  - destruct H as (r0 & w0 & evs & Htr & Hl & _).
    destruct (transport_world _ _ _ _ _ _ _ _ _ Htr) as [rx Hx].
    destruct (exchange_log _ _ _ _ _ _ _ _ _ Ht Hx) as (evs0 & Hl0 & _).
    exists (evs0 ++ evs). rewrite Hl, Hl0. rewrite <- app_assoc. reflexivity.
  - intros data. apply appends_depaginate. intros cs pp kw. apply appends_graphql.
Qed.

(** The loop over the cursors, from the first visit on. *)
Lemma first_visit env fuel query token accept max_retries name c rest prev_path kwargs
    w d0 w1 res w2 :
  transport env query token accept max_retries kwargs w = (Ok d0, w1) ->
  graphql env (S fuel) query token accept max_retries (Some ((name, c) :: rest))
    prev_path kwargs w = (res, w2) ->
  exists r0 w0 evs,
    visit_cursor
      (fun cs pp kw => graphql env fuel query token accept max_retries (Some cs) pp kw)
      prev_path (name, c) (d0, kwargs) w1 = (r0, w0) /\
    log w2 = log w0 ++ evs /\
    (forall ex, r0 = Raise ex -> res = Raise ex /\ w2 = w0).
Proof.
  intros Ht H. rewrite graphql_unfold in H. rewrite (bind_ok _ _ _ _ _ Ht) in H.
  unfold depaginate in H. cbn [for_each] in H.
  apply bind_log in H; [| intros st; apply appends_ret].
  destruct H as (r1 & w3 & evs1 & H & Hl1 & Hraise1).
  apply bind_log in H.
  - destruct H as (r0 & w0 & evs0 & Hv & Hl0 & Hraise0).
    exists r0, w0, (evs0 ++ evs1). split; [exact Hv |].
    split; [rewrite Hl1, Hl0, app_assoc; reflexivity |].
    intros ex Hex. destruct (Hraise0 ex Hex) as [-> ->].
    apply (Hraise1 ex eq_refl).
  - intros st. apply appends_for_each. intros entry s0. apply appends_visit_cursor.
    intros cs pp kw. apply appends_graphql.
Qed.

(** X6: when the connection of the first cursor announces a further page,
    the next request of the call is the follow-up request: the request of
    the call with the variable named after the cursor bound to the
    [endCursor] of the page just read. *)
Theorem follow_up_binds_the_end_cursor :
  forall env fuel query t accept max_retries name c rest prev_path kwargs
         w d0 w1 pinfo h endCursor res w2,
    t <> "" ->
    transport env query (Some t) accept max_retries kwargs w = (Ok d0, w1) ->
    descend (((if given prev_path then path_or_empty prev_path else [])
                ++ keys_of (cursor_path c)) ++ [KStr "pageInfo"]) d0 = Ok pinfo ->
    subscript pinfo (KStr "hasNextPage") = Ok h ->
    truthy h = true ->
    subscript pinfo (KStr "endCursor") = Ok endCursor ->
    clashes (set_key name endCursor kwargs) = false ->
    graphql env (S (S fuel)) query (Some t) accept max_retries
      (Some ((name, c) :: rest)) prev_path kwargs w = (res, w2) ->
    exists evs,
      log w2 = log w1
                 ++ Post (mkRequest (url env) (strip query)
                            (set_key name endCursor kwargs)
                            ("token " ++ t)%string accept)
                 :: evs.
Proof.
  intros env fuel query t accept max_retries name c rest prev_path kwargs
    w d0 w1 pinfo h endCursor res w2 Ht Htr Hpage Hh Hmore He Hclash H.
  destruct (first_visit _ _ _ _ _ _ _ _ _ _ _ _ _ _ _ _ Htr H)
    as (r0 & w0 & evs & Hv & Hl & _).
  destruct (visit_cursor_follow_up _ _ _ _ _ _ _ _ _ Hpage Hh Hmore He _ _ _ Hv)
    as (outcome & Hcall & _).
  unfold call in Hcall. rewrite Hclash in Hcall.
  destruct (graphql_first_post _ _ _ _ _ _ _ _ _ _ _ _ Ht Hcall) as (evs' & Hl').
  exists (evs' ++ evs). rewrite Hl, Hl'. rewrite <- app_assoc. reflexivity.
Qed.

Lemma follow_up_binds_the_end_cursor_witness :
  exists evs,
    log (snd (issues_call two_issue_pages issues_cursor))
      = log (snd (transport None "query { repository { issues } }" (Some "t") "" 8
                    owner_vars (mkWorld two_issue_pages [])))
          ++ Post (mkRequest "https://api.github.com/graphql"
                     "query { repository { issues } }"
                     (set_key "cursor1" (JStr "I1") owner_vars) "token t" "")
          :: evs.
Proof.
  apply (follow_up_binds_the_end_cursor None 1 "query { repository { issues } }" "t" ""
           8 "cursor1" (CPath ["repository"; "issues"]) [] None owner_vars
           (mkWorld two_issue_pages []) issues_page1
           (snd (transport None "query { repository { issues } }" (Some "t") "" 8
                   owner_vars (mkWorld two_issue_pages [])))
           first_issues_page_info (JBool true) (JStr "I1")
           (fst (issues_call two_issue_pages issues_cursor))
           (snd (issues_call two_issue_pages issues_cursor)));
    try reflexivity.
  discriminate.
Defined.

Lemma In_set_key name v kw : In (name, v) (set_key name v kw).
Proof.
  induction kw as [| [k v'] kw IH]; simpl; [left; reflexivity |].
  destruct (String.eqb name k) eqn:E.
  - apply String.eqb_eq in E. subst k. left. reflexivity.
  - right. exact IH.
Qed.

Lemma clashes_set_key name v kw :
  In name parameter_names -> clashes (set_key name v kw) = true.
Proof.
  intros Hin. unfold clashes. apply existsb_exists.
  exists (name, v). split; [apply In_set_key |].
  apply existsb_exists. exists name. split; [exact Hin | apply String.eqb_refl].
Qed.

(** X7: a cursor named like a parameter of [graphql] ([query], [token],
    [accept], [max_retries], [cursors], [prev_path]) cannot be followed:
    as soon as its connection announces a further page the call raises the
    builtin [TypeError], without a second request. *)
Theorem cursor_named_like_a_parameter_raises :
  forall env fuel query token accept max_retries name c rest prev_path kwargs
         w d0 w1 pinfo h endCursor,
    transport env query token accept max_retries kwargs w = (Ok d0, w1) ->
    descend (((if given prev_path then path_or_empty prev_path else [])
                ++ keys_of (cursor_path c)) ++ [KStr "pageInfo"]) d0 = Ok pinfo ->
    subscript pinfo (KStr "hasNextPage") = Ok h ->
    truthy h = true ->
    subscript pinfo (KStr "endCursor") = Ok endCursor ->
    In name parameter_names ->
    graphql env (S fuel) query token accept max_retries
      (Some ((name, c) :: rest)) prev_path kwargs w
    = (Raise (Builtin TypeError), w1).
Proof.
  intros env fuel query token accept max_retries name c rest prev_path kwargs
    w d0 w1 pinfo h endCursor Htr Hpage Hh Hmore He Hname.
  destruct (graphql env (S fuel) query token accept max_retries
              (Some ((name, c) :: rest)) prev_path kwargs w) as [res w2] eqn:H.
  destruct (first_visit _ _ _ _ _ _ _ _ _ _ _ _ _ _ _ _ Htr H)
    as (r0 & w0 & evs & Hv & Hl & Hraise).
  destruct (visit_cursor_follow_up _ _ _ _ _ _ _ _ _ Hpage Hh Hmore He _ _ _ Hv)
    as (outcome & Hcall & Hex & _).
  unfold call in Hcall. rewrite (clashes_set_key _ _ _ Hname) in Hcall.
  unfold raise in Hcall. inversion Hcall; subst outcome w0.
  destruct (Hraise _ (Hex _ eq_refl)) as [-> ->]. reflexivity.
Qed.

Lemma cursor_named_like_a_parameter_raises_witness :
  graphql None 1 "query { repository { issues } }" (Some "t") "" 8
    (Some token_cursor) None owner_vars (mkWorld two_issue_pages [])
  = (Raise (Builtin TypeError),
     snd (transport None "query { repository { issues } }" (Some "t") "" 8
            owner_vars (mkWorld two_issue_pages []))).
Proof.
  apply (cursor_named_like_a_parameter_raises None 0 "query { repository { issues } }"
           (Some "t") "" 8 "token" (CPath ["repository"; "issues"]) [] None owner_vars
           (mkWorld two_issue_pages []) issues_page1 _
           first_issues_page_info (JBool true) (JStr "I1"));
    try reflexivity.
  simpl. tauto.
Defined.

(** X11: a follow-up request that is answered with a status that is neither
    200 nor retryable ends the whole call: [HTTPError] carries that reply,
    the page already read is not returned, and the log shows the two
    requests and nothing else. *)
Theorem follow_up_failure_ends_the_call :
  forall env fuel query t accept max_retries name c rest prev_path kwargs
         rep0 rep1 script lg d0 pinfo h endCursor,
    t <> "" ->
    classify rep0 = Ok d0 ->
    descend (((if given prev_path then path_or_empty prev_path else [])
                ++ keys_of (cursor_path c)) ++ [KStr "pageInfo"]) d0 = Ok pinfo ->
    subscript pinfo (KStr "hasNextPage") = Ok h ->
    truthy h = true ->
    subscript pinfo (KStr "endCursor") = Ok endCursor ->
    clashes (set_key name endCursor kwargs) = false ->
    status_code rep1 <> 200 ->
    ~ In (status_code rep1) retry_codes ->
    graphql env (S (S fuel)) query (Some t) accept max_retries
      (Some ((name, c) :: rest)) prev_path kwargs (mkWorld (rep0 :: rep1 :: script) lg)
    = (Raise (HTTPError rep1),
       mkWorld script
         (lg ++ [Post (mkRequest (url env) (strip query) kwargs
                         ("token " ++ t)%string accept);
                 Recv rep0;
                 Post (mkRequest (url env) (strip query)
                         (set_key name endCursor kwargs)
                         ("token " ++ t)%string accept);
                 Recv rep1])).
Proof.
  intros env fuel query t accept max_retries name c rest prev_path kwargs
    rep0 rep1 script lg d0 pinfo h endCursor
    Ht Hc Hpage Hh Hmore He Hclash H200 Hcodes.
  pose proof (exchange_first_200 env query t accept max_retries kwargs rep0
                (rep1 :: script) lg Ht (classify_ok_status _ _ Hc)) as Hx.
  pose proof (transport_exchange _ _ _ _ _ _ _ _ _ Hx) as Htr. rewrite Hc in Htr.
  destruct (graphql env (S (S fuel)) query (Some t) accept max_retries
              (Some ((name, c) :: rest)) prev_path kwargs
              (mkWorld (rep0 :: rep1 :: script) lg)) as [res w2] eqn:H.
  destruct (first_visit _ _ _ _ _ _ _ _ _ _ _ _ _ _ _ _ Htr H)
    as (r0 & w0 & evs & Hv & Hl & Hraise).
  destruct (visit_cursor_follow_up _ _ _ _ _ _ _ _ _ Hpage Hh Hmore He _ _ _ Hv)
    as (outcome & Hcall & Hex & _).
  unfold call in Hcall. rewrite Hclash in Hcall.
  rewrite graphql_unfold in Hcall.
  rewrite (bind_raise _ _ _ (HTTPError rep1)
             (mkWorld script
                ((lg ++ [Post (mkRequest (url env) (strip query) kwargs
                                 ("token " ++ t)%string accept); Recv rep0])
                   ++ [Post (mkRequest (url env) (strip query)
                               (set_key name endCursor kwargs)
                               ("token " ++ t)%string accept); Recv rep1]))) in Hcall.
  - inversion Hcall; subst outcome w0.
    destruct (Hraise _ (Hex _ eq_refl)) as [-> ->].
    rewrite <- app_assoc. reflexivity.
  - rewrite (transport_exchange _ _ _ _ _ _ _ _ _
               (exchange_other_status env query t accept max_retries
                  (set_key name endCursor kwargs) rep1 script _
                  Ht (not_in_retry_codes _ Hcodes))).
    rewrite (classify_not_200 _ H200). reflexivity.
Qed.

Lemma follow_up_failure_ends_the_call_witness :
  graphql None 2 "query { repository { issues } }" (Some "t") "" 8
    (Some issues_cursor) None owner_vars
    (mkWorld (ok_reply issues_page1 :: not_found :: [ok_reply issues_page2]) [])
  = (Raise (HTTPError not_found),
     mkWorld [ok_reply issues_page2]
       ([] ++ [Post (mkRequest "https://api.github.com/graphql"
                       "query { repository { issues } }" owner_vars "token t" "");
               Recv (ok_reply issues_page1);
               Post (mkRequest "https://api.github.com/graphql"
                       "query { repository { issues } }"
                       (set_key "cursor1" (JStr "I1") owner_vars) "token t" "");
               Recv not_found])).
Proof.
  apply (follow_up_failure_ends_the_call None 0 "query { repository { issues } }" "t" ""
           8 "cursor1" (CPath ["repository"; "issues"]) [] None owner_vars
           (ok_reply issues_page1) not_found [ok_reply issues_page2] []
           issues_page1 first_issues_page_info (JBool true) (JStr "I1"));
    try reflexivity; try discriminate.
  simpl. intros H. repeat (destruct H as [H | H]; [discriminate |]). exact H.
Defined.

(** ** The [pageInfo] of the top-level connections (line 145) *)

Lemma has_index_app p q : has_index (p ++ q) = has_index p || has_index q.
Proof. unfold has_index. apply existsb_app. Qed.

Lemma discard_name_shrinking s : name_shrinking (discard s).
Proof. intros o s' v H. apply (discard_shrinking s o (KStr s') v H). Qed.

Lemma append_name_shrinking its : name_shrinking (append its).
Proof.
  intros o s v H. destruct o as [| b | n | s0 | l | m]; try exact H.
Qed.

(** A mutation below an index, or one that adds no name, makes nothing
    reachable by names that was not reachable before. *)
Lemma descend_names_update f : forall p qs d v,
  has_index p = true \/ name_shrinking f ->
  descend (keys_of qs) (update_at p f d) = Ok v ->
  exists v', descend (keys_of qs) d = Ok v'.
Proof.
  induction p as [| k0 p IH]; intros qs d v Hq Hd.
  - destruct Hq as [Hq | Hf]; [discriminate |].
    destruct qs as [| s qs]; [exists d; reflexivity |].
    cbn [keys_of map descend update_at] in *.
    destruct (subscript (f d) (KStr s)) as [x | e |] eqn:E; try discriminate.
    rewrite (Hf _ _ _ E). exists v. exact Hd.
  - destruct qs as [| s qs]; [exists d; reflexivity |].
    destruct (update_at_cons_cases k0 p f d) as [Hid | Hsub];
      [rewrite Hid in Hd; exists v; exact Hd |].
    cbn [keys_of map descend] in *. rewrite Hsub in Hd.
    destruct (key_eqb (KStr s) k0) eqn:E.
    + apply key_eqb_eq in E. subst k0.
      destruct (subscript d (KStr s)) as [x | e |]; cbn [rbind] in *; try discriminate.
      apply (IH qs x v); [| exact Hd].
      destruct Hq as [Hq | Hf]; [left; exact Hq | right; exact Hf].
    + exists v. exact Hd.
Qed.

Lemma weld_names children current_path_nodes next qs : forall data data' v,
  has_index current_path_nodes = true ->
  weld children current_path_nodes next data = Ok data' ->
  descend (keys_of qs) data' = Ok v ->
  exists v', descend (keys_of qs) data = Ok v'.
Proof.
  induction children as [| [name c] rest IH]; intros data data' v Hi H Hd; simpl in H.
  - inversion H; subst. exists v. exact Hd.
  - apply rbind_inv_ok in H. destruct H as ([obj_nested next_nested] & _ & H).
    apply rbind_inv_ok in H. destruct H as (nodes & _ & H).
    apply rbind_inv_ok in H. destruct H as (obj' & _ & H).
    destruct (IH _ _ _ Hi H Hd) as [v1 Hd1].
    apply (descend_names_update _ _ _ _ _ (or_introl
             (eq_trans (has_index_app _ _) (f_equal (fun b => b || _) Hi))) Hd1).
Qed.

Lemma for_each_elements_names self kwargs children current_path prev_path qs l :
  forall data w data' w1 v,
    for_each (visit_element self kwargs children current_path prev_path) l data w
      = (Ok data', w1) ->
    descend (keys_of qs) data' = Ok v ->
    exists v', descend (keys_of qs) data = Ok v'.
Proof.
  induction l as [| i l IH]; intros data w data' w1 v H Hd; cbn [for_each] in H.
  - unfold ret in H. inversion H; subst. exists v. exact Hd.
  - apply bind_inv_ok in H. destruct H as (data1 & w2 & Hv & H).
    destruct (IH _ _ _ _ _ H Hd) as [v1 Hd1].
    unfold visit_element in Hv.
    apply bind_inv_ok in Hv. destruct Hv as (node_data & w3 & _ & Hv).
    apply bind_inv_ok in Hv. destruct Hv as (required & w4 & _ & Hv).
    destruct (negb required).
    + unfold ret in Hv. inversion Hv; subst. exists v1. exact Hd1.
    + apply bind_inv_ok in Hv. destruct Hv as (next & w5 & _ & Hv).
      apply lift_inv_ok in Hv. destruct Hv as [Hv _].
      refine (weld_names _ _ _ _ _ _ _ _ Hv Hd1).
      rewrite has_index_app. apply orb_true_r.
Qed.

(** What a visit leaves reachable by names was reachable by names before,
    and the [pageInfo] of the visited connection is not among it. *)
Lemma visit_cursor_names self name c data kwargs w data' kwargs' w1 :
  visit_cursor self None (name, c) (data, kwargs) w = (Ok (data', kwargs'), w1) ->
  (forall qs v, descend (keys_of qs) data' = Ok v ->
                exists v', descend (keys_of qs) data = Ok v') /\
  (forall v, descend (keys_of (cursor_path c) ++ [KStr "pageInfo"]) data' <> Ok v).
Proof.
  intros Hv.
  destruct (visit_cursor_inv _ _ _ _ _ _ _ _ _ _ Hv)
    as (obj & pinfo & h & Hobj & Hpi & Hh & Hcase).
  cbn [given app] in Hobj, Hcase.
  assert (Hpop : forall qs v,
             descend (keys_of qs)
               (update_at (keys_of (cursor_path c)) (discard "pageInfo") data) = Ok v ->
             exists v', descend (keys_of qs) data = Ok v').
  { intros qs v. apply descend_names_update. right. apply discard_name_shrinking. }
  assert (Hstep : forall qs v, descend (keys_of qs) data' = Ok v ->
            exists v', descend (keys_of qs)
                         (update_at (keys_of (cursor_path c)) (discard "pageInfo") data)
                       = Ok v').
  { intros qs v Hd. destruct (truthy h).
    - destruct Hcase as (endCursor & next & l1 & next_nodes & its & _ & _ & _ & _ & ->).
      apply (descend_names_update _ _ _ _ _ (or_intror (append_name_shrinking its)) Hd).
    - destruct (cursor_next c) as [children |].
      + destruct Hcase as (nodes & n & _ & _ & Hloop).
        apply (for_each_elements_names _ _ _ _ _ _ _ _ _ _ _ _ Hloop Hd).
      + destruct Hcase as [-> _]. exists v. exact Hd. }
  split.
  - intros qs v Hd. destruct (Hstep qs v Hd) as [v1 Hd1]. apply (Hpop qs v1 Hd1).
  - intros v Hd.
    change [KStr "pageInfo"] with (keys_of ["pageInfo"]) in Hd.
    rewrite <- keys_of_app in Hd.
    destruct (Hstep _ _ Hd) as [v1 Hd1].
    rewrite keys_of_app in Hd1. apply (descend_discarded _ _ _ _ Hd1).
Qed.

Lemma for_each_cursors_names self cs : forall data kwargs w st w1,
  for_each (visit_cursor self None) cs (data, kwargs) w = (Ok st, w1) ->
  (forall qs v, descend (keys_of qs) (fst st) = Ok v ->
                exists v', descend (keys_of qs) data = Ok v') /\
  (forall name c, In (name, c) cs ->
     forall v, descend (keys_of (cursor_path c) ++ [KStr "pageInfo"]) (fst st) <> Ok v).
Proof.
  induction cs as [| [name c] rest IH]; intros data kwargs w st w1 H; cbn [for_each] in H.
  - unfold ret in H. inversion H; subst. cbn [fst]. split.
    + intros qs v Hd. exists v. exact Hd.
    + intros ? ? [].
  - apply bind_inv_ok in H. destruct H as ([data1 kwargs1] & w2 & Hv & H).
    destruct (visit_cursor_names _ _ _ _ _ _ _ _ _ Hv) as [Hnames Hgone].
    destruct (IH _ _ _ _ _ H) as [Hnames' Hgone'].
    split.
    + intros qs v Hd. destruct (Hnames' qs v Hd) as [v1 Hd1]. apply (Hnames qs v1 Hd1).
    + intros name' c' [Heq | Hin]; [| apply (Hgone' _ _ Hin)].
      inversion Heq; subst. intros v Hd.
      change [KStr "pageInfo"] with (keys_of ["pageInfo"]) in Hd.
      rewrite <- keys_of_app in Hd.
      destruct (Hnames' _ _ Hd) as [v1 Hd1].
      rewrite keys_of_app in Hd1. apply (Hgone _ Hd1).
Qed.

(** X9: whatever the cursor tree, however many pages and nested calls there
    were: when a top-level call returns a tree, the connection of every
    top-level cursor is without [pageInfo] in it. *)
Theorem top_level_pageInfo_is_gone :
  forall env fuel query token accept max_retries cs kwargs w final w1,
    graphql env fuel query token accept max_retries (Some cs) None kwargs w
      = (Ok final, w1) ->
    forall name c, In (name, c) cs ->
      forall v, descend (keys_of (cursor_path c) ++ [KStr "pageInfo"]) final <> Ok v.
Proof.
  intros env fuel query token accept max_retries cs kwargs w final w1 H.
  destruct fuel as [| fuel]; [discriminate |].
  rewrite graphql_unfold in H.
  apply bind_inv_ok in H. destruct H as (d0 & w0 & _ & H).
  unfold depaginate in H.
  apply bind_inv_ok in H. destruct H as (st & w2 & Hloop & H).
  unfold ret in H. inversion H; subst.
  apply (proj2 (for_each_cursors_names _ _ _ _ _ _ _ Hloop)).
Qed.

Lemma top_level_pageInfo_is_gone_witness :
  In ("cursor2", pulls_cursor) pulls_cursors /\
  forall v,
    descend (keys_of (cursor_path pulls_cursor) ++ [KStr "pageInfo"]) two_pages_final
    <> Ok v.
Proof.
  split; [left; reflexivity |].
  apply (top_level_pageInfo_is_gone None 5 "query { repository { pullRequests } }"
           (Some "t") "" 8 pulls_cursors [] (mkWorld two_pages_script [])
           two_pages_final (snd (run two_pages_script pulls_cursors)) eq_refl
           "cursor2" pulls_cursor).
  left. reflexivity.
Defined.

(** ** The pages of a flat cursor (lines 132-152) *)

Lemma descend_str p : forall s v, descend p (JStr s) = Ok v -> exists s', v = JStr s'.
Proof.
  induction p as [| k p IH]; intros s v H.
  - inversion H. exists s. reflexivity.
  - cbn [descend] in H. destruct k as [n | i]; unfold subscript in H; [discriminate |].
    destruct (nth_error (chars s) i) as [x |] eqn:E; cbn [rbind] in H; [| discriminate].
    destruct (nth_error_chars _ _ _ E) as [s1 ->]. apply (IH _ _ H).
Qed.

(** A mutation of the object at a path is seen at that path, unless the
    path went through the characters of a string. *)
Lemma descend_update_target f p : forall d obj,
  descend p d = Ok obj ->
  (forall s, obj <> JStr s) ->
  descend p (update_at p f d) = Ok (f obj).
Proof.
  induction p as [| k p IH]; intros d obj Hd Hs.
  - inversion Hd. reflexivity.
  - cbn [descend] in Hd.
    destruct (subscript d k) as [x | e |] eqn:E; cbn [rbind] in Hd; try discriminate.
    destruct k as [s | i]; destruct d as [| b | n | s0 | l | m];
      unfold subscript in E; try discriminate.
    + cbn [update_at descend]. unfold subscript. rewrite lookup_alter_key_same.
      destruct (lookup s m) as [y |]; [| discriminate]. inversion E; subst y.
      cbn [option_map rbind]. apply (IH _ _ Hd Hs).
    + destruct (nth_error (chars s0) i) as [y |] eqn:E2; [| discriminate].
      inversion E; subst y.
      destruct (nth_error_chars _ _ _ E2) as [s1 ->].
      destruct (descend_str _ _ _ Hd) as [s2 ->]. exfalso. apply (Hs s2). reflexivity.
    + cbn [update_at descend]. unfold subscript. rewrite nth_error_alter_nth_same.
      destruct (nth_error l i) as [y |]; [| discriminate]. inversion E; subst y.
      cbn [option_map rbind]. apply (IH _ _ Hd Hs).
Qed.

Lemma nodes_after_pop_at P d :
  descend (P ++ [KStr "nodes"]) (update_at P (discard "pageInfo") d)
    = descend (P ++ [KStr "nodes"]) d.
Proof.
  apply (descend_update_apart _ _ (discard_key_local "pageInfo")).
  split; rewrite prefixb_app_same; reflexivity.
Qed.

Lemma nodes_after_extend_at P its d l :
  descend (P ++ [KStr "nodes"]) d = Ok (JList l) ->
  descend (P ++ [KStr "nodes"])
    (update_at (P ++ [KStr "nodes"]) (append its) d) = Ok (JList (l ++ its)).
Proof.
  intros Hd. rewrite (descend_update_target (append its) _ _ _ Hd); [reflexivity |].
  intros s; discriminate.
Qed.

(** A call with one cursor without nested cursors, at any [prev_path]: the
    documents it is served are the pages of the connection and nothing
    else, and the [nodes] of the result are the [nodes] of those pages. *)
Lemma flat_call_pages env query token accept max_retries fuel :
  forall name c prev_path kwargs w final w2,
    cursor_next c = None ->
    graphql env fuel query token accept max_retries (Some [(name, c)]) prev_path kwargs w
      = (Ok final, w2) ->
    exists evs pages last_page,
      log w2 = log w ++ evs /\
      served evs = pages ++ [last_page] /\
      Forall (fun d => more (path_of_cursor prev_path c) d = true) pages /\
      more (path_of_cursor prev_path c) last_page = false /\
      forall v its,
        descend (path_of_cursor prev_path c ++ [KStr "nodes"]) final = Ok v ->
        py_iter v = Ok its ->
        its = List.concat (map (items (path_of_cursor prev_path c)) (pages ++ [last_page])).
Proof.
  induction fuel as [| fuel IH]; intros name c prev_path kwargs w final w2 Hflat H;
    [discriminate |].
  rewrite graphql_unfold in H.
  apply bind_inv_ok in H. destruct H as (d1 & w1 & Ht & H).
  destruct (transport_served _ _ _ _ _ _ _ _ _ Ht) as (evs_t & Hlt & Hst).
  unfold depaginate in H.
  apply bind_inv_ok in H. destruct H as ([data' kwargs'] & w3 & Hloop & H).
  unfold ret in H. inversion H; subst final w3. clear H. cbn [fst].
  cbn [for_each] in Hloop.
  apply bind_inv_ok in Hloop. destruct Hloop as ([data1 kwargs1] & w4 & Hv & Hloop).
  unfold ret in Hloop. inversion Hloop; subst data1 kwargs1 w4. clear Hloop.
  destruct (visit_cursor_inv _ _ _ _ _ _ _ _ _ _ Hv)
    as (obj & pinfo & h & Hobj & Hpi & Hh & Hcase).
  fold (path_of_cursor prev_path c) in Hobj, Hcase.
  set (P := path_of_cursor prev_path c) in *.
  pose proof (more_at _ _ _ _ _ Hobj Hpi Hh) as Hmore.
  pose proof (nodes_at _ _ _ Hobj) as Hnodes.
  destruct (truthy h) eqn:Htruthy.
  - destruct Hcase as (endCursor & next & l1 & next_nodes & its_r & Hcall & Hl1 & Hnn & Hits & ->).
    apply call_inv in Hcall.
    assert (Hflat' : cursor_next (promote c) = None)
      by (rewrite cursor_next_promote; exact Hflat).
    destruct (IH _ _ _ _ _ _ _ Hflat' Hcall)
      as (evs_r & pages & last_page & Hlr & Hsr & Hpages & Hlast & Hnext).
    assert (HP : path_of_cursor prev_path (promote c) = P)
      by (unfold P, path_of_cursor; rewrite cursor_path_promote; reflexivity).
    rewrite HP in Hpages, Hlast, Hnext.
    exists (evs_t ++ evs_r), (d1 :: pages), last_page.
    split; [rewrite Hlr, Hlt, app_assoc; reflexivity |].
    split; [rewrite served_app, Hst, Hsr; reflexivity |].
    split; [constructor; [exact Hmore | exact Hpages] |].
    split; [exact Hlast |].
    intros v its Hd Hi.
    assert (Hfirst : descend (P ++ [KStr "nodes"])
                       (update_at P (discard "pageInfo") d1) = Ok (JList l1)).
    { rewrite nodes_after_pop_at, Hnodes. exact Hl1. }
    rewrite (nodes_after_extend_at _ _ _ _ Hfirst) in Hd.
    inversion Hd; subst v. cbn [py_iter] in Hi. inversion Hi; subst its.
    cbn [app map List.concat].
    rewrite (items_at P d1 (JList l1) l1); [| rewrite Hnodes; exact Hl1 | reflexivity].
    f_equal. apply (Hnext _ _ Hnn Hits).
  - rewrite Hflat in Hcase. destruct Hcase as [-> ->].
    exists evs_t, [], d1.
    split; [exact Hlt |].
    split; [exact Hst |].
    split; [constructor |].
    split; [exact Hmore |].
    intros v its Hd Hi. cbn [app map List.concat]. rewrite app_nil_r.
    rewrite nodes_after_pop_at in Hd. symmetry. apply (items_at P d1 v its Hd Hi).
Qed.

(** X12: a call with one cursor that has no nested cursors is served the
    pages of its connection and nothing else: every document but the last
    announces a further page, the last one does not, and the [nodes] of the
    connection in the result are the [nodes] of the served documents, one
    after the other. *)
Theorem flat_cursor_is_served_its_pages :
  forall env fuel query token accept max_retries name c kwargs w final w2,
    cursor_next c = None ->
    graphql env fuel query token accept max_retries (Some [(name, c)]) None kwargs w
      = (Ok final, w2) ->
    exists evs pages last_page,
      log w2 = log w ++ evs /\
      served evs = pages ++ [last_page] /\
      Forall (fun d => more (keys_of (cursor_path c)) d = true) pages /\
      more (keys_of (cursor_path c)) last_page = false /\
      forall v its,
        descend (keys_of (cursor_path c) ++ [KStr "nodes"]) final = Ok v ->
        py_iter v = Ok its ->
        its = List.concat (map (items (keys_of (cursor_path c))) (pages ++ [last_page])).
Proof.
  intros env fuel query token accept max_retries name c kwargs w final w2 Hflat H.
  apply (flat_call_pages env query token accept max_retries fuel name c None
           kwargs w final w2 Hflat H).
Qed.

Lemma flat_cursor_is_served_its_pages_witness :
  exists evs pages last_page,
    log (snd (issues_call two_issue_pages issues_cursor)) = [] ++ evs /\
    served evs = pages ++ [last_page] /\
    Forall (fun d => more issues_path d = true) pages /\
    more issues_path last_page = false /\
    forall v its,
      descend (issues_path ++ [KStr "nodes"])
        (repository (JObj [("nodes", JList [issue 1; issue 2; issue 3])])
           (connection false "P" [pull_request false "T" [item 1]]))
        = Ok v ->
      py_iter v = Ok its ->
      its = List.concat (map (items issues_path) (pages ++ [last_page])).
Proof.
  apply (flat_cursor_is_served_its_pages None 3 "query { repository { issues } }"
           (Some "t") "" 8 "cursor1" (CPath ["repository"; "issues"]) owner_vars
           (mkWorld two_issue_pages []) _
           (snd (issues_call two_issue_pages issues_cursor)) eq_refl).
  reflexivity.
Defined.

(** ** The nested connection of an element (lines 157-202) *)


Lemma descend2_inv p : forall a b a' b',
  descend2 p a b = Ok (a', b') -> descend p a = Ok a' /\ descend p b = Ok b'.
Proof.
  induction p as [| k p IH]; intros a b a' b' H; cbn [descend2 descend] in *.
  - inversion H. split; reflexivity.
  - apply rbind_inv_ok in H. destruct H as (a1 & Ha & H).
    apply rbind_inv_ok in H. destruct H as (b1 & Hb & H).
    rewrite Ha, Hb. cbn [rbind]. apply (IH _ _ _ _ H).
Qed.

(** One element with one nested cursor that has no cursors of its own. *)
Lemma visit_element_single_inv self kwargs cname cc P i data w data' w1 :
  cursor_next cc = None ->
  visit_element self kwargs [(cname, cc)] P None i data w = (Ok data', w1) ->
  exists h,
    descend (nested_path P i cc ++ [KStr "pageInfo"; KStr "hasNextPage"]) data = Ok h /\
    if truthy h then
      exists next nodes m,
        call self [(cname, promote cc)] (Some (element_path P i)) kwargs w
          = (Ok next, w1) /\
        descend (nested_path P i cc ++ [KStr "nodes"]) next = Ok nodes /\
        descend (nested_path P i cc) data = Ok (JObj m) /\
        data' = update_at (nested_path P i cc) (assign "nodes" nodes) data
    else data' = data /\ w1 = w.
Proof.
  intros Hflat H. unfold visit_element in H. cbn [given] in H.
  fold (element_path P i) in H.
  apply bind_inv_ok in H. destruct H as (node_data & w2 & Hnd & H).
  apply lift_inv_ok in Hnd. destruct Hnd as [Hnd ->].
  apply bind_inv_ok in H. destruct H as (required & w2 & Hreq & H).
  apply lift_inv_ok in Hreq. destruct Hreq as [Hreq ->].
  cbn [call_required] in Hreq.
  apply rbind_inv_ok in Hreq. destruct Hreq as (page_to_check & Hpc & Hreq).
  apply rbind_inv_ok in Hreq. destruct Hreq as (page_info & Hpi & Hreq).
  apply rbind_inv_ok in Hreq. destruct Hreq as (h & Hh & Hreq).
  rewrite Hflat in Hreq. cbn [is_some] in Hreq. rewrite orb_false_r in Hreq.
  exists h. split.
  { unfold nested_path. rewrite !descend_app, Hnd. cbn [rbind]. rewrite Hpc.
    cbn [rbind descend]. rewrite Hpi. cbn [rbind]. rewrite Hh. reflexivity. }
  destruct (truthy h); inversion Hreq; subst required; cbn [negb] in H.
  - apply bind_inv_ok in H. destruct H as (next & w2 & Hcall & H).
    apply lift_inv_ok in H. destruct H as [Hweld ->].
    cbn [weld] in Hweld. fold (nested_path P i cc) in Hweld.
    apply rbind_inv_ok in Hweld. destruct Hweld as ([obj_nested next_nested] & Hd2 & Hweld).
    apply rbind_inv_ok in Hweld. destruct Hweld as (nodes & Hnodes & Hweld).
    apply rbind_inv_ok in Hweld. destruct Hweld as (obj' & Hset & Hweld).
    destruct (descend2_inv _ _ _ _ _ Hd2) as [Hdata Hnext].
    destruct obj_nested as [| b | n | s0 | l | m]; try discriminate.
    exists next, nodes, m.
    split; [exact Hcall |].
    split; [rewrite descend_app, Hnext; cbn [rbind descend]; rewrite Hnodes; reflexivity |].
    split; [exact Hdata |].
    inversion Hweld. reflexivity.
  - unfold ret in H. inversion H. split; reflexivity.
Qed.

(** The visits of the other elements leave element [i] as it is. *)
Lemma other_elements_untouched self kwargs cname cc P i rest l :
  cursor_next cc = None -> ~ In i l ->
  forall data w data' w1,
    for_each (visit_element self kwargs [(cname, cc)] P None) l data w = (Ok data', w1) ->
    descend (element_path P i ++ rest) data' = descend (element_path P i ++ rest) data.
Proof.
  intros Hflat. induction l as [| j l IH]; intros Hi data w data' w1 H; cbn [for_each] in H.
  - unfold ret in H. inversion H. reflexivity.
  - apply bind_inv_ok in H. destruct H as (data1 & w2 & Hv & H).
    rewrite (IH (fun Hin => Hi (or_intror Hin)) _ _ _ _ H).
    destruct (visit_element_single_inv _ _ _ _ _ _ _ _ _ _ Hflat Hv) as (h & _ & Hcase).
    destruct (truthy h).
    + destruct Hcase as (next & nodes & m & _ & _ & _ & ->).
      apply (descend_update_apart _ _ (assign_key_local "nodes" nodes)).
      unfold nested_path. rewrite <- app_assoc. apply apart_elements.
      intros Heq. apply Hi. left. symmetry. exact Heq.
    + destruct Hcase as [-> _]. reflexivity.
Qed.

(** One top-level cursor with one nested cursor, and a first document
    that announces no further page of the top-level connection: the visit
    of element [i], between the visits of the elements before and after it,
    none of which touches element [i]. *)
Lemma nested_element_run env fuel query token accept max_retries name c cname cc kwargs
    w d0 w1 l final w2 i :
  cursor_next c = Some [(cname, cc)] ->
  cursor_next cc = None ->
  transport env query token accept max_retries kwargs w = (Ok d0, w1) ->
  more (keys_of (cursor_path c)) d0 = false ->
  descend (keys_of (cursor_path c) ++ [KStr "nodes"]) d0 = Ok (JList l) ->
  (i < List.length l)%nat ->
  graphql env (S fuel) query token accept max_retries (Some [(name, c)]) None kwargs w
    = (Ok final, w2) ->
  exists data_b w_b data_i w_i evs_b evs_a,
    (forall rest,
       descend (element_path (keys_of (cursor_path c)) i ++ rest) data_b
       = descend (element_path (keys_of (cursor_path c)) i ++ rest) d0) /\
    visit_element
      (fun cs pp kw => graphql env fuel query token accept max_retries (Some cs) pp kw)
      kwargs [(cname, cc)] (keys_of (cursor_path c)) None i data_b w_b
      = (Ok data_i, w_i) /\
    (forall rest,
       descend (element_path (keys_of (cursor_path c)) i ++ rest) final
       = descend (element_path (keys_of (cursor_path c)) i ++ rest) data_i) /\
    log w_b = log w1 ++ evs_b /\
    log w2 = log w_i ++ evs_a.
Proof.
  intros Hc Hcc Ht Hmore Hnodes Hi H.
  rewrite graphql_unfold in H.
  apply bind_inv_ok in H. destruct H as (d1 & w1' & Ht' & H).
  rewrite Ht in Ht'. inversion Ht'; subst d1 w1'. clear Ht'.
  unfold depaginate in H.
  apply bind_inv_ok in H. destruct H as ([data' kwargs'] & w3 & Hloop & H).
  unfold ret in H. inversion H; subst final w3. clear H. cbn [fst].
  cbn [for_each] in Hloop.
  apply bind_inv_ok in Hloop. destruct Hloop as ([data1 kwargs1] & w4 & Hv & Hloop).
  unfold ret in Hloop. inversion Hloop; subst data1 kwargs1 w4. clear Hloop.
  destruct (visit_cursor_inv _ _ _ _ _ _ _ _ _ _ Hv)
    as (obj & pinfo & h & Hobj & Hpi & Hh & Hcase).
  cbn [given app] in Hobj, Hcase.
  set (P := keys_of (cursor_path c)) in *.
  rewrite (more_at _ _ _ _ _ Hobj Hpi Hh) in Hmore. rewrite Hmore, Hc in Hcase.
  destruct Hcase as (nodes & n & Hnd & Hlen & Hel).
  rewrite (nodes_at _ _ _ Hobj), Hnd in Hnodes. inversion Hnodes; subst nodes.
  cbn [py_len] in Hlen. inversion Hlen; subst n. clear Hlen Hnodes.
  rewrite (seq_around _ _ Hi) in Hel.
  apply for_each_app in Hel. destruct Hel as (data_b & w_b & Hbefore & Hel).
  cbn [for_each] in Hel.
  apply bind_inv_ok in Hel. destruct Hel as (data_i & w_i & Hvi & Hafter).
  assert (Happ : forall l0 d w' res w'',
             for_each
               (visit_element
                  (fun cs pp kw =>
                     graphql env fuel query token accept max_retries (Some cs) pp kw)
                  kwargs [(cname, cc)] P None) l0 d w' = (res, w'') ->
             exists evs0, log w'' = log w' ++ evs0).
  { intros l0 d w' res w'' Hrun.
    refine (appends_for_each _ _ _ _ _ _ _ Hrun).
    intros j d'. apply appends_visit_element.
    intros cs pp kw. apply appends_graphql. }
  destruct (Happ _ _ _ _ _ Hbefore) as (evs_b & Hlb).
  destruct (Happ _ _ _ _ _ Hafter) as (evs_a & Hla).
  exists data_b, w_b, data_i, w_i, evs_b, evs_a.
  split.
  { intros rest.
    assert (Hnot : ~ In i (seq 0 i)) by (intros Hin; apply in_seq in Hin; lia).
    rewrite (other_elements_untouched _ kwargs cname cc P i rest _ Hcc Hnot
               _ _ _ _ Hbefore).
    apply (descend_update_apart _ _ (discard_key_local "pageInfo")).
    unfold apart, element_path. rewrite <- !app_assoc. rewrite !prefixb_app_same.
    split; reflexivity. }
  split; [exact Hvi |].
  split; [| split; [exact Hlb | exact Hla]].
  intros rest.
  refine (other_elements_untouched _ kwargs cname cc P i rest _ Hcc _ _ _ _ _ Hafter).
  intros Hin. apply in_seq in Hin. lia.
Qed.



(** ** Bare path lists and dictionaries (lines 133-137, 176-179) *)

Lemma cursor_path_normalize c : cursor_path (normalize c) = cursor_path c.
Proof. destruct c as [p | p [children |]]; reflexivity. Qed.

Lemma cursor_next_normalize c :
  cursor_next (normalize c) = option_map normalize_tree (cursor_next c).
Proof. destruct c as [p | p [children |]]; reflexivity. Qed.

Lemma normalize_promote c : normalize (promote c) = normalize c.
Proof. destruct c as [p | p [children |]]; reflexivity. Qed.

Lemma normalize_tree_promoted children :
  normalize_tree (map (fun kc => (fst kc, promote (snd kc))) children)
  = normalize_tree children.
Proof.
  induction children as [| [k c] rest IH]; cbn [map normalize_tree fst snd] in *;
    [reflexivity |].
  rewrite normalize_promote. f_equal. exact IH.
Qed.

Lemma same_form_path c c' : normalize c = normalize c' -> cursor_path c = cursor_path c'.
Proof.
  intros H. rewrite <- (cursor_path_normalize c), H. apply cursor_path_normalize.
Qed.

Lemma same_form_next c c' :
  normalize c = normalize c' ->
  match cursor_next c, cursor_next c' with
  | None, None => True
  | Some children, Some children' => normalize_tree children = normalize_tree children'
  | _, _ => False
  end.
Proof.
  intros H. apply (f_equal cursor_next) in H. rewrite !cursor_next_normalize in H.
  destruct (cursor_next c), (cursor_next c'); cbn [option_map] in H;
    try discriminate; [inversion H; reflexivity | exact I].
Qed.

Lemma same_form_cons k c cs cs' :
  normalize_tree ((k, c) :: cs) = normalize_tree cs' ->
  exists c' cs'', cs' = (k, c') :: cs'' /\ normalize c = normalize c' /\
                  normalize_tree cs = normalize_tree cs''.
Proof.
  destruct cs' as [| [k' c'] cs'']; cbn [normalize_tree map]; intros H; [discriminate |].
  inversion H. exists c', cs''. split; [reflexivity |]. split; [assumption | assumption].
Qed.

Lemma same_form_nil cs' : normalize_tree [] = normalize_tree cs' -> cs' = [].
Proof. destruct cs'; [reflexivity | discriminate]. Qed.

Lemma call_required_same_form children : forall children' node_data required,
  normalize_tree children = normalize_tree children' ->
  call_required children node_data required = call_required children' node_data required.
Proof.
  induction children as [| [k c] rest IH]; intros children' node_data required H.
  - rewrite (same_form_nil _ H). reflexivity.
  - destruct (same_form_cons _ _ _ _ H) as (c' & rest' & -> & Hc & Hrest).
    cbn [call_required]. rewrite <- (same_form_path _ _ Hc).
    pose proof (same_form_next _ _ Hc) as Hn.
    destruct (descend (keys_of (cursor_path c)) node_data) as [x | e |];
      cbn [rbind]; try reflexivity.
    destruct (subscript x (KStr "pageInfo")) as [y | e |]; cbn [rbind]; try reflexivity.
    destruct (subscript y (KStr "hasNextPage")) as [h | e |]; cbn [rbind];
      try reflexivity.
    destruct (cursor_next c), (cursor_next c'); try contradiction;
      apply (IH _ _ _ Hrest).
Qed.

Lemma weld_same_form children : forall children' current_path_nodes next data,
  normalize_tree children = normalize_tree children' ->
  weld children current_path_nodes next data = weld children' current_path_nodes next data.
Proof.
  induction children as [| [k c] rest IH]; intros children' current_path_nodes next data H.
  - rewrite (same_form_nil _ H). reflexivity.
  - destruct (same_form_cons _ _ _ _ H) as (c' & rest' & -> & Hc & Hrest).
    cbn [weld]. rewrite <- (same_form_path _ _ Hc).
    destruct (descend2 (current_path_nodes ++ keys_of (cursor_path c)) data next)
      as [[obj_nested next_nested] | e |]; cbn [rbind]; try reflexivity.
    destruct (subscript next_nested (KStr "nodes")) as [nodes | e |]; cbn [rbind];
      try reflexivity.
    destruct (setitem obj_nested "nodes" nodes) as [o | e |]; cbn [rbind];
      try reflexivity.
    apply (IH _ _ _ _ Hrest).
Qed.

Lemma for_each_ext {A S} (body body' : A -> S -> M S) l :
  (forall x s w, body x s w = body' x s w) ->
  forall s w, for_each body l s w = for_each body' l s w.
Proof.
  intros Hb. induction l as [| x l IH]; intros s w; cbn [for_each]; [reflexivity |].
  unfold bind. rewrite Hb. destruct (body' x s w) as [[s1 | e |] w1]; try reflexivity.
  apply IH.
Qed.

Lemma bind_cong {A B} (m m' : M A) (f g : A -> M B) w :
  m w = m' w -> (forall a w1, f a w1 = g a w1) -> bind m f w = bind m' g w.
Proof.
  intros Hm Hf. unfold bind. rewrite Hm.
  destruct (m' w) as [[a | e |] w1]; [apply Hf | reflexivity | reflexivity].
Qed.

Section SameForm.

Variable self : cursor_tree -> option path -> vars -> M json.
Hypothesis self_same_form : forall cs cs' pp kw w,
  normalize_tree cs = normalize_tree cs' -> self cs pp kw w = self cs' pp kw w.

Lemma call_same_form cs cs' pp kw w :
  normalize_tree cs = normalize_tree cs' -> call self cs pp kw w = call self cs' pp kw w.
Proof.
  intros H. unfold call. destruct (clashes kw); [reflexivity |].
  apply self_same_form. exact H.
Qed.

Lemma visit_element_same_form kwargs children children' current_path prev_path i data w :
  normalize_tree children = normalize_tree children' ->
  visit_element self kwargs children current_path prev_path i data w
  = visit_element self kwargs children' current_path prev_path i data w.
Proof.
  intros H. unfold visit_element, bind, lift.
  destruct (descend _ data) as [node_data | e |]; try reflexivity.
  rewrite (call_required_same_form _ _ _ _ H).
  destruct (call_required children' node_data false) as [required | e |];
    try reflexivity.
  destruct (negb required); [reflexivity |].
  rewrite (call_same_form _ (map (fun kc => (fst kc, promote (snd kc))) children') _ _ _)
    by (rewrite !normalize_tree_promoted; exact H).
  destruct (call self _ _ kwargs w) as [[next | e |] w1]; try reflexivity.
  rewrite (weld_same_form _ _ _ _ _ H). reflexivity.
Qed.

Lemma visit_cursor_same_form prev_path name c c' st w :
  normalize c = normalize c' ->
  visit_cursor self prev_path (name, c) st w = visit_cursor self prev_path (name, c') st w.
Proof.
  intros H. destruct st as [data kwargs].
  pose proof (same_form_next _ _ H) as Hn.
  unfold visit_cursor. rewrite <- (same_form_path _ _ H).
  apply bind_cong; [reflexivity | intros obj w1].
  apply bind_cong; [reflexivity | intros [page_info obj'] w2].
  apply bind_cong; [reflexivity | intros h w3].
  apply bind_cong.
  - destruct (truthy h); [| reflexivity].
    apply bind_cong; [reflexivity | intros endCursor w4].
    apply bind_cong; [| intros next w5; reflexivity].
    apply call_same_form. cbn [normalize_tree map]. rewrite !normalize_promote, H.
    reflexivity.
  - intros [[data1 kwargs1] obj1] w4.
    destruct (cursor_next c) as [children |], (cursor_next c') as [children' |];
      try contradiction; [| reflexivity].
    destruct (negb (truthy h)); [| reflexivity].
    apply bind_cong; [reflexivity | intros nodes w5].
    apply bind_cong; [reflexivity | intros n w6].
    apply bind_cong; [| intros data2 w7; reflexivity].
    apply for_each_ext. intros i d w8. apply visit_element_same_form. exact Hn.
Qed.

Lemma for_each_cursors_same_form prev_path cs : forall cs' st w,
  normalize_tree cs = normalize_tree cs' ->
  for_each (visit_cursor self prev_path) cs st w
  = for_each (visit_cursor self prev_path) cs' st w.
Proof.
  induction cs as [| [k c] rest IH]; intros cs' st w H.
  - rewrite (same_form_nil _ H). reflexivity.
  - destruct (same_form_cons _ _ _ _ H) as (c' & rest' & -> & Hc & Hrest).
    cbn [for_each].
    apply bind_cong; [apply visit_cursor_same_form; exact Hc | intros st1 w1].
    apply (IH _ _ _ Hrest).
Qed.

End SameForm.

Lemma graphql_same_form env query token accept max_retries fuel :
  forall cs cs' prev_path kwargs w,
    normalize_tree cs = normalize_tree cs' ->
    graphql env fuel query token accept max_retries (Some cs) prev_path kwargs w
    = graphql env fuel query token accept max_retries (Some cs') prev_path kwargs w.
Proof.
  induction fuel as [| fuel IH]; intros cs cs' prev_path kwargs w H; [reflexivity |].
  rewrite !graphql_unfold.
  apply bind_cong; [reflexivity | intros data w1].
  unfold depaginate.
  apply bind_cong; [| intros st w2; reflexivity].
  apply for_each_cursors_same_form; [| exact H].
  intros cs0 cs0' pp kw w0 H0. apply (IH _ _ _ _ _ H0).
Qed.




(** ** A last page without elements (lines 155-156) *)

(** X10: a connection whose only page has no elements ends the visit of its
    cursor, whatever cursors are nested below it: the call makes no request
    beyond the first and returns the first document without the [pageInfo]
    of the connection. *)
Theorem empty_page_makes_no_nested_call :
  forall env fuel query token accept max_retries name c prev_path kwargs w d0 w1
         pinfo h nodes,
    transport env query token accept max_retries kwargs w = (Ok d0, w1) ->
    descend (path_of_cursor prev_path c ++ [KStr "pageInfo"]) d0 = Ok pinfo ->
    subscript pinfo (KStr "hasNextPage") = Ok h ->
    truthy h = false ->
    descend (path_of_cursor prev_path c ++ [KStr "nodes"]) d0 = Ok nodes ->
    py_len nodes = Ok 0%nat ->
    graphql env (S fuel) query token accept max_retries (Some [(name, c)]) prev_path
      kwargs w
    = (Ok (update_at (path_of_cursor prev_path c) (discard "pageInfo") d0), w1).
Proof.
  intros env fuel query token accept max_retries name c prev_path kwargs w d0 w1
    pinfo h nodes Ht Hpi Hh Hfalse Hnodes Hlen.
  destruct (descend_snoc _ _ _ _ Hpi) as (obj & Hobj & Hpinfo).
  rewrite (nodes_at _ _ _ Hobj) in Hnodes.
  rewrite graphql_unfold, (bind_ok _ _ _ _ _ Ht).
  unfold depaginate. cbn [for_each]. unfold visit_cursor.
  fold (path_of_cursor prev_path c).
  unfold bind, lift, ret.
  rewrite Hobj, (pop_of_subscript _ _ _ Hpinfo), Hh, Hfalse.
  destruct (cursor_next c) as [children |]; [| reflexivity].
  cbn [negb].
  rewrite (discard_key_local "pageInfo" obj (KStr "nodes")) by discriminate.
  rewrite Hnodes, Hlen. reflexivity.
Qed.

Lemma empty_page_makes_no_nested_call_witness :
  graphql None 1 "query { repository { pullRequests } }" (Some "t") "" 8
    (Some [("cursor2", pulls_cursor)]) None [] (mkWorld [ok_reply no_pulls] [])
  = (Ok (update_at (path_of_cursor None pulls_cursor) (discard "pageInfo") no_pulls),
     snd (transport None "query { repository { pullRequests } }" (Some "t") "" 8 []
            (mkWorld [ok_reply no_pulls] []))).
Proof.
  exact (empty_page_makes_no_nested_call None 0 "query { repository { pullRequests } }"
           (Some "t") "" 8 "cursor2" pulls_cursor None [] (mkWorld [ok_reply no_pulls] [])
           no_pulls
           (snd (transport None "query { repository { pullRequests } }" (Some "t") "" 8 []
                   (mkWorld [ok_reply no_pulls] [])))
           (page_info false "P") (JBool false) (JList [])
           eq_refl eq_refl eq_refl eq_refl eq_refl eq_refl).
Defined.

(** ** The [pageInfo] of a nested connection (lines 183, 202) *)

(** X16: one top-level cursor with one nested cursor, and a first document
    that announces no further page of the top-level connection.  In the
    result the nested connection of every element of that page keeps its
    [pageInfo], and it is the one of the first document: what
    [hasNextPage] and [endCursor] said before the nested pages were
    fetched. *)
Theorem nested_pageInfo_is_the_first_served :
  forall env fuel query token accept max_retries name c cname cc kwargs w d0 w1 l
         final w2 i,
    cursor_next c = Some [(cname, cc)] ->
    cursor_next cc = None ->
    transport env query token accept max_retries kwargs w = (Ok d0, w1) ->
    more (keys_of (cursor_path c)) d0 = false ->
    descend (keys_of (cursor_path c) ++ [KStr "nodes"]) d0 = Ok (JList l) ->
    (i < List.length l)%nat ->
    graphql env (S fuel) query token accept max_retries (Some [(name, c)]) None kwargs w
      = (Ok final, w2) ->
    exists pinfo,
      descend (nested_path (keys_of (cursor_path c)) i cc ++ [KStr "pageInfo"]) d0
        = Ok pinfo /\
      descend (nested_path (keys_of (cursor_path c)) i cc ++ [KStr "pageInfo"]) final
        = Ok pinfo.
Proof.
  intros env fuel query token accept max_retries name c cname cc kwargs w d0 w1 l
    final w2 i Hc Hcc Ht Hmore Hnodes Hi H.
  destruct (nested_element_run _ _ _ _ _ _ _ _ _ _ _ _ _ _ _ _ _ _
              Hc Hcc Ht Hmore Hnodes Hi H)
    as (data_b & w_b & data_i & w_i & evs_b & evs_a & Hb & Hvi & Ha & Hlb & Hla).
  set (P := keys_of (cursor_path c)) in *.
  destruct (visit_element_single_inv _ _ _ _ _ _ _ _ _ _ Hcc Hvi) as (h_i & Hhi & Hcase).
  change [KStr "pageInfo"; KStr "hasNextPage"]
    with ([KStr "pageInfo"] ++ [KStr "hasNextPage"]) in Hhi.
  rewrite app_assoc in Hhi.
  destruct (descend_snoc _ _ _ _ Hhi) as (pinfo & Hpinfo & _).
  assert (Hsame : descend (nested_path P i cc ++ [KStr "pageInfo"]) data_i
                  = descend (nested_path P i cc ++ [KStr "pageInfo"]) data_b).
  { destruct (truthy h_i).
    - destruct Hcase as (next & nodes & m & _ & _ & _ & ->).
      apply (descend_update_apart _ _ (assign_key_local "nodes" nodes)).
      unfold apart. rewrite !prefixb_app_same. split; reflexivity.
    - destruct Hcase as [-> _]. reflexivity. }
  exists pinfo. unfold nested_path in *. rewrite <- app_assoc in *.
  split.
  - rewrite <- Hb. exact Hpinfo.
  - rewrite Ha, Hsame. exact Hpinfo.
Qed.

Lemma nested_pageInfo_is_the_first_served_witness :
  exists pinfo,
    descend (nested_path pulls_path 0 timeline_cursor ++ [KStr "pageInfo"])
      (pulls false "P" [pull_request true "T1" [item 1]]) = Ok pinfo /\
    descend (nested_path pulls_path 0 timeline_cursor ++ [KStr "pageInfo"]) nested_final
      = Ok pinfo.
Proof.
  exact (nested_pageInfo_is_the_first_served None 3
           "query { repository { pullRequests } }" (Some "t") "" 8 "cursor2"
           pulls_cursor "cursor3" timeline_cursor [] (mkWorld nested_script [])
           (pulls false "P" [pull_request true "T1" [item 1]])
           (snd (transport None "query { repository { pullRequests } }" (Some "t") "" 8
                   [] (mkWorld nested_script [])))
           [pull_request true "T1" [item 1]]
           nested_final
           (snd (run nested_script pulls_cursors))
           0%nat eq_refl eq_refl eq_refl eq_refl eq_refl (Nat.lt_0_succ 0) eq_refl).
Defined.

(** ** The elements of a page that is not the last (lines 146-155) *)

(** One visit that follows a further page, taken apart. *)
Lemma visit_cursor_more_inv self prev_path name c data kwargs w data' kwargs' w1 :
  visit_cursor self prev_path (name, c) (data, kwargs) w = (Ok (data', kwargs'), w1) ->
  more (path_of_cursor prev_path c) data = true ->
  exists l1 endCursor next,
    descend (path_of_cursor prev_path c ++ [KStr "nodes"]) data = Ok (JList l1) /\
    descend (path_of_cursor prev_path c ++ [KStr "pageInfo"; KStr "endCursor"]) data
      = Ok endCursor /\
    call self [(name, promote c)] prev_path (set_key name endCursor kwargs) w
      = (Ok next, w1) /\
    descend (path_of_cursor prev_path c ++ [KStr "nodes"]) data'
      = Ok (JList (l1 ++ items (path_of_cursor prev_path c) next)).
Proof.
  intros H Hmore. unfold visit_cursor in H. fold (path_of_cursor prev_path c) in H.
  set (P := path_of_cursor prev_path c) in *.
  apply bind_inv_ok in H. destruct H as (obj & w2 & Hobj & H).
  apply lift_inv_ok in Hobj. destruct Hobj as [Hobj ->].
  apply bind_inv_ok in H. destruct H as ([pinfo obj'] & w2 & Hpop & H).
  apply lift_inv_ok in Hpop. destruct Hpop as [Hpop ->].
  apply pop_inv in Hpop. destruct Hpop as [Hpinfo ->].
  apply bind_inv_ok in H. destruct H as (h & w2 & Hh & H).
  apply lift_inv_ok in Hh. destruct Hh as [Hh ->].
  apply bind_inv_ok in H. destruct H as ([[data2 kwargs2] obj2] & w2 & Hmerge & H).
  rewrite (more_at _ _ _ _ _ Hobj Hpinfo Hh) in Hmore. rewrite Hmore in Hmerge, H.
  apply bind_inv_ok in Hmerge. destruct Hmerge as (endCursor & w3 & He & Hmerge).
  apply lift_inv_ok in He. destruct He as [He ->].
  apply bind_inv_ok in Hmerge. destruct Hmerge as (next & w3 & Hcall & Hmerge).
  apply bind_inv_ok in Hmerge. destruct Hmerge as (next' & w4 & Hn & Hmerge).
  apply lift_inv_ok in Hn. destruct Hn as [Hn ->].
  apply bind_inv_ok in Hmerge. destruct Hmerge as (nodes & w4 & Hnd & Hmerge).
  apply lift_inv_ok in Hnd. destruct Hnd as [Hnd ->].
  apply bind_inv_ok in Hmerge. destruct Hmerge as (l1 & w4 & Ht & Hmerge).
  apply lift_inv_ok in Ht. destruct Ht as [Ht ->].
  apply extend_target_inv in Ht. subst nodes.
  apply bind_inv_ok in Hmerge. destruct Hmerge as (next_nodes & w4 & Hnn & Hmerge).
  apply lift_inv_ok in Hnn. destruct Hnn as [Hnn ->].
  apply bind_inv_ok in Hmerge. destruct Hmerge as (its & w4 & Hits & Hmerge).
  apply lift_inv_ok in Hits. destruct Hits as [Hits ->].
  unfold ret in Hmerge. inversion Hmerge; subst data2 kwargs2 obj2 w2. clear Hmerge.
  assert (Hdata' : data' = update_at (P ++ [KStr "nodes"]) (append its)
                             (update_at P (discard "pageInfo") data) /\ w1 = w3).
  { destruct (cursor_next c); cbn [negb] in H; unfold ret in H; inversion H;
      split; reflexivity. }
  destruct Hdata' as [-> ->].
  rewrite (discard_key_local "pageInfo" obj (KStr "nodes")) in Hnd by discriminate.
  assert (Hfirst : descend (P ++ [KStr "nodes"]) data = Ok (JList l1)).
  { rewrite (nodes_at _ _ _ Hobj). exact Hnd. }
  exists l1, endCursor, next.
  split; [exact Hfirst |].
  split.
  { rewrite descend_app, Hobj. cbn [rbind descend]. rewrite Hpinfo. cbn [rbind].
    rewrite He. reflexivity. }
  split; [exact Hcall |].
  rewrite (items_at P next next_nodes its);
    [| rewrite (nodes_at _ _ _ Hn); exact Hnn | exact Hits].
  apply nodes_after_extend_at. rewrite nodes_after_pop_at. exact Hfirst.
Qed.

(** X15: when the first document announces a further page of the
    connection of the cursor, the call makes the follow-up call - the same
    call with the variable named after the cursor set to the [endCursor]
    of the first document - on the world that the first exchange left, and
    ends where the follow-up call ends.  The [nodes] of the first document
    were a list, and the [nodes] of the result are that list, as it was
    served, followed by the elements of the [nodes] of what the follow-up
    call returned, whatever cursors are nested below. *)
Theorem first_page_stays_as_served :
  forall env fuel query token accept max_retries name c prev_path kwargs w d0 w1
         final w2,
    transport env query token accept max_retries kwargs w = (Ok d0, w1) ->
    more (path_of_cursor prev_path c) d0 = true ->
    graphql env (S fuel) query token accept max_retries (Some [(name, c)]) prev_path
      kwargs w = (Ok final, w2) ->
    exists l1 endCursor next,
      descend (path_of_cursor prev_path c ++ [KStr "nodes"]) d0 = Ok (JList l1) /\
      descend (path_of_cursor prev_path c ++ [KStr "pageInfo"; KStr "endCursor"]) d0
        = Ok endCursor /\
      graphql env fuel query token accept max_retries (Some [(name, c)]) prev_path
        (set_key name endCursor kwargs) w1 = (Ok next, w2) /\
      descend (path_of_cursor prev_path c ++ [KStr "nodes"]) final
        = Ok (JList (l1 ++ items (path_of_cursor prev_path c) next)).
Proof.
  intros env fuel query token accept max_retries name c prev_path kwargs w d0 w1
    final w2 Ht Hmore H.
  rewrite graphql_unfold in H.
  apply bind_inv_ok in H. destruct H as (d1 & w1' & Ht' & H).
  rewrite Ht in Ht'. inversion Ht'; subst d1 w1'. clear Ht'.
  unfold depaginate in H.
  apply bind_inv_ok in H. destruct H as ([data' kwargs'] & w3 & Hloop & H).
  unfold ret in H. inversion H; subst final w3. clear H. cbn [fst].
  cbn [for_each] in Hloop.
  apply bind_inv_ok in Hloop. destruct Hloop as ([data1 kwargs1] & w4 & Hv & Hloop).
  unfold ret in Hloop. inversion Hloop; subst data1 kwargs1 w4. clear Hloop.
  destruct (visit_cursor_more_inv _ _ _ _ _ _ _ _ _ _ Hv Hmore)
    as (l1 & endCursor & next & Hl1 & He & Hcall & Hfinal).
  apply call_inv in Hcall.
  rewrite (graphql_same_form env query token accept max_retries fuel
             [(name, promote c)] [(name, c)]) in Hcall
    by (cbn [normalize_tree map]; rewrite normalize_promote; reflexivity).
  exists l1, endCursor, next.
  split; [exact Hl1 |]. split; [exact He |]. split; [exact Hcall | exact Hfinal].
Qed.

Lemma first_page_stays_as_served_witness :
  exists l1 endCursor next,
    descend (path_of_cursor None pulls_cursor ++ [KStr "nodes"]) two_pages_first
      = Ok (JList l1) /\
    descend (path_of_cursor None pulls_cursor ++ [KStr "pageInfo"; KStr "endCursor"])
      two_pages_first = Ok endCursor /\
    graphql None 4 "query { repository { pullRequests } }" (Some "t") "" 8
      (Some [("cursor2", pulls_cursor)]) None (set_key "cursor2" endCursor [])
      (snd (transport None "query { repository { pullRequests } }" (Some "t") "" 8
              [] (mkWorld two_pages_script [])))
      = (Ok next, snd (run two_pages_script pulls_cursors)) /\
    descend (path_of_cursor None pulls_cursor ++ [KStr "nodes"]) two_pages_final
      = Ok (JList (l1 ++ items (path_of_cursor None pulls_cursor) next)).
Proof.
  exact (first_page_stays_as_served None 4 "query { repository { pullRequests } }"
           (Some "t") "" 8 "cursor2" pulls_cursor None [] (mkWorld two_pages_script [])
           two_pages_first
           (snd (transport None "query { repository { pullRequests } }" (Some "t") "" 8
                   [] (mkWorld two_pages_script [])))
           two_pages_final
           (snd (run two_pages_script pulls_cursors))
           eq_refl eq_refl eq_refl).
Defined.
